(** * Property loading for the tsuba storage layer

    A shallow embedding of [libtsuba/src/AddProperties.cpp]: the column
    loaders [LoadProperties] and [LoadPropertySlice], and the two
    orchestrators [AddProperties] and [AddPropertySlice] that walk a batch of
    property descriptors, probe the property cache, load the missing columns
    (directly, or through a [ReadGroup] resolved later) and record the
    outcome in the descriptors.

    Conventions of the embedding.
    - Caller-owned objects reached through pointers (the descriptors, the
      cache key, the cache, the table the merge function fills, the tracer)
      live in one explicit store, [World]; a descriptor pointer is an index
      into the store's descriptor list, so two equal pointers alias.
    - A computation is a function [World -> option (A * World)]; [None]
      stands for behaviour the C++ program leaves undefined (a dangling
      descriptor pointer, [field(0)] of a table without fields, a violated
      precondition of a descriptor transition).
    - [katana::Result] is the sum [Result]; a C++ exception is the second
      constructor of [Throws].
    - The background task started by [std::async] only reads the property
      name and the storage, neither of which this code writes; its result is
      therefore a function of the inputs and is computed when the task is
      created.  Completion callbacks are closures over the store and run when
      the read group is resolved.

    The file also embeds the chunked deque of [Galois/gdeque.h], with its
    blocks in an explicit memory; its conventions are given where its model
    starts. *)

From Stdlib Require Import ZArith String Ascii List Lia.
From stdpp Require Import base option list strings gmap pretty.

Local Open Scope string_scope.
Local Open Scope list_scope.

(** ** Errors and results ([katana/Result.h], [tsuba/Errors.h]) *)

(** The error codes this file raises, and a catch-all for those that only
    pass through it (reader and merge errors). *)
Inductive ErrorCode : Type :=
  | InvalidArgument
  | ArrowError
  | Exists
  | OtherCode (n : nat).

(** Modelled from the spec: [katana::ErrorInfo] is declared in
    [katana/Result.h], which is not part of the sources at hand.  An error
    carries its code, its message and the contexts added while it
    propagates, most recent first. *)
Record ErrorInfo : Type := mkErrorInfo {
  error_code : ErrorCode;
  message : string;
  context : list string
}.

Definition KATANA_ERROR (code : ErrorCode) (msg : string) : ErrorInfo :=
  {| error_code := code; message := msg; context := [] |}.

Definition WithContext (ctx : string) (e : ErrorInfo) : ErrorInfo :=
  {| error_code := error_code e; message := message e;
     context := ctx :: context e |}.

Inductive Result (A : Type) : Type :=
  | Ok (a : A)
  | Err (e : ErrorInfo).
Arguments Ok {A} a.
Arguments Err {A} e.

(** [katana::CopyableResult] differs from [katana::Result] in copyability
    only. *)
Definition CopyableResult : Type -> Type := Result.

Definition ResultSuccess : Result unit := Ok tt.
Definition CopyableResultSuccess : Result unit := Ok tt.

(** KATANA_CHECKED_CONTEXT on a result: an error gains the context. *)
Definition checked_context {A} (ctx : string) (r : Result A) : Result A :=
  match r with
  | Ok a => Ok a
  | Err e => Err (WithContext ctx e)
  end.

(** A call into code that may throw [std::exception]. *)
Inductive Throws (A : Type) : Type :=
  | Returns (a : A)
  | Throw (what : string).
Arguments Returns {A} a.
Arguments Throw {A} what.

(** ** Message formatting *)

Definition dquote : ascii := ascii_of_nat 34.
Definition backslash : ascii := ascii_of_nat 92.

(** [std::quoted]: the text between double quotes, with a backslash before
    every double quote and backslash of the text. *)
Fixpoint quoted_body (s : string) : string :=
  match s with
  | EmptyString => String dquote EmptyString
  | String c rest =>
      if bool_decide (c = dquote \/ c = backslash)
      then String backslash (String c (quoted_body rest))
      else String c (quoted_body rest)
  end.

Definition quoted (s : string) : string := String dquote (quoted_body s).

(** ** Arrow tables *)

Inductive DataType : Type :=
  | boolean
  | int64
  | float64
  | utf8.

Record Field : Type := mkField {
  field_name : string;
  field_type : DataType
}.

(** An [arrow::Table]: its schema and one list of values per column. *)
Record Table : Type := mkTable {
  schema : list Field;
  columns : list (list Z)
}.

Definition num_fields (s : list Field) : nat := List.length s.

(** ** Locations and read options *)

Definition Uri : Type := string.

Record Slice : Type := mkSlice {
  offset : Z;
  length : Z
}.

Record ReadOpts : Type := mkReadOpts {
  slice : option Slice
}.

Definition Defaults : ReadOpts := {| slice := None |}.

(** [read_opts.slice = slice]. *)
Definition with_slice (read_opts : ReadOpts) (s : option Slice) : ReadOpts :=
  {| slice := s |}.

Definition two64 : Z := 2 ^ 64.

(** A 64-bit unsigned value, and its conversion to [int64_t] when it is
    passed where a signed 64-bit parameter is expected. *)
Definition is_uint64 (x : Z) : Prop := (0 <= x < two64)%Z.

Definition to_int64 (x : Z) : Z :=
  if (x mod two64 <? 2 ^ 63)%Z then (x mod two64)%Z else (x mod two64 - two64)%Z.



(** ** Property descriptors and cache keys *)

(** Modelled from the spec: [tsuba::PropStorageInfo] is declared in a header
    that is not part of the sources at hand.  The descriptor has the fields
    and the life cycle of the spec's data model; [kLoading] is part of
    that model but no statement of [AddProperties.cpp] assigns it. *)
Inductive State : Type :=
  | kAbsent
  | kLoading
  | kLoaded
  | kModified.

Record PropStorageInfo : Type := mkPropStorageInfo {
  name : string;
  path : string;
  state : State;
  type : option DataType
}.

Definition IsAbsent (d : PropStorageInfo) : bool :=
  match state d with
  | kAbsent => true
  | _ => false
  end.

(** Modelled from the spec: marking a descriptor loaded requires it to be
    absent; it becomes loaded and records the data type.  Outside the
    precondition the result is left undefined. *)
Definition WasLoaded (ty : DataType) (d : PropStorageInfo)
  : option PropStorageInfo :=
  match state d with
  | kAbsent =>
      Some {| name := name d; path := path d; state := kLoaded;
              type := Some ty |}
  | _ => None
  end.

(** Modelled from the spec: marking a descriptor modified requires it to be
    absent or loaded; it becomes modified and records the data type again. *)
Definition WasModified (ty : DataType) (d : PropStorageInfo)
  : option PropStorageInfo :=
  match state d with
  | kAbsent | kLoaded =>
      Some {| name := name d; path := path d; state := kModified;
              type := Some ty |}
  | _ => None
  end.

Inductive NodeEdge : Type :=
  | kNode
  | kEdge.

(** Modelled from the spec: [tsuba::PropertyCacheKey] is the property
    identity, an owner kind and a name, compared field by field. *)
Record PropertyCacheKey : Type := mkPropertyCacheKey {
  node_edge : NodeEdge;
  key_name : string
}.

#[global] Instance NodeEdge_eq_dec : EqDecision NodeEdge.
Proof. solve_decision. Defined.

#[global] Instance PropertyCacheKey_eq_dec : EqDecision PropertyCacheKey.
Proof. solve_decision. Defined.

#[global] Instance PropertyCacheKey_countable : Countable PropertyCacheKey.
Proof.
  refine (inj_countable'
    (fun k => (match node_edge k with kNode => true | kEdge => false end,
               key_name k))
    (fun p => {| node_edge := if p.1 then kNode else kEdge;
                 key_name := p.2 |}) _).
  intros [[] n]; reflexivity.
Defined.

#[global] Instance State_eq_dec : EqDecision State.
Proof. solve_decision. Defined.

(** [cache_key->name = n]. *)
Definition set_name (n : string) (k : PropertyCacheKey) : PropertyCacheKey :=
  {| node_edge := node_edge k; key_name := n |}.

(** A span handed to the tracer, with its tags. *)
Record Span : Type := mkSpan {
  span_name : string;
  tags : list (string * string)
}.

Definition type_tag (k : PropertyCacheKey) : string :=
  match node_edge k with
  | kNode => "node"
  | kEdge => "edge"
  end.

(** ** The column loaders *)

(** What the code reaches outside this file and does not define: the
    Parquet reader of [tsuba/ParquetReader.h] with what it finds in storage,
    the composition of locations of [katana::Uri], the type of the
    caller's data that the merge function fills, and the property cache.

    Modelled from the spec: [tsuba::PropertyCache] is consumed through
    [Get] and [Insert] only, and a probe returns the column that has just
    been inserted under the identity ([Get_Insert]).  What else an
    insertion does to the cache, and so which other entries it keeps, is
    the cache's own policy and is left open. *)
Class Environment : Type := {
  ParquetReader : Type;
  Make : ReadOpts -> Throws (Result ParquetReader);
  ReadTable : ParquetReader -> Uri -> Throws (Result Table);
  Join : Uri -> string -> Uri;
  MergeTarget : Type;
  PropertyCache : Type;
  Get : PropertyCacheKey -> PropertyCache -> option Table;
  Insert : PropertyCacheKey -> Table -> PropertyCache -> PropertyCache;
  Get_Insert : forall k t c, Get k (Insert k t c) = Some t
}.

(** The two schema checks of [DoLoadProperties] (one field, of the expected
    name); the first pattern is [num_fields() == 1] with [field(0)] bound. *)
Definition check_schema (expected_name : string) (out : Table)
  : Result Table :=
  match schema out with
  | [f] =>
      if bool_decide (field_name f = expected_name)
      then Ok out
      else Err (KATANA_ERROR InvalidArgument
                  ("expected " +:+ expected_name +:+ " found "
                   +:+ field_name f +:+ " instead"))
  | fs =>
      Err (KATANA_ERROR InvalidArgument
             ("expected 1 field found " +:+ pretty (num_fields fs)
              +:+ " instead"))
  end.

Section Loaders.
Context {E : Environment}.

Definition DoLoadProperties (expected_name : string) (file_path : Uri)
    (slice : option Slice) : Throws (Result Table) :=
  let read_opts := with_slice Defaults slice in
  match Make read_opts with
  | Throw what => Throw what
  | Returns (Err e) => Returns (Err (WithContext "loading property" e))
  | Returns (Ok reader) =>
      match ReadTable reader file_path with
      | Throw what => Throw what
      | Returns (Err e) => Returns (Err (WithContext "loading property" e))
      | Returns (Ok out) => Returns (check_schema expected_name out)
      end
  end.

Definition LoadProperties (expected_name : string) (file_path : Uri)
  : Result Table :=
  match DoLoadProperties expected_name file_path None with
  | Returns r => r
  | Throw what =>
      Err (KATANA_ERROR ArrowError ("arrow exception: " +:+ what))
  end.

Definition LoadPropertySlice (expected_name : string) (file_path : Uri)
    (offset length : Z) : Result Table :=
  match DoLoadProperties expected_name file_path
          (Some {| offset := offset; length := length |}) with
  | Returns r => r
  | Throw what =>
      Err (KATANA_ERROR ArrowError ("arrow exception: " +:+ what))
  end.

End Loaders.

(** ** The store and its computations *)

Section Orchestrator.
Context {E : Environment}.

(** The objects the orchestrators reach through their pointer arguments:
    the caller's descriptors ([properties] holds indices into
    [descriptors]), the object [cache_key] points to, the cache, the data
    the merge function fills, and the spans given to the tracer. *)
Record World : Type := mkWorld {
  descriptors : list PropStorageInfo;
  cache_key : PropertyCacheKey;
  the_cache : PropertyCache;
  merged : MergeTarget;
  spans : list Span
}.

Definition Exec (A : Type) : Type := World -> option (A * World).

Definition ret {A} (a : A) : Exec A := fun w => Some (a, w).

Definition bind {A B} (m : Exec A) (k : A -> Exec B) : Exec B :=
  fun w =>
    match m w with
    | Some (a, w') => k a w'
    | None => None
    end.

Definition undefined {A} : Exec A := fun _ => None.

Local Notation "x <- m ;; k" := (bind m (fun x => k))
  (at level 100, m at next level, right associativity).
Local Notation "m ;; k" := (bind m (fun _ => k))
  (at level 100, right associativity).

(** Assignments to the parts of the store. *)
Definition set_descriptors (ds : list PropStorageInfo) (w : World) : World :=
  {| descriptors := ds; cache_key := cache_key w;
     the_cache := the_cache w; merged := merged w; spans := spans w |}.

Definition set_cache_key (k : PropertyCacheKey) (w : World) : World :=
  {| descriptors := descriptors w; cache_key := k;
     the_cache := the_cache w; merged := merged w; spans := spans w |}.

Definition set_the_cache (c : PropertyCache) (w : World) : World :=
  {| descriptors := descriptors w; cache_key := cache_key w;
     the_cache := c; merged := merged w; spans := spans w |}.

Definition set_merged (m : MergeTarget) (w : World) : World :=
  {| descriptors := descriptors w; cache_key := cache_key w;
     the_cache := the_cache w; merged := m; spans := spans w |}.

Definition set_spans (l : list Span) (w : World) : World :=
  {| descriptors := descriptors w; cache_key := cache_key w;
     the_cache := the_cache w; merged := merged w; spans := l |}.

(** [*prop] *)
Definition deref (prop : nat) : Exec PropStorageInfo :=
  fun w =>
    match descriptors w !! prop with
    | Some d => Some (d, w)
    | None => None
    end.

Definition store (prop : nat) (d : PropStorageInfo) : Exec unit :=
  fun w => Some (tt, set_descriptors (<[prop := d]> (descriptors w)) w).

(** [prop->WasLoaded(ty)] and [prop->WasModified(ty)] *)
Definition prop_WasLoaded (prop : nat) (ty : DataType) : Exec unit :=
  d <- deref prop;;
  match WasLoaded ty d with
  | Some d' => store prop d'
  | None => undefined
  end.

Definition prop_WasModified (prop : nat) (ty : DataType) : Exec unit :=
  d <- deref prop;;
  match WasModified ty d with
  | Some d' => store prop d'
  | None => undefined
  end.

(** [props->field(0)->type()] *)
Definition field0_type (props : Table) : Exec DataType :=
  match schema props with
  | f :: _ => ret (field_type f)
  | [] => undefined
  end.

(** The caller's merge function: it updates the caller's data and
    succeeds or fails. *)
Definition MergeFn : Type :=
  Table -> MergeTarget -> MergeTarget * Result unit.

Definition call (add_fn : MergeFn) (props : Table) : Exec (Result unit) :=
  fun w =>
    let '(m, r) := add_fn props (merged w) in
    Some (r, set_merged m w).

Definition read_cache_key : Exec PropertyCacheKey :=
  fun w => Some (cache_key w, w).

(** [cache_key->name = n] *)
Definition write_cache_key_name (n : string) : Exec unit :=
  fun w => Some (tt, set_cache_key (set_name n (cache_key w)) w).

Definition cache_Get (k : PropertyCacheKey) : Exec (option Table) :=
  fun w => Some (Get k (the_cache w), w).

Definition cache_Insert (k : PropertyCacheKey) (t : Table) : Exec unit :=
  fun w => Some (tt, set_the_cache (Insert k t (the_cache w)) w).

(** [tracer.StartActiveSpan(label)] followed by [SetTags] on the span. *)
Definition trace (label : string) (tgs : list (string * string))
  : Exec unit :=
  fun w =>
    Some (tt, set_spans (spans w ++ [{| span_name := label; tags := tgs |}]) w).

(** ** Read groups *)

(** Modelled from the spec: [tsuba::ReadGroup] is not part of the sources
    at hand.  A pending operation is the result of its background
    computation, its diagnostic label and its completion callback. *)
Record PendingOp : Type := mkPendingOp {
  op_future : CopyableResult Table;
  op_file : string;
  op_on_complete : Table -> Exec (CopyableResult unit)
}.

Definition ReadGroup : Type := list PendingOp.

Definition AddReturnsOp (future : CopyableResult Table) (file : string)
    (on_complete : Table -> Exec (CopyableResult unit)) (grp : ReadGroup)
  : ReadGroup :=
  grp ++ [{| op_future := future; op_file := file;
             op_on_complete := on_complete |}].

(** Modelled from the spec: resolving the group awaits every entry in the
    order of submission; on success it invokes the callback and records
    its outcome, on failure it skips the callback and records the error
    tagged with the label.  Every outcome is recorded. *)
Fixpoint Finish (grp : ReadGroup) : Exec (list (Result unit)) :=
  match grp with
  | [] => ret []
  | op :: rest =>
      match op_future op with
      | Err e =>
          outcomes <- Finish rest;;
          ret (Err (WithContext (op_file op) e) :: outcomes)
      | Ok props =>
          r <- op_on_complete op props;;
          outcomes <- Finish rest;;
          ret (r :: outcomes)
      end
  end.

(** ** The loops over the batch *)

(** How one iteration of the [for] loop ends: it falls through to the next
    descriptor, or the function returns. *)
Inductive Control : Type :=
  | Continue
  | Return (r : Result unit).

Fixpoint for_each
    (body : option ReadGroup -> nat -> Exec (Control * option ReadGroup))
    (properties : list nat) (grp : option ReadGroup)
  : Exec (Control * option ReadGroup) :=
  match properties with
  | [] => ret (Continue, grp)
  | prop :: rest =>
      cg <- body grp prop;;
      match cg with
      | (Continue, grp') => for_each body rest grp'
      | (Return r, grp') => ret (Return r, grp')
      end
  end.

(** The statement after the loop: [return katana::ResultSuccess()]. *)
Definition return_after (cg : Control * option ReadGroup)
  : Result unit * option ReadGroup :=
  match cg with
  | (Continue, grp) => (ResultSuccess, grp)
  | (Return r, grp) => (r, grp)
  end.

Definition must_be_absent (d : PropStorageInfo) : ErrorInfo :=
  KATANA_ERROR Exists
    ("property " +:+ quoted (name d) +:+ " must be absent to be added").

Definition key_tags (k : PropertyCacheKey) (d : PropStorageInfo)
  : list (string * string) :=
  [("type", type_tag k); ("name", name d)].

(** ** AddProperties *)

(** The completion callback of [AddProperties]; [cache] tells whether the
    captured cache pointer is not null. *)
Definition on_complete (add_fn : MergeFn) (prop : nat) (cache : bool)
    (props : Table) : Exec (CopyableResult unit) :=
  r <- call add_fn props;;
  match r with
  | Err e =>
      d <- deref prop;;
      ret (Err (WithContext ("adding " +:+ quoted (name d)) e))
  | Ok _ =>
      ty <- field0_type props;;
      prop_WasLoaded prop ty;;
      if cache then
        k <- read_cache_key;;
        d <- deref prop;;
        trace "property inserted into cache" (key_tags k d);;
        write_cache_key_name (name d);;
        k' <- read_cache_key;;
        cache_Insert k' props;;
        ret CopyableResultSuccess
      else ret CopyableResultSuccess
  end.

(** The background task of [AddProperties]. *)
Definition load_task (d : PropStorageInfo) (path : Uri)
  : CopyableResult Table :=
  checked_context ("error loading " +:+ path) (LoadProperties (name d) path).

Definition AddProperties_body (uri : Uri) (cache : bool) (add_fn : MergeFn)
    (grp : option ReadGroup) (prop : nat)
  : Exec (Control * option ReadGroup) :=
  d <- deref prop;;
  if negb (IsAbsent d) then ret (Return (Err (must_be_absent d)), grp)
  else
    column_table <-
      (if cache then
         write_cache_key_name (name d);;
         k <- read_cache_key;;
         cache_Get k
       else ret None);;
    match column_table with
    | Some props =>
        r <- call add_fn props;;
        match r with
        | Err e =>
            ret (Return (Err (WithContext ("adding " +:+ quoted (name d)) e)),
                 grp)
        | Ok _ =>
            ty <- field0_type props;;
            prop_WasLoaded prop ty;;
            k <- read_cache_key;;
            trace "property loaded from cache" (key_tags k d);;
            ret (Return ResultSuccess, grp)
        end
    | None =>
        let path := Join uri (path d) in
        let future := load_task d path in
        match grp with
        | Some g =>
            ret (Continue,
                 Some (AddReturnsOp future path
                         (on_complete add_fn prop cache) g))
        | None =>
            match future with
            | Err e => ret (Return (Err e), grp)
            | Ok read_res =>
                r <- on_complete add_fn prop cache read_res;;
                match r with
                | Err e => ret (Return (Err e), grp)
                | Ok _ => ret (Continue, grp)
                end
            end
        end
    end.

Definition AddProperties_loop (uri : Uri) (cache : bool)
    (properties : list nat) (grp : option ReadGroup) (add_fn : MergeFn)
  : Exec (Control * option ReadGroup) :=
  for_each (AddProperties_body uri cache add_fn) properties grp.

(** [cache] tells whether the cache pointer is not null; the objects
    [cache_key] and [cache] point to are those of the store.  [grp] is
    [None] for a null group pointer, and otherwise the pending operations
    of the group, which the call returns extended. *)
Definition AddProperties (uri : Uri) (cache : bool)
    (properties : list nat) (grp : option ReadGroup) (add_fn : MergeFn)
  : Exec (Result unit * option ReadGroup) :=
  cg <- AddProperties_loop uri cache properties grp add_fn;;
  ret (return_after cg).

(** ** AddPropertySlice *)

Definition slice_on_complete (add_fn : MergeFn) (prop : nat)
    (props : Table) : Exec (CopyableResult unit) :=
  add_result <- call add_fn props;;
  match add_result with
  | Err e =>
      d <- deref prop;;
      ret (Err (WithContext ("adding " +:+ quoted (name d)) e))
  | Ok _ =>
      ty <- field0_type props;;
      prop_WasLoaded prop ty;;
      ty' <- field0_type props;;
      prop_WasModified prop ty';;
      ret CopyableResultSuccess
  end.

(** The background task of [AddPropertySlice]; [begin] and [size] are
    64-bit unsigned and are converted where [LoadPropertySlice] takes
    [int64_t]. *)
Definition slice_task (d : PropStorageInfo) (path : Uri) (begin size : Z)
  : CopyableResult Table :=
  match LoadPropertySlice (name d) path (to_int64 begin) (to_int64 size) with
  | Err e => Err (WithContext ("error loading " +:+ path) e)
  | Ok v => Ok v
  end.

Definition AddPropertySlice_body (dir : Uri) (begin size : Z)
    (add_fn : MergeFn) (grp : option ReadGroup) (prop : nat)
  : Exec (Control * option ReadGroup) :=
  d <- deref prop;;
  if negb (IsAbsent d) then ret (Return (Err (must_be_absent d)), grp)
  else
    let path := Join dir (path d) in
    let future := slice_task d path begin size in
    match grp with
    | Some g =>
        ret (Continue,
             Some (AddReturnsOp future path (slice_on_complete add_fn prop) g))
    | None =>
        match future with
        | Err e => ret (Return (Err e), grp)
        | Ok read_res =>
            on_complete_res <- slice_on_complete add_fn prop read_res;;
            match on_complete_res with
            | Err e => ret (Return (Err e), grp)
            | Ok _ => ret (Continue, grp)
            end
        end
    end.

Definition AddPropertySlice_loop (dir : Uri) (properties : list nat)
    (range : Z * Z) (grp : option ReadGroup) (add_fn : MergeFn)
  : Exec (Control * option ReadGroup) :=
  let begin := range.1 in
  let size := ((range.2 - range.1) mod two64)%Z in
  for_each (AddPropertySlice_body dir begin size add_fn) properties grp.

(** [range] is a pair of 64-bit unsigned values; the subtraction wraps. *)
Definition AddPropertySlice (dir : Uri) (properties : list nat)
    (range : Z * Z) (grp : option ReadGroup) (add_fn : MergeFn)
  : Exec (Result unit * option ReadGroup) :=
  cg <- AddPropertySlice_loop dir properties range grp add_fn;;
  ret (return_after cg).

End Orchestrator.

Arguments World {E}.
Arguments mkWorld {E} _ _ _ _ _.
Arguments PendingOp {E}.
Arguments ReadGroup {E}.
Arguments MergeFn {E}.
Arguments Exec {E} A.

(** * The chunked deque of [Galois/gdeque.h]

    [gdeque<T, CHUNK_SIZE>] keeps its elements in a doubly linked chain of
    blocks, each block a [FixedSizeRing<T, CHUNK_SIZE>] with a [next] and a
    [prev] pointer.  The blocks live in a memory indexed by addresses; the
    null pointer is [None].  As before, [None] as the result of an operation
    stands for what the C++ leaves undefined or stops on: a failed
    [assert], a null or dangling pointer followed, an empty ring popped.
    [unsigned] is taken to be 32 bits wide. *)

(** [Galois/FixedSizeRing.h] is not among the sources.  The ring is a
    parameter: a container observed through the sequence of its elements,
    front to back, that takes a new element at either end unless it holds
    [CHUNK_SIZE] elements already (its [push_back] and [push_front] then
    return the null pointer), and gives up the element at either end unless
    it is empty. *)
Class RingOps (T : Type) : Type := {
  FixedSizeRing : Type;
  CHUNK_SIZE : nat;
  ring_new : FixedSizeRing;
  ring_items : FixedSizeRing -> list T;
  ring_push_back : T -> FixedSizeRing -> option FixedSizeRing;
  ring_push_front : T -> FixedSizeRing -> option FixedSizeRing;
  ring_pop_back : FixedSizeRing -> option FixedSizeRing;
  ring_pop_front : FixedSizeRing -> option FixedSizeRing;
  ring_clear : FixedSizeRing -> FixedSizeRing;
  CHUNK_SIZE_positive : 0 < CHUNK_SIZE;
  ring_new_items : ring_items ring_new = [];
  ring_push_back_items : forall v r,
    ring_items <$> ring_push_back v r
    = if decide (List.length (ring_items r) < CHUNK_SIZE)
      then Some (ring_items r ++ [v]) else None;
  ring_push_front_items : forall v r,
    ring_items <$> ring_push_front v r
    = if decide (List.length (ring_items r) < CHUNK_SIZE)
      then Some (v :: ring_items r) else None;
  ring_pop_back_items : forall r,
    ring_items <$> ring_pop_back r
    = match ring_items r with
      | [] => None
      | _ => Some (removelast (ring_items r))
      end;
  ring_pop_front_items : forall r,
    ring_items <$> ring_pop_front r
    = match ring_items r with
      | [] => None
      | _ :: rest => Some rest
      end;
  ring_clear_items : forall r, ring_items (ring_clear r) = []
}.

Module Gdeque.
Section WithRing.
Context {T : Type} {R : RingOps T}.

(** The observers of the ring that the deque uses. *)
Definition ring_size (r : FixedSizeRing) : Z :=
  Z.of_nat (List.length (ring_items r)).

Definition ring_empty (r : FixedSizeRing) : bool :=
  match ring_items r with
  | [] => true
  | _ => false
  end.

Definition ring_front (r : FixedSizeRing) : option T := head (ring_items r).

Definition ring_back (r : FixedSizeRing) : option T :=
  list.last (ring_items r).

Definition ring_getAt (r : FixedSizeRing) (offset : Z) : option T :=
  if (offset <? 0)%Z then None else ring_items r !! Z.to_nat offset.

Definition UINT_MODULUS : Z := 2 ^ 32.

Definition loc : Type := positive.

Record Block : Type := mkBlock {
  ring : FixedSizeRing;
  next : option loc;
  prev : option loc
}.

(** The deque: its three fields and the blocks allocated from [heap]. *)
Record gdeque : Type := mkDeque {
  first : option loc;
  last : option loc;
  num : Z;
  heap : gmap loc Block
}.

Definition set_first (p : option loc) (d : gdeque) : gdeque :=
  {| first := p; last := last d; num := num d; heap := heap d |}.

Definition set_last (p : option loc) (d : gdeque) : gdeque :=
  {| first := first d; last := p; num := num d; heap := heap d |}.

Definition set_num (n : Z) (d : gdeque) : gdeque :=
  {| first := first d; last := last d; num := n; heap := heap d |}.

Definition set_heap (h : gmap loc Block) (d : gdeque) : gdeque :=
  {| first := first d; last := last d; num := num d; heap := h |}.

(** [b->next = p], [b->prev = p] and an operation on the ring of [*b];
    nothing when [b] is not an allocated block. *)
Definition set_next (b : loc) (p : option loc) (d : gdeque) : option gdeque :=
  blk ← heap d !! b;
  Some (set_heap (<[b := {| ring := ring blk; next := p; prev := prev blk |}]>
                    (heap d)) d).

Definition set_prev (b : loc) (p : option loc) (d : gdeque) : option gdeque :=
  blk ← heap d !! b;
  Some (set_heap (<[b := {| ring := ring blk; next := next blk; prev := p |}]>
                    (heap d)) d).

Definition set_ring (b : loc) (r : FixedSizeRing) (d : gdeque)
  : option gdeque :=
  blk ← heap d !! b;
  Some (set_heap (<[b := {| ring := r; next := next blk; prev := prev blk |}]>
                    (heap d)) d).

(** [gdeque()] *)
Definition gdeque_new : gdeque :=
  {| first := None; last := None; num := 0; heap := ∅ |}.

(** The allocator hands out an address that is not in use; the block is
    constructed with both pointers null. *)
Definition alloc_block (d : gdeque) : loc * gdeque :=
  let b := fresh (dom (heap d)) in
  (b, set_heap (<[b := {| ring := ring_new; next := None; prev := None |}]>
                  (heap d)) d).

Definition precondition (d : gdeque) : bool :=
  ((num d =? 0)%Z && bool_decide (first d = None)
   && bool_decide (last d = None))
  || ((0 <? num d)%Z && bool_decide (first d <> None)
      && bool_decide (last d <> None)).

Definition free_block (b : loc) (d : gdeque) : gdeque :=
  set_heap (delete b (heap d)) d.

Definition extend_first (d : gdeque) : option gdeque :=
  let '(b, d) := alloc_block d in
  d ← set_next b (first d) d;
  d ← match first d with
      | Some f => set_prev f (Some b) d
      | None => Some d
      end;
  let d := set_first (Some b) d in
  Some (match last d with
        | None => set_last (Some b) d
        | Some _ => d
        end).

Definition extend_last (d : gdeque) : option gdeque :=
  let '(b, d) := alloc_block d in
  d ← set_prev b (last d) d;
  d ← match last d with
      | Some l => set_next l (Some b) d
      | None => Some d
      end;
  let d := set_last (Some b) d in
  Some (match first d with
        | None => set_first (Some b) d
        | Some _ => d
        end).

Definition shrink_first (d : gdeque) : option gdeque :=
  b ← first d;
  blk ← heap d !! b;
  let d := set_first (next blk) d in
  d ← match next blk with
      | Some n => set_prev n None d
      | None => Some (set_last None d)
      end;
  Some (free_block b d).

Definition shrink_last (d : gdeque) : option gdeque :=
  b ← last d;
  blk ← heap d !! b;
  let d := set_last (prev blk) d in
  d ← match prev blk with
      | Some p => set_next p None d
      | None => Some (set_first None d)
      end;
  Some (free_block b d).

(** ** Iterators *)

Record iterator : Type := mkIterator {
  b : option loc;
  offset : Z
}.

Definition advance (d : gdeque) (it : iterator) : option iterator :=
  match b it with
  | None => Some it
  | Some blk_loc =>
      blk ← heap d !! blk_loc;
      let offset := ((offset it + 1) mod UINT_MODULUS)%Z in
      if (offset =? ring_size (ring blk))%Z
      then Some {| b := next blk; offset := 0 |}
      else Some {| b := Some blk_loc; offset := offset |}
  end.

(** [operator==] and [operator*] *)
Definition iterator_eq (x y : iterator) : bool :=
  bool_decide (b x = b y) && (offset x =? offset y)%Z.

Definition iterator_get (d : gdeque) (it : iterator) : option T :=
  blk_loc ← b it;
  blk ← heap d !! blk_loc;
  ring_getAt (ring blk) (offset it).

Definition begin (d : gdeque) : option iterator :=
  if precondition d then Some {| b := first d; offset := 0 |} else None.

Definition end_ (d : gdeque) : option iterator :=
  if precondition d then Some {| b := None; offset := 0 |} else None.

(** ** Observers *)

Definition size (d : gdeque) : option Z :=
  if precondition d then Some (num d) else None.

Definition empty (d : gdeque) : option bool :=
  if precondition d then Some (num d =? 0)%Z else None.

Definition front (d : gdeque) : option T :=
  match empty d with
  | Some false => f ← first d; blk ← heap d !! f; ring_front (ring blk)
  | _ => None
  end.

Definition back (d : gdeque) : option T :=
  match empty d with
  | Some false => l ← last d; blk ← heap d !! l; ring_back (ring blk)
  | _ => None
  end.

(** ** Removal *)

Definition pop_back (d : gdeque) : option gdeque :=
  match empty d with
  | Some false =>
      let d := set_num ((num d - 1) mod UINT_MODULUS)%Z d in
      l ← last d;
      blk ← heap d !! l;
      r ← ring_pop_back (ring blk);
      d ← set_ring l r d;
      if ring_empty r then shrink_last d else Some d
  | _ => None
  end.

Definition pop_front (d : gdeque) : option gdeque :=
  match empty d with
  | Some false =>
      let d := set_num ((num d - 1) mod UINT_MODULUS)%Z d in
      f ← first d;
      blk ← heap d !! f;
      r ← ring_pop_front (ring blk);
      d ← set_ring f r d;
      if ring_empty r then shrink_first d else Some d
  | _ => None
  end.

(** The loop of [clear]: [while (first) { first->clear(); shrink_first(); }].
    The loop frees one block per turn; [fuel] bounds the turns. *)
Fixpoint clear_loop (fuel : nat) (d : gdeque) : option gdeque :=
  match first d with
  | None => Some d
  | Some f =>
      match fuel with
      | 0 => None
      | S fuel =>
          blk ← heap d !! f;
          d ← set_ring f (ring_clear (ring blk)) d;
          d ← shrink_first d;
          clear_loop fuel d
      end
  end.

Definition clear (d : gdeque) : option gdeque :=
  if precondition d
  then d ← clear_loop (base.size (heap d)) d; Some (set_num 0 d)
  else None.

(** ** Insertion *)

Definition push_back (v : T) (d : gdeque) : option gdeque :=
  if precondition d then
    let d := set_num ((num d + 1) mod UINT_MODULUS)%Z d in
    let extended :=
      d ← extend_last d;
      l ← last d;
      blk ← heap d !! l;
      r ← ring_push_back v (ring blk);
      set_ring l r d in
    match last d with
    | None => extended
    | Some l =>
        blk ← heap d !! l;
        match ring_push_back v (ring blk) with
        | Some r => set_ring l r d
        | None => extended
        end
    end
  else None.

Definition push_front (v : T) (d : gdeque) : option gdeque :=
  if precondition d then
    let d := set_num ((num d + 1) mod UINT_MODULUS)%Z d in
    let extended :=
      d ← extend_first d;
      f ← first d;
      blk ← heap d !! f;
      r ← ring_push_front v (ring blk);
      set_ring f r d in
    match first d with
    | None => extended
    | Some f =>
        blk ← heap d !! f;
        match ring_push_front v (ring blk) with
        | Some r => set_ring f r d
        | None => extended
        end
    end
  else None.

(** ** The chain of blocks and what it represents *)

(** The address a chain starts with, or [n] for the empty chain; the
    address it ends with, or [p]. *)
Definition head_loc (bs : list (loc * FixedSizeRing)) (n : option loc)
  : option loc :=
  match bs with
  | [] => n
  | (l, _) :: _ => Some l
  end.

Definition last_loc (bs : list (loc * FixedSizeRing)) (p : option loc)
  : option loc :=
  match list.last bs with
  | None => p
  | Some (l, _) => Some l
  end.

(** The blocks [bs], with their rings, are linked in this order in the
    memory [h]: the first has [p] as its [prev], the last [n] as its
    [next]. *)
Fixpoint chain (h : gmap loc Block) (p : option loc)
    (bs : list (loc * FixedSizeRing)) (n : option loc) : Prop :=
  match bs with
  | [] => True
  | (l, r) :: rest =>
      h !! l = Some {| ring := r; next := head_loc rest n; prev := p |}
      /\ chain h (Some l) rest n
  end.

(** The elements of the blocks, in order. *)
Definition items (bs : list (loc * FixedSizeRing)) : list T :=
  concat (map (fun blk => ring_items blk.2) bs).

(** The deque is the chain [bs] and nothing else: [first] and [last] are
    its ends and the memory holds its blocks only. *)
Definition linked (d : gdeque) (bs : list (loc * FixedSizeRing)) : Prop :=
  first d = head_loc bs None
  /\ last d = last_loc bs None
  /\ chain (heap d) None bs None
  /\ NoDup bs.*1
  /\ dom (heap d) = list_to_set bs.*1.

(** The invariant of the deque: a chain of non-empty rings, with [num] the
    number of elements, which fits in an [unsigned]. *)
Definition layout (d : gdeque) (bs : list (loc * FixedSizeRing)) : Prop :=
  linked d bs
  /\ Forall (fun blk => ring_items blk.2 <> []) bs
  /\ num d = Z.of_nat (List.length (items bs))
  /\ (num d < UINT_MODULUS)%Z.

(** The deque holds the sequence [xs]. *)
Definition represents (d : gdeque) (xs : list T) : Prop :=
  exists bs, layout d bs /\ items bs = xs.

(** The elements a traversal meets from the iterator [it] up to the end
    iterator: [for (; it != end(); ++it) ... *it ...]. *)
Fixpoint traverse (fuel : nat) (d : gdeque) (it : iterator)
  : option (list T) :=
  if iterator_eq it {| b := None; offset := 0 |} then Some []
  else
    match fuel with
    | 0 => None
    | S fuel =>
        x ← iterator_get d it;
        it ← advance d it;
        rest ← traverse fuel d it;
        Some (x :: rest)
    end.

Definition to_list (d : gdeque) : option (list T) :=
  it ← begin d;
  traverse (Z.to_nat (num d)) d it.

(** ** A client of the deque, and the sequence it computes with *)

(** The calls a client makes, and a run of calls one after the other; the
    run stops where a call stops. *)
Inductive Call : Type :=
  | PushBack (v : T)
  | PushFront (v : T)
  | PopBack
  | PopFront
  | Clear.

Definition call_deque (c : Call) (d : gdeque) : option gdeque :=
  match c with
  | PushBack v => push_back v d
  | PushFront v => push_front v d
  | PopBack => pop_back d
  | PopFront => pop_front d
  | Clear => clear d
  end.

Fixpoint run (cs : list Call) (d : gdeque) : option gdeque :=
  match cs with
  | [] => Some d
  | c :: rest => d ← call_deque c d; run rest d
  end.

(** The same calls on a plain sequence; taking an element from the empty
    sequence is not defined. *)
Definition call_list (c : Call) (xs : list T) : option (list T) :=
  match c with
  | PushBack v => Some (xs ++ [v])
  | PushFront v => Some (v :: xs)
  | PopBack =>
      match xs with
      | [] => None
      | _ => Some (removelast xs)
      end
  | PopFront =>
      match xs with
      | [] => None
      | _ :: rest => Some rest
      end
  | Clear => Some []
  end.

Fixpoint run_list (cs : list Call) (xs : list T) : option (list T) :=
  match cs with
  | [] => Some xs
  | c :: rest => xs ← call_list c xs; run_list rest xs
  end.

End WithRing.
End Gdeque.

(** ** Vocabulary of the statements *)

Section Vocabulary.
Context {E : Environment}.

(** The reader, given the slice, returns the table [out] for the file. *)
Definition reads (slice : option Slice) (file_path : Uri) (out : Table)
  : Prop :=
  exists reader,
    Make (with_slice Defaults slice) = Returns (Ok reader)
    /\ ReadTable reader file_path = Returns (Ok out).

(** The columnar library throws while the reader is made or the file is
    read. *)
Definition library_throws (slice : option Slice) (file_path : Uri)
    (what : string) : Prop :=
  Make (with_slice Defaults slice) = Throw what
  \/ exists reader,
       Make (with_slice Defaults slice) = Returns (Ok reader)
       /\ ReadTable reader file_path = Throw what.

(** The schema is not the single field of the expected name. *)
Definition schema_mismatch (expected_name : string) (out : Table) : Prop :=
  num_fields (schema out) <> 1
  \/ exists f, schema out = [f] /\ field_name f <> expected_name.

(** The store once the cache has been probed for the name [n] (the probe
    assigns the name to the shared key), if there is a cache. *)
Definition probed (cache : bool) (n : string) (w : World) : World :=
  if cache then set_cache_key (set_name n (cache_key w)) w else w.

(** The store after a successful completion callback of [AddProperties]
    for the descriptor [prop], which has become [d'], the column [props]
    and the merged data [m]. *)
Definition completed (cache : bool) (prop : nat) (d' : PropStorageInfo)
    (props : Table) (m : MergeTarget) (w : World) : World :=
  let w1 := set_descriptors (<[prop := d']> (descriptors w)) (set_merged m w) in
  if cache then
    let k' := set_name (name d') (cache_key w) in
    set_the_cache (Insert k' props (the_cache w))
      (set_cache_key k'
         (set_spans
            (spans w ++ [{| span_name := "property inserted into cache";
                            tags := key_tags (cache_key w) d' |}]) w1))
  else w1.

Definition loaded_as (ty : DataType) (d : PropStorageInfo)
  : PropStorageInfo :=
  {| name := name d; path := path d; state := kLoaded; type := Some ty |}.

Definition modified_as (ty : DataType) (d : PropStorageInfo)
  : PropStorageInfo :=
  {| name := name d; path := path d; state := kModified; type := Some ty |}.

(** The store after a cache hit for the descriptor [prop], whose content
    was [d], with the cached column [props] merged into [m]. *)
Definition hit_done (prop : nat) (d : PropStorageInfo) (ty : DataType)
    (m : MergeTarget) (w : World) : World :=
  let w1 := probed true (name d) w in
  set_spans
    (spans w ++ [{| span_name := "property loaded from cache";
                    tags := key_tags (cache_key w1) d |}])
    (set_descriptors (<[prop := loaded_as ty d]> (descriptors w))
       (set_merged m w1)).

(** How a descriptor may change during a call: not at all, or from absent
    to a state with data, keeping its name and path. *)
Definition descriptor_step (d d' : PropStorageInfo) : Prop :=
  d' = d
  \/ (IsAbsent d = true /\ IsAbsent d' = false
      /\ name d' = name d /\ path d' = path d).

(** How the store may change during a call: the owner kind of the key
    stays and every descriptor takes a [descriptor_step]. *)
Definition evolves (w w' : World) : Prop :=
  node_edge (cache_key w') = node_edge (cache_key w)
  /\ Forall2 descriptor_step (descriptors w) (descriptors w').

(** The store with another cache and another cache key. *)
Definition recache (c : PropertyCache) (k : PropertyCacheKey) (w : World)
  : World :=
  set_the_cache c (set_cache_key k w).

(** The cache and the cache key are the same in both stores. *)
Definition same_cache (w w' : World) : Prop :=
  the_cache w' = the_cache w /\ cache_key w' = cache_key w.

(** The descriptor's identity is not in the cache (there being one). *)
Definition misses (cache : bool) (d : PropStorageInfo) (w : World) : Prop :=
  cache = true ->
  Get {| node_edge := node_edge (cache_key w); key_name := name d |}
    (the_cache w) = None.

(** Two stores that differ at most by the name a probe has left in the
    cache key. *)
Definition key_equiv (cache : bool) (wx w : World) : Prop :=
  exists n, wx = probed cache n w.

(** Resolving the group a call has filled. *)
Definition then_Finish
    (r : option ((Result unit * option ReadGroup) * World))
  : option (list (Result unit) * World) :=
  match r with
  | Some ((_, Some g), w1) => Finish g w1
  | _ => None
  end.

(** The two ways of running a call agree on a store: whenever the call
    without a group ends in the store [ws], and the call with a fresh group
    followed by the resolution of the group ends in [wg], the descriptors,
    the cache contents and the merged data of [ws] and [wg] are the same. *)
Definition paths_agree
    (run : option ReadGroup -> Exec (Result unit * option ReadGroup))
    (w : World) : Prop :=
  forall r ws outcomes wg,
    run None w = Some ((r, None), ws) ->
    then_Finish (run (Some []) w) = Some (outcomes, wg) ->
    descriptors ws = descriptors wg
    /\ the_cache ws = the_cache wg
    /\ merged ws = merged wg.

(** The grouped way follows the synchronous one on a store: whenever the
    call without a group returns, the call with a fresh group returns too,
    the resolution of its group goes through, and the descriptors, the
    cache contents and the merged data at the end are those the call
    without a group has left. *)
Definition group_follows
    (run : option ReadGroup -> Exec (Result unit * option ReadGroup))
    (w : World) : Prop :=
  forall r ws,
    run None w = Some ((r, None), ws) ->
    exists outcomes wg,
      then_Finish (run (Some []) w) = Some (outcomes, wg)
      /\ descriptors ws = descriptors wg
      /\ the_cache ws = the_cache wg
      /\ merged ws = merged wg.

(** Where the call without a group may stop and still end as the grouped
    call does.  The batch is [pre ++ rest] and the synchronous loop has
    run through [pre], from the store [w] to the store [w_mid].  Either
    nothing is left; or the next descriptor was not absent when the call
    started, and both ways stop there; or a single descriptor is left,
    absent, which misses the cache both at the start and when the
    synchronous loop reaches it, so that its load, whatever its outcome,
    is the last thing both ways do; or the very first descriptor of the
    batch hits the cache, and both ways stop there. *)
Definition stops_alike (cache : bool) (pre rest : list nat)
    (w w_mid : World) : Prop :=
  rest = []
  \/ (exists stop rest' d,
        rest = stop :: rest'
        /\ descriptors w !! stop = Some d /\ IsAbsent d = false)
  \/ (exists last d,
        rest = [last]
        /\ descriptors w_mid !! last = Some d /\ IsAbsent d = true
        /\ misses cache d w /\ misses cache d w_mid)
  \/ (pre = []
      /\ exists stop rest' d props,
           rest = stop :: rest'
           /\ descriptors w !! stop = Some d /\ IsAbsent d = true
           /\ cache = true
           /\ Get {| node_edge := node_edge (cache_key w);
                     key_name := name d |} (the_cache w) = Some props).

(** The reader reports the error [e], when it is made or when it reads the
    file. *)
Definition reader_fails (slice : option Slice) (file_path : Uri)
    (e : ErrorInfo) : Prop :=
  Make (with_slice Defaults slice) = Returns (Err e)
  \/ exists reader,
       Make (with_slice Defaults slice) = Returns (Ok reader)
       /\ ReadTable reader file_path = Returns (Err e).

(** The pending operations the two orchestrators hand to a group for the
    descriptor [prop], whose content is [d]. *)
Definition pending_load (uri : Uri) (cache : bool) (add_fn : MergeFn)
    (prop : nat) (d : PropStorageInfo) : PendingOp :=
  {| op_future := load_task d (Join uri (path d));
     op_file := Join uri (path d);
     op_on_complete := on_complete add_fn prop cache |}.

Definition pending_slice (dir : Uri) (begin size : Z) (add_fn : MergeFn)
    (prop : nat) (d : PropStorageInfo) : PendingOp :=
  {| op_future := slice_task d (Join dir (path d)) begin size;
     op_file := Join dir (path d);
     op_on_complete := slice_on_complete add_fn prop |}.

(** The store after the cache has been probed for each of the descriptors
    [ds] in turn. *)
Definition probed_all (cache : bool) (ds : list PropStorageInfo) (w : World)
  : World :=
  foldl (fun w0 d => probed cache (name d) w0) w ds.

(** A descriptor with data: the name and path of [d], the state [s] and the
    data type [ty]. *)
Definition with_data (s : State) (ty : DataType) (d : PropStorageInfo)
  : PropStorageInfo :=
  {| name := name d; path := path d; state := s; type := Some ty |}.

(** The merged data after the merge function has accepted the columns [ts]
    one after the other; nothing if it rejects one of them. *)
Fixpoint merge_all (add_fn : MergeFn) (ts : list Table) (m : MergeTarget)
  : option MergeTarget :=
  match ts with
  | [] => Some m
  | t :: rest =>
      match add_fn t m with
      | (m', Ok _) => merge_all add_fn rest m'
      | (_, Err _) => None
      end
  end.

(** The cache after it has been given the columns [loaded], each under
    the name of its descriptor and the owner kind [owner], one after the
    other. *)
Definition insert_all (owner : NodeEdge)
    (loaded : list (PropStorageInfo * Table)) (c : PropertyCache)
  : PropertyCache :=
  foldl (fun c0 dt =>
           Insert {| node_edge := owner; key_name := name dt.1 |} dt.2 c0)
    c loaded.

(** The error [e] is one the orchestrators produce for the descriptor [d]:
    the descriptor is not absent; or, without a group, its load failed with
    [e]; or the merge function rejected its column. *)
Definition attributed (load : PropStorageInfo -> CopyableResult Table)
    (grp : option ReadGroup) (d : PropStorageInfo) (e : ErrorInfo) : Prop :=
  e = must_be_absent d
  \/ (grp = None /\ load d = Err e)
  \/ exists e0, e = WithContext ("adding " +:+ quoted (name d)) e0.

End Vocabulary.

(** ** A small storage directory, used by the examples *)

Definition age_table : Table :=
  {| schema := [{| field_name := "age"; field_type := int64 |}];
     columns := [[30; 41; 25; 57; 19]%Z] |}.

Definition rank_table : Table :=
  {| schema := [{| field_name := "rank"; field_type := float64 |}];
     columns := [[3; 1; 2; 5; 4]%Z] |}.

Definition misnamed_table : Table :=
  {| schema := [{| field_name := "other"; field_type := int64 |}];
     columns := [[7; 7; 7; 7; 7]%Z] |}.

Definition wide_table : Table :=
  {| schema := [{| field_name := "wide"; field_type := int64 |};
                {| field_name := "extra"; field_type := utf8 |}];
     columns := [[1; 2; 3; 4; 5]%Z; [0; 0; 0; 0; 0]%Z] |}.

Definition slice_rows (s : option Slice) (t : Table) : Table :=
  match s with
  | None => t
  | Some r =>
      {| schema := schema t;
         columns := map (fun c => take (Z.to_nat (length r))
                                    (drop (Z.to_nat (offset r)) c))
                        (columns t) |}
  end.

Definition sample_ReadTable (reader : ReadOpts) (file_path : Uri)
  : Throws (Result Table) :=
  if bool_decide (file_path = "g/age.parquet")
  then Returns (Ok (slice_rows (slice reader) age_table))
  else if bool_decide (file_path = "g/rank.parquet")
  then Returns (Ok (slice_rows (slice reader) rank_table))
  else if bool_decide (file_path = "g/bad.parquet")
  then Returns (Ok (slice_rows (slice reader) misnamed_table))
  else if bool_decide (file_path = "g/wide.parquet")
  then Returns (Ok (slice_rows (slice reader) wide_table))
  else if bool_decide (file_path = "g/boom.parquet")
  then Throw "Parquet magic bytes not found in footer"
  else Returns (Err (KATANA_ERROR (OtherCode 2) "no such file")).

(** The cache of the examples keeps every column it is given. *)
Definition sample_env : Environment :=
  {| ParquetReader := ReadOpts;
     Make := fun read_opts => Returns (Ok read_opts);
     ReadTable := sample_ReadTable;
     Join := fun base rel => base +:+ "/" +:+ rel;
     MergeTarget := list Table;
     PropertyCache := gmap PropertyCacheKey Table;
     Get := fun k c => c !! k;
     Insert := fun k t c => <[k := t]> c;
     Get_Insert := fun k t c => lookup_insert_eq c k t |}.

(** A merge function in the style of the callers: the column is appended
    unless a column of one of its names is there already. *)
Definition has_column (n : string) (m : list Table) : bool :=
  existsb (fun t => existsb (String.eqb n) (map field_name (schema t))) m.

Definition add_column : @MergeFn sample_env :=
  fun props m =>
    if existsb (fun n => has_column n m) (map field_name (schema props))
    then (m, Err (KATANA_ERROR (OtherCode 1) "column already exists"))
    else (m ++ [props], Ok tt).

Definition absent (n : string) : PropStorageInfo :=
  {| name := n; path := n +:+ ".parquet"; state := kAbsent; type := None |}.

Definition node_key : PropertyCacheKey :=
  {| node_edge := kNode; key_name := EmptyString |}.

Definition height : PropStorageInfo :=
  {| name := "height"; path := "height.parquet"; state := kLoaded;
     type := Some float64 |}.

(** Descriptors 0 to 4 are absent; descriptor 5 is already loaded. *)
Definition sample_world : @World sample_env :=
  @mkWorld sample_env
    [absent "age"; absent "rank"; absent "bad"; absent "wide";
     absent "boom"; height]
    node_key ∅ [] [].



(** [sample_world] once the column [age] has been loaded for descriptor 0,
    without a cache. *)
Definition sample_world_with_age : @World sample_env :=
  @completed sample_env false 0 (loaded_as int64 (absent "age")) age_table
    [age_table] sample_world.

(** The error of loading the misnamed column for the property [bad]. *)
Definition bad_name_error : ErrorInfo :=
  KATANA_ERROR InvalidArgument "expected bad found other instead".

(** Rows 1 and 2 of the column [age]. *)
Definition age_rows_1_3 : Table :=
  {| schema := [{| field_name := "age"; field_type := int64 |}];
     columns := [[41; 25]%Z] |}.

(** The store when [AddProperties], with a cache and a group, returns from
    the batch of descriptors 0 and 2, and the store once the callback of
    descriptor 0 has run in it. *)
Definition returned_world : @World sample_env :=
  @probed sample_env true "bad" sample_world.

Definition resolved_world : @World sample_env :=
  @completed sample_env true 0 (loaded_as int64 (absent "age")) age_table
    [age_table] returned_world.

(** The store after descriptors 0 and 1 have been loaded through the cache
    path. *)
Definition both_loaded_world : @World sample_env :=
  @completed sample_env true 1 (loaded_as float64 (absent "rank")) rank_table
    [age_table; rank_table]
    (@probed sample_env true "rank"
       (@completed sample_env true 0 (loaded_as int64 (absent "age"))
          age_table [age_table] (@probed sample_env true "age" sample_world))).

(** The store after the batch of descriptors 2 and 0 has been registered
    with a group and the group has been resolved. *)
Definition grouped_final_world : @World sample_env :=
  @completed sample_env true 0 (loaded_as int64 (absent "age")) age_table
    [age_table] (@probed sample_env true "age" sample_world).

(** A merge function that accepts every column. *)
Definition append_column : @MergeFn sample_env :=
  fun props m => (m ++ [props], Ok tt).

(** Two descriptors of the same column, and a third one. *)
Definition twin_world : @World sample_env :=
  @mkWorld sample_env [absent "age"; absent "age"; absent "rank"]
    node_key ∅ [] [].

Definition twin_sync_world : @World sample_env :=
  @hit_done sample_env 1 (absent "age") int64 [age_table; age_table]
    (@completed sample_env true 0 (loaded_as int64 (absent "age")) age_table
       [age_table] (@probed sample_env true "age" twin_world)).

Definition twin_grouped_world : @World sample_env :=
  @completed sample_env true 2 (loaded_as float64 (absent "rank")) rank_table
    [age_table; age_table; rank_table]
    (@completed sample_env true 1 (loaded_as int64 (absent "age")) age_table
       [age_table; age_table]
       (@completed sample_env true 0 (loaded_as int64 (absent "age"))
          age_table [age_table] (@probed sample_env true "rank" twin_world))).

(** The store of [cached_world] when the column [rank] has been merged
    already: the merge function rejects it. *)
Definition clash_world : @World sample_env :=
  @mkWorld sample_env (descriptors sample_world) node_key
    {[ set_name "rank" node_key := rank_table ]} [rank_table] [].

Definition column_exists_error : ErrorInfo :=
  KATANA_ERROR (OtherCode 1) "column already exists".

Definition no_such_file_error : ErrorInfo :=
  KATANA_ERROR (OtherCode 2) "no such file".


(** The same storage with a cache that holds one column only: an
    insertion evicts what the cache held. *)
Definition evicting_env : Environment :=
  {| ParquetReader := ReadOpts;
     Make := fun read_opts => Returns (Ok read_opts);
     ReadTable := sample_ReadTable;
     Join := fun base rel => base +:+ "/" +:+ rel;
     MergeTarget := list Table;
     PropertyCache := gmap PropertyCacheKey Table;
     Get := fun k c => c !! k;
     Insert := fun k t c => {[ k := t ]};
     Get_Insert := fun k t c => lookup_singleton_eq k t |}.

Definition evicting_append : @MergeFn evicting_env :=
  fun props m => (m ++ [props], Ok tt).

(** Descriptors 0 and 1 are absent and the column [rank] is in the
    evicting cache. *)
Definition evicting_world : @World evicting_env :=
  @mkWorld evicting_env [absent "age"; absent "rank"] node_key
    {[ set_name "rank" node_key := rank_table ]} [] [].

(** The store after the call without a group has loaded both columns, and
    the store after the call with a group has merged the cached [rank]
    and the group has then loaded [age]. *)
Definition evicting_sync_world : @World evicting_env :=
  @completed evicting_env true 1 (loaded_as float64 (absent "rank"))
    rank_table [age_table; rank_table]
    (@probed evicting_env true "rank"
       (@completed evicting_env true 0 (loaded_as int64 (absent "age"))
          age_table [age_table]
          (@probed evicting_env true "age" evicting_world))).

Definition evicting_grouped_world : @World evicting_env :=
  @completed evicting_env true 0 (loaded_as int64 (absent "age")) age_table
    [rank_table; age_table]
    (@hit_done evicting_env 1 (absent "rank") float64 [rank_table]
       (@probed evicting_env true "age" evicting_world)).

(** ** A ring of two integers, used by the examples of the deque *)

Definition small_ring : RingOps Z.
Proof.
  refine
    {| FixedSizeRing := list Z;
       CHUNK_SIZE := 2;
       ring_new := [];
       ring_items := fun r => r;
       ring_push_back := fun v r =>
         if decide (List.length r < 2) then Some (r ++ [v]) else None;
       ring_push_front := fun v r =>
         if decide (List.length r < 2) then Some (v :: r) else None;
       ring_pop_back := fun r =>
         match r with [] => None | _ => Some (removelast r) end;
       ring_pop_front := fun r =>
         match r with [] => None | _ :: rest => Some rest end;
       ring_clear := fun _ => [] |}.
  - lia.
  - reflexivity.
  - intros v r. by destruct (decide (List.length r < 2)).
  - intros v r. by destruct (decide (List.length r < 2)).
  - intros r. by destruct r.
  - intros r. by destruct r.
  - reflexivity.
Defined.

(** The deque after 10, 20, 30 have been pushed at the back, and 5 at the
    front, of an empty deque. *)
Definition pushes (vs : list Z) (d : @Gdeque.gdeque Z small_ring)
  : option (@Gdeque.gdeque Z small_ring) :=
  foldl (fun od v => d ← od; Gdeque.push_back v d) (Some d) vs.

Definition sample_deque : option (@Gdeque.gdeque Z small_ring) :=
  d ← pushes [10; 20; 30]%Z Gdeque.gdeque_new;
  Gdeque.push_front 5%Z d.

(** The same deque written out: [5] in block 3, [10; 20] in block 1 and
    [30] in block 2, linked in this order. *)
Definition four_blocks : list (Gdeque.loc * @FixedSizeRing Z small_ring) :=
  [(3%positive, [5%Z]); (1%positive, [10%Z; 20%Z]); (2%positive, [30%Z])].

Definition four_deque : @Gdeque.gdeque Z small_ring :=
  @Gdeque.mkDeque Z small_ring (Some 3%positive) (Some 2%positive) 4
    (list_to_map
       [(3%positive,
         @Gdeque.mkBlock Z small_ring [5%Z] (Some 1%positive) None);
        (1%positive,
         @Gdeque.mkBlock Z small_ring [10%Z; 20%Z] (Some 2%positive)
           (Some 3%positive));
        (2%positive,
         @Gdeque.mkBlock Z small_ring [30%Z] None (Some 1%positive))]).

(** A run of calls that fills three blocks, empties two of them and
    fills one again. *)
Definition sample_calls : list (@Gdeque.Call Z) :=
  [Gdeque.PushBack 10%Z; Gdeque.PushBack 20%Z; Gdeque.PushBack 30%Z;
   Gdeque.PushFront 5%Z; Gdeque.PopBack; Gdeque.PopFront;
   Gdeque.PushBack 7%Z].

(** * Properties of the loaders and the orchestrators *)

Section Properties.
Context {E : Environment}.

Implicit Types (w : World) (d : PropStorageInfo) (props out : Table).
Implicit Types (add_fn : MergeFn) (grp : option ReadGroup).

Lemma WasLoaded_absent ty d :
  IsAbsent d = true -> WasLoaded ty d = Some (loaded_as ty d).
Proof. unfold IsAbsent, WasLoaded. destruct (state d); done. Qed.

Lemma WasLoaded_not_absent ty d :
  IsAbsent d = false -> WasLoaded ty d = None.
Proof. unfold IsAbsent, WasLoaded. destruct (state d); done. Qed.

(** The completion callback of [AddProperties], in closed form. *)
Lemma on_complete_eq add_fn prop cache props w :
  on_complete add_fn prop cache props w =
  match add_fn props (merged w) with
  | (m, Err e) =>
      match descriptors w !! prop with
      | Some d =>
          Some (Err (WithContext ("adding " +:+ quoted (name d)) e),
                set_merged m w)
      | None => None
      end
  | (m, Ok _) =>
      match schema props, descriptors w !! prop with
      | f :: _, Some d =>
          if IsAbsent d
          then Some (Ok tt,
                     completed cache prop (loaded_as (field_type f) d)
                       props m w)
          else None
      | _, _ => None
      end
  end.
Proof.
  unfold on_complete, bind, call.
  destruct (add_fn props (merged w)) as [m [[]|e]]; simpl.
  - unfold field0_type. destruct (schema props) as [|f fs]; [done|].
    simpl. unfold prop_WasLoaded, bind, deref. simpl.
    destruct (descriptors w !! prop) as [d|] eqn:Hd; [|done].
    destruct (IsAbsent d) eqn:Ha.
    + rewrite (WasLoaded_absent _ _ Ha). simpl.
      destruct cache; simpl; [|done].
      rewrite list_lookup_insert_eq by (eapply lookup_lt_Some; eauto).
      reflexivity.
    + rewrite (WasLoaded_not_absent _ _ Ha). done.
  - unfold deref. simpl. destruct (descriptors w !! prop); done.
Qed.

Lemma WasModified_loaded ty ty' d :
  WasModified ty (loaded_as ty' d) = Some (modified_as ty d).
Proof. reflexivity. Qed.

(** The completion callback of [AddPropertySlice], in closed form. *)
Lemma slice_on_complete_eq add_fn prop props w :
  slice_on_complete add_fn prop props w =
  match add_fn props (merged w) with
  | (m, Err e) =>
      match descriptors w !! prop with
      | Some d =>
          Some (Err (WithContext ("adding " +:+ quoted (name d)) e),
                set_merged m w)
      | None => None
      end
  | (m, Ok _) =>
      match schema props, descriptors w !! prop with
      | f :: _, Some d =>
          if IsAbsent d
          then Some (Ok tt,
                     set_descriptors
                       (<[prop := modified_as (field_type f) d]>
                          (descriptors w))
                       (set_merged m w))
          else None
      | _, _ => None
      end
  end.
Proof.
  unfold slice_on_complete, bind, call.
  destruct (add_fn props (merged w)) as [m [[]|e]]; simpl.
  - unfold field0_type. destruct (schema props) as [|f fs]; [done|].
    simpl. unfold prop_WasLoaded, prop_WasModified, bind, deref. simpl.
    destruct (descriptors w !! prop) as [d|] eqn:Hd; [|done].
    destruct (IsAbsent d) eqn:Ha.
    + rewrite (WasLoaded_absent _ _ Ha). simpl.
      rewrite list_lookup_insert_eq by (eapply lookup_lt_Some; eauto).
      rewrite WasModified_loaded. simpl.
      rewrite list_insert_insert_eq. reflexivity.
    + rewrite (WasLoaded_not_absent _ _ Ha). done.
  - unfold deref. simpl. destruct (descriptors w !! prop); done.
Qed.

(** A loop over a concatenation runs the second part when, and from
    where, the first part falls through. *)
Lemma for_each_app body (pre post : list nat) grp w :
  for_each body (pre ++ post) grp w =
  match for_each body pre grp w with
  | Some ((Continue, grp'), w') => for_each body post grp' w'
  | other => other
  end.
Proof.
  revert grp w. induction pre as [|p pre IH]; intros grp w; simpl.
  - reflexivity.
  - unfold bind. destruct (body grp p w) as [[[[|r] g'] w']|]; simpl; auto.
Qed.

Lemma Finish_app (g1 g2 : ReadGroup) w :
  Finish (g1 ++ g2) w =
  match Finish g1 w with
  | Some (o1, w1) =>
      match Finish g2 w1 with
      | Some (o2, w2) => Some (o1 ++ o2, w2)
      | None => None
      end
  | None => None
  end.
Proof.
  revert w. induction g1 as [|op g1 IH]; intros w; simpl.
  - unfold ret. destruct (Finish g2 w) as [[o2 w2]|]; reflexivity.
  - destruct (op_future op) as [props|e]; unfold bind, ret.
    + destruct (op_on_complete op props w) as [[r w1]|]; [|done].
      rewrite IH. destruct (Finish g1 w1) as [[o1 w1']|]; [|done].
      destruct (Finish g2 w1') as [[o2 w2]|]; reflexivity.
    + rewrite IH. destruct (Finish g1 w) as [[o1 w1']|]; [|done].
      destruct (Finish g2 w1') as [[o2 w2]|]; reflexivity.
Qed.

(** ** The loaders *)

Lemma check_schema_mismatch expected_name out :
  schema_mismatch expected_name out ->
  exists e, check_schema expected_name out = Err e
            /\ error_code e = InvalidArgument.
Proof.
  unfold schema_mismatch, check_schema, num_fields.
  intros [Hn | (f & Hf & Hne)].
  - destruct (schema out) as [|f [|f' fs]]; simpl in *;
      [eauto | congruence | eauto].
  - rewrite Hf. rewrite bool_decide_eq_false_2 by done. eauto.
Qed.

Lemma DoLoadProperties_reads expected_name file_path slice out :
  reads slice file_path out ->
  DoLoadProperties expected_name file_path slice
  = Returns (check_schema expected_name out).
Proof.
  intros (reader & Hm & Hr). unfold DoLoadProperties.
  rewrite Hm, Hr. reflexivity.
Qed.

Lemma DoLoadProperties_throws expected_name file_path slice what :
  library_throws slice file_path what ->
  DoLoadProperties expected_name file_path slice = Throw what.
Proof.
  unfold DoLoadProperties.
  intros [Hm | (reader & Hm & Hr)]; rewrite Hm; [done|].
  rewrite Hr. reflexivity.
Qed.

(** Claim C8.  When the columnar library throws while a column is read,
    neither [LoadProperties] nor [LoadPropertySlice] lets the exception
    escape: each returns a failure whose code is [ArrowError] (the
    underlying-library error) and whose message carries the text of the
    exception. *)
Theorem loaders_wrap_library_exceptions
    (expected_name : string) (file_path : Uri) (what : string) :
  (library_throws None file_path what ->
   LoadProperties expected_name file_path
   = Err (KATANA_ERROR ArrowError ("arrow exception: " +:+ what)))
  /\ (forall offset length,
       library_throws (Some {| offset := offset; length := length |})
         file_path what ->
       LoadPropertySlice expected_name file_path offset length
       = Err (KATANA_ERROR ArrowError ("arrow exception: " +:+ what))).
Proof.
  split.
  - intros H. unfold LoadProperties.
    rewrite (DoLoadProperties_throws _ _ _ _ H). reflexivity.
  - intros offset length H. unfold LoadPropertySlice.
    rewrite (DoLoadProperties_throws _ _ _ _ H). reflexivity.
Qed.

(** ** The loop bodies in closed form *)

Lemma AddProperties_body_not_absent uri cache add_fn grp prop d w :
  descriptors w !! prop = Some d -> IsAbsent d = false ->
  AddProperties_body uri cache add_fn grp prop w
  = Some ((Return (Err (must_be_absent d)), grp), w).
Proof.
  intros Hd Ha. unfold AddProperties_body, bind, deref.
  rewrite Hd, Ha. reflexivity.
Qed.

Lemma AddPropertySlice_body_not_absent dir begin size add_fn grp prop d w :
  descriptors w !! prop = Some d -> IsAbsent d = false ->
  AddPropertySlice_body dir begin size add_fn grp prop w
  = Some ((Return (Err (must_be_absent d)), grp), w).
Proof.
  intros Hd Ha. unfold AddPropertySlice_body, bind, deref.
  rewrite Hd, Ha. reflexivity.
Qed.

Lemma AddProperties_body_hit uri add_fn grp prop d props w :
  descriptors w !! prop = Some d -> IsAbsent d = true ->
  Get (set_name (name d) (cache_key w)) (the_cache w) = Some props ->
  AddProperties_body uri true add_fn grp prop w =
  match add_fn props (merged w) with
  | (m, Err e) =>
      Some ((Return (Err (WithContext ("adding " +:+ quoted (name d)) e)),
             grp),
            set_merged m (probed true (name d) w))
  | (m, Ok _) =>
      match schema props with
      | f :: _ =>
          Some ((Return ResultSuccess, grp),
                hit_done prop d (field_type f) m w)
      | [] => None
      end
  end.
Proof.
  intros Hd Ha Hget.
  unfold AddProperties_body, bind, deref. rewrite Hd, Ha. simpl.
  rewrite Hget. unfold call. simpl.
  destruct (add_fn props (merged w)) as [m [[]|e]]; simpl; [|done].
  unfold field0_type. destruct (schema props) as [|f fs]; [done|].
  simpl. unfold prop_WasLoaded, bind, deref. simpl.
  rewrite Hd, (WasLoaded_absent _ _ Ha). reflexivity.
Qed.

Lemma AddProperties_body_miss uri cache add_fn grp prop d w :
  descriptors w !! prop = Some d -> IsAbsent d = true ->
  (cache = true ->
   Get (set_name (name d) (cache_key w)) (the_cache w) = None) ->
  AddProperties_body uri cache add_fn grp prop w =
  let w1 := probed cache (name d) w in
  let path := Join uri (path d) in
  match grp with
  | Some g =>
      Some ((Continue,
             Some (AddReturnsOp (load_task d path) path
                     (on_complete add_fn prop cache) g)), w1)
  | None =>
      match load_task d path with
      | Err e => Some ((Return (Err e), None), w1)
      | Ok read_res =>
          match on_complete add_fn prop cache read_res w1 with
          | Some (Err e, w2) => Some ((Return (Err e), None), w2)
          | Some (Ok _, w2) => Some ((Continue, None), w2)
          | None => None
          end
      end
  end.
Proof.
  intros Hd Ha Hget.
  unfold AddProperties_body, bind, deref. rewrite Hd, Ha. simpl.
  destruct cache; simpl.
  - rewrite (Hget eq_refl).
    destruct grp as [g|]; [reflexivity|].
    destruct (load_task d (Join uri (path d))) as [t|e]; [|reflexivity].
    destruct (on_complete add_fn prop true t _) as [[[[]|e] w2]|];
      reflexivity.
  - destruct grp as [g|]; [reflexivity|].
    destruct (load_task d (Join uri (path d))) as [t|e]; [|reflexivity].
    destruct (on_complete add_fn prop false t _) as [[[[]|e] w2]|];
      reflexivity.
Qed.

Lemma AddPropertySlice_body_absent dir begin size add_fn grp prop d w :
  descriptors w !! prop = Some d -> IsAbsent d = true ->
  AddPropertySlice_body dir begin size add_fn grp prop w =
  let path := Join dir (path d) in
  match grp with
  | Some g =>
      Some ((Continue,
             Some (AddReturnsOp (slice_task d path begin size) path
                     (slice_on_complete add_fn prop) g)), w)
  | None =>
      match slice_task d path begin size with
      | Err e => Some ((Return (Err e), None), w)
      | Ok read_res =>
          match slice_on_complete add_fn prop read_res w with
          | Some (Err e, w2) => Some ((Return (Err e), None), w2)
          | Some (Ok _, w2) => Some ((Continue, None), w2)
          | None => None
          end
      end
  end.
Proof.
  intros Hd Ha.
  unfold AddPropertySlice_body, bind, deref. rewrite Hd, Ha. simpl.
  destruct grp as [g|]; [reflexivity|].
  destruct (slice_task d _ begin size) as [t|e]; [|reflexivity].
  destruct (slice_on_complete add_fn prop t w) as [[[[]|e] w2]|];
    reflexivity.
Qed.

(** ** How a call changes the store *)

Lemma descriptor_step_refl d : descriptor_step d d.
Proof. by left. Qed.

Lemma descriptor_step_trans d1 d2 d3 :
  descriptor_step d1 d2 -> descriptor_step d2 d3 -> descriptor_step d1 d3.
Proof.
  intros [->|(Ha1 & Ha2 & Hn & Hp)] [->|(Hb1 & Hb2 & Hn' & Hp')].
  - by left.
  - right. done.
  - right. done.
  - congruence.
Qed.

Lemma Forall2_descriptor_step_refl (ds : list PropStorageInfo) :
  Forall2 descriptor_step ds ds.
Proof. induction ds; constructor; auto using descriptor_step_refl. Qed.

Lemma Forall2_descriptor_step_trans (l1 l2 l3 : list PropStorageInfo) :
  Forall2 descriptor_step l1 l2 -> Forall2 descriptor_step l2 l3 ->
  Forall2 descriptor_step l1 l3.
Proof.
  intros H12. revert l3. induction H12 as [|x y l k Hxy _ IH]; intros l3 H23.
  - inversion H23. constructor.
  - inversion H23 as [|y' z k' l3' Hyz Hrest]; subst.
    constructor; eauto using descriptor_step_trans.
Qed.

Lemma evolves_refl w : evolves w w.
Proof.
  unfold evolves. split; [done|].
  apply Forall2_descriptor_step_refl.
Qed.

Lemma evolves_trans w1 w2 w3 :
  evolves w1 w2 -> evolves w2 w3 -> evolves w1 w3.
Proof.
  intros (Hk & Hd) (Hk' & Hd'). unfold evolves.
  split; [congruence|].
  eapply Forall2_descriptor_step_trans; eauto.
Qed.

Lemma evolves_same_descriptors w w' :
  descriptors w' = descriptors w ->
  node_edge (cache_key w') = node_edge (cache_key w) ->
  evolves w w'.
Proof.
  intros Hd Hk. unfold evolves. rewrite Hd.
  split; [done|]. apply Forall2_descriptor_step_refl.
Qed.

Lemma evolves_one_descriptor w w' prop d d' :
  descriptors w !! prop = Some d ->
  descriptor_step d d' ->
  descriptors w' = <[prop := d']> (descriptors w) ->
  node_edge (cache_key w') = node_edge (cache_key w) ->
  evolves w w'.
Proof.
  intros Hd Hstep Hds Hk. unfold evolves.
  split; [done|]. rewrite Hds.
  rewrite <- (list_insert_id (descriptors w) prop d Hd) at 1.
  apply Forall2_insert; [apply Forall2_descriptor_step_refl | done].
Qed.

Lemma evolves_lookup_not_absent w w' prop d :
  evolves w w' ->
  descriptors w !! prop = Some d -> IsAbsent d = false ->
  descriptors w' !! prop = Some d.
Proof.
  intros (_ & Hds) Hd Ha.
  destruct (Forall2_lookup_l _ _ _ _ _ Hds Hd) as (d' & Hd' & Hstep).
  destruct Hstep as [->|(Ha' & _)]; [done | congruence].
Qed.

Lemma evolves_lookup_absent w w' prop d' :
  evolves w w' ->
  descriptors w' !! prop = Some d' -> IsAbsent d' = true ->
  descriptors w !! prop = Some d'.
Proof.
  intros (_ & Hds) Hd' Ha.
  destruct (Forall2_lookup_r _ _ _ _ _ Hds Hd') as (d & Hd & Hstep).
  destruct Hstep as [->|(_ & Ha' & _)]; [done | congruence].
Qed.

Lemma loaded_as_step ty d :
  IsAbsent d = true -> descriptor_step d (loaded_as ty d).
Proof. intros Ha. right. done. Qed.

Lemma modified_as_step ty d :
  IsAbsent d = true -> descriptor_step d (modified_as ty d).
Proof. intros Ha. right. done. Qed.

Lemma evolves_probed cache n w : evolves w (probed cache n w).
Proof. destruct cache; by apply evolves_same_descriptors. Qed.

Lemma evolves_set_merged m w : evolves w (set_merged m w).
Proof. by apply evolves_same_descriptors. Qed.

Lemma evolves_completed cache prop d ty props m w :
  descriptors w !! prop = Some d -> IsAbsent d = true ->
  evolves w (completed cache prop (loaded_as ty d) props m w).
Proof.
  intros Hd Ha.
  eapply evolves_one_descriptor;
    [exact Hd | exact (loaded_as_step ty d Ha) | |].
  - destruct cache; reflexivity.
  - destruct cache; reflexivity.
Qed.

Lemma on_complete_evolves add_fn prop cache props w r w' :
  on_complete add_fn prop cache props w = Some (r, w') -> evolves w w'.
Proof.
  rewrite on_complete_eq.
  destruct (add_fn props (merged w)) as [m [[]|e]].
  - destruct (schema props) as [|f fs]; [done|].
    destruct (descriptors w !! prop) as [d|] eqn:Hd; [|done].
    destruct (IsAbsent d) eqn:Ha; [|done].
    intros [= <- <-]. by apply evolves_completed.
  - destruct (descriptors w !! prop) as [d|]; [|done].
    intros [= <- <-]. apply evolves_set_merged.
Qed.

Lemma slice_on_complete_evolves add_fn prop props w r w' :
  slice_on_complete add_fn prop props w = Some (r, w') -> evolves w w'.
Proof.
  rewrite slice_on_complete_eq.
  destruct (add_fn props (merged w)) as [m [[]|e]].
  - destruct (schema props) as [|f fs]; [done|].
    destruct (descriptors w !! prop) as [d|] eqn:Hd; [|done].
    destruct (IsAbsent d) eqn:Ha; [|done].
    intros [= <- <-].
    eapply evolves_one_descriptor;
      [exact Hd | exact (modified_as_step (field_type f) d Ha) | |];
      done.
  - destruct (descriptors w !! prop) as [d|]; [|done].
    intros [= <- <-]. apply evolves_set_merged.
Qed.

Lemma AddProperties_body_evolves uri cache add_fn grp prop w cg w' :
  AddProperties_body uri cache add_fn grp prop w = Some (cg, w') ->
  evolves w w'.
Proof.
  destruct (descriptors w !! prop) as [d|] eqn:Hd.
  2: { unfold AddProperties_body, bind, deref. by rewrite Hd. }
  destruct (IsAbsent d) eqn:Ha.
  2: { rewrite (AddProperties_body_not_absent _ _ _ _ _ _ _ Hd Ha).
       intros [= <- <-]. apply evolves_refl. }
  destruct cache.
  - destruct (Get (set_name (name d) (cache_key w)) (the_cache w))
      as [props|] eqn:Hget.
    + rewrite (AddProperties_body_hit _ _ _ _ _ _ _ Hd Ha Hget).
      destruct (add_fn props (merged w)) as [m [[]|e]].
      * destruct (schema props) as [|f fs]; [done|].
        intros [= <- <-].
        eapply evolves_one_descriptor;
          [exact Hd | exact (loaded_as_step (field_type f) d Ha) | |];
          done.
      * intros [= <- <-]. by apply evolves_same_descriptors.
    + rewrite (AddProperties_body_miss _ _ _ _ _ _ _ Hd Ha (fun _ => Hget)).
      simpl. destruct grp as [g|].
      * intros [= <- <-]. apply (evolves_probed true).
      * destruct (load_task d _) as [t|e].
        2: { intros [= <- <-]. apply (evolves_probed true). }
        destruct (on_complete add_fn prop true t _) as [[r w2]|] eqn:Hc;
          [|done].
        apply on_complete_evolves in Hc.
        assert (evolves w w2)
          by (eapply evolves_trans; [apply (evolves_probed true)|exact Hc]).
        destruct r as [[]|e]; intros [= <- <-]; done.
  - rewrite (AddProperties_body_miss _ false _ _ _ _ _ Hd Ha) by done.
    simpl. destruct grp as [g|].
    + intros [= <- <-]. apply evolves_refl.
    + destruct (load_task d _) as [t|e].
      2: { intros [= <- <-]. apply evolves_refl. }
      destruct (on_complete add_fn prop false t _) as [[r w2]|] eqn:Hc;
        [|done].
      apply on_complete_evolves in Hc.
      destruct r as [[]|e]; intros [= <- <-]; done.
Qed.

Lemma AddPropertySlice_body_evolves dir begin size add_fn grp prop w cg w' :
  AddPropertySlice_body dir begin size add_fn grp prop w = Some (cg, w') ->
  evolves w w'.
Proof.
  destruct (descriptors w !! prop) as [d|] eqn:Hd.
  2: { unfold AddPropertySlice_body, bind, deref. by rewrite Hd. }
  destruct (IsAbsent d) eqn:Ha.
  2: { rewrite (AddPropertySlice_body_not_absent _ _ _ _ _ _ _ _ Hd Ha).
       intros [= <- <-]. apply evolves_refl. }
  rewrite (AddPropertySlice_body_absent _ _ _ _ _ _ _ _ Hd Ha).
  simpl. destruct grp as [g|].
  - intros [= <- <-]. apply evolves_refl.
  - destruct (slice_task d _ begin size) as [t|e].
    2: { intros [= <- <-]. apply evolves_refl. }
    destruct (slice_on_complete add_fn prop t w) as [[r w2]|] eqn:Hc;
      [|done].
    apply slice_on_complete_evolves in Hc.
    destruct r as [[]|e]; intros [= <- <-]; done.
Qed.

Lemma for_each_evolves body properties grp w cg w' :
  (forall g p w1 c w2, body g p w1 = Some (c, w2) -> evolves w1 w2) ->
  for_each body properties grp w = Some (cg, w') -> evolves w w'.
Proof.
  intros Hbody. revert grp w.
  induction properties as [|p rest IH]; intros grp w; simpl.
  - intros [= <- <-]. apply evolves_refl.
  - unfold bind. destruct (body grp p w) as [[[c g1] w1]|] eqn:Hb; [|done].
    apply Hbody in Hb. destruct c as [|r].
    + intros Hrest. apply IH in Hrest. eapply evolves_trans; eauto.
    + intros [= <- <-]. done.
Qed.

Lemma AddProperties_eq uri cache properties grp add_fn w :
  AddProperties uri cache properties grp add_fn w =
  match AddProperties_loop uri cache properties grp add_fn w with
  | Some (cg, w') => Some (return_after cg, w')
  | None => None
  end.
Proof. reflexivity. Qed.

Lemma AddPropertySlice_eq dir properties range grp add_fn w :
  AddPropertySlice dir properties range grp add_fn w =
  match AddPropertySlice_loop dir properties range grp add_fn w with
  | Some (cg, w') => Some (return_after cg, w')
  | None => None
  end.
Proof. reflexivity. Qed.

Lemma AddProperties_loop_evolves uri cache properties grp add_fn w cg w' :
  AddProperties_loop uri cache properties grp add_fn w = Some (cg, w') ->
  evolves w w'.
Proof.
  apply for_each_evolves. intros g p w1 c w2.
  apply AddProperties_body_evolves.
Qed.

Lemma AddPropertySlice_loop_evolves dir properties range grp add_fn w cg w' :
  AddPropertySlice_loop dir properties range grp add_fn w = Some (cg, w') ->
  evolves w w'.
Proof.
  apply for_each_evolves. intros g p w1 c w2.
  apply AddPropertySlice_body_evolves.
Qed.

Lemma not_absent_IsAbsent d : state d <> kAbsent -> IsAbsent d = false.
Proof. unfold IsAbsent. destruct (state d); done. Qed.

(** ** Descriptors that are not absent *)

(** Claim C2.  A descriptor whose state is not [kAbsent] makes both
    [AddProperties] and [AddPropertySlice] fail with [Exists] (the
    already-exists error) as soon as the loop reaches it: nothing is done
    for it and the call returns with the store as the loop found it.
    Whatever the batch and the outcome of a call, the descriptor, and so
    its state and data type, is left as it was. *)
Theorem not_absent_fails_with_Exists
    (uri dir : Uri) (range : Z * Z) (cache : bool) add_fn grp
    (prop : nat) d w :
  descriptors w !! prop = Some d ->
  state d <> kAbsent ->
  error_code (must_be_absent d) = Exists
  /\ (forall pre post g1 w1,
       AddProperties_loop uri cache pre grp add_fn w
       = Some ((Continue, g1), w1) ->
       AddProperties uri cache (pre ++ prop :: post) grp add_fn w
       = Some ((Err (must_be_absent d), g1), w1)
       /\ descriptors w1 !! prop = Some d)
  /\ (forall pre post g1 w1,
       AddPropertySlice_loop dir pre range grp add_fn w
       = Some ((Continue, g1), w1) ->
       AddPropertySlice dir (pre ++ prop :: post) range grp add_fn w
       = Some ((Err (must_be_absent d), g1), w1)
       /\ descriptors w1 !! prop = Some d)
  /\ (forall properties res w',
       AddProperties uri cache properties grp add_fn w = Some (res, w') ->
       descriptors w' !! prop = Some d)
  /\ (forall properties res w',
       AddPropertySlice dir properties range grp add_fn w = Some (res, w') ->
       descriptors w' !! prop = Some d).
Proof.
  intros Hd Hs. pose proof (not_absent_IsAbsent d Hs) as Ha.
  split; [reflexivity|]. split; [|split; [|split]].
  - intros pre post g1 w1 Hpre.
    pose proof (AddProperties_loop_evolves _ _ _ _ _ _ _ _ Hpre) as Hev.
    pose proof (evolves_lookup_not_absent _ _ _ _ Hev Hd Ha) as Hd1.
    split; [|exact Hd1].
    rewrite AddProperties_eq. unfold AddProperties_loop in *.
    rewrite for_each_app, Hpre. simpl. unfold bind.
    rewrite (AddProperties_body_not_absent _ _ _ _ _ _ _ Hd1 Ha).
    reflexivity.
  - intros pre post g1 w1 Hpre.
    pose proof (AddPropertySlice_loop_evolves _ _ _ _ _ _ _ _ Hpre) as Hev.
    pose proof (evolves_lookup_not_absent _ _ _ _ Hev Hd Ha) as Hd1.
    split; [|exact Hd1].
    rewrite AddPropertySlice_eq. unfold AddPropertySlice_loop in *.
    rewrite for_each_app, Hpre. simpl. unfold bind.
    rewrite (AddPropertySlice_body_not_absent _ _ _ _ _ _ _ _ Hd1 Ha).
    reflexivity.
  - intros properties res w'. rewrite AddProperties_eq.
    destruct (AddProperties_loop uri cache properties grp add_fn w)
      as [[cg w2]|] eqn:Hloop; [|done].
    intros [= _ <-].
    eapply evolves_lookup_not_absent;
      [eapply AddProperties_loop_evolves; exact Hloop | exact Hd | exact Ha].
  - intros properties res w'. rewrite AddPropertySlice_eq.
    destruct (AddPropertySlice_loop dir properties range grp add_fn w)
      as [[cg w2]|] eqn:Hloop; [|done].
    intros [= _ <-].
    eapply evolves_lookup_not_absent;
      [eapply AddPropertySlice_loop_evolves; exact Hloop
      | exact Hd | exact Ha].
Qed.

(** ** Successful loads *)

Lemma check_schema_Ok expected_name out t :
  check_schema expected_name out = Ok t ->
  t = out /\ exists f, schema out = [f] /\ field_name f = expected_name.
Proof.
  unfold check_schema.
  destruct (schema out) as [|f [|f' fs]]; [done| |done].
  case_bool_decide; [|done]. intros [= <-]. eauto.
Qed.

Lemma DoLoadProperties_Ok expected_name file_path slice t :
  DoLoadProperties expected_name file_path slice = Returns (Ok t) ->
  reads slice file_path t
  /\ exists f, schema t = [f] /\ field_name f = expected_name.
Proof.
  unfold DoLoadProperties, reads.
  destruct (Make (with_slice Defaults slice)) as [[reader|e]|what] eqn:Hm;
    [|done|done].
  destruct (ReadTable reader file_path) as [[out|e]|what] eqn:Hr;
    [|done|done].
  intros [= Hc]. apply check_schema_Ok in Hc as [-> Hf]. eauto.
Qed.


Lemma slice_task_Ok d file_path begin size t :
  slice_task d file_path begin size = Ok t ->
  reads (Some {| offset := to_int64 begin; length := to_int64 size |})
    file_path t
  /\ exists f, schema t = [f] /\ field_name f = name d.
Proof.
  unfold slice_task, LoadPropertySlice.
  destruct (DoLoadProperties (name d) file_path _) as [[t'|e]|what] eqn:H;
    [|done|done].
  intros [= <-]. by apply DoLoadProperties_Ok in H.
Qed.

Lemma absent_IsAbsent d : state d = kAbsent -> IsAbsent d = true.
Proof. unfold IsAbsent. by intros ->. Qed.


(** ** Cache hits *)


(** ** Failing loads *)

Lemma LoadProperties_mismatch expected_name file_path out :
  reads None file_path out -> schema_mismatch expected_name out ->
  exists e, LoadProperties expected_name file_path = Err e
            /\ error_code e = InvalidArgument.
Proof.
  intros Hr Hm. unfold LoadProperties.
  rewrite (DoLoadProperties_reads _ _ _ _ Hr).
  by apply check_schema_mismatch.
Qed.

Lemma LoadPropertySlice_mismatch expected_name file_path offset length out :
  reads (Some {| offset := offset; length := length |}) file_path out ->
  schema_mismatch expected_name out ->
  exists e, LoadPropertySlice expected_name file_path offset length = Err e
            /\ error_code e = InvalidArgument.
Proof.
  intros Hr Hm. unfold LoadPropertySlice.
  rewrite (DoLoadProperties_reads _ _ _ _ Hr).
  by apply check_schema_mismatch.
Qed.

(** Claim C5.  Let the reader return, for the file of an absent descriptor
    that misses the cache, a table whose schema is not exactly one field
    or whose single field is not named like the property.  Then the load
    fails with [InvalidArgument]; the synchronous call returns that
    error, and a grouped call records it when the group is resolved; in
    both cases the merge function has not run and no descriptor has
    changed, so the descriptor is still absent: the store differs from
    the initial one by the name written into the cache key at most.  A
    sliced load of such a table fails with [InvalidArgument] too. *)
Theorem schema_mismatch_is_InvalidArgument
    (uri : Uri) (cache : bool) add_fn (prop : nat) d out w :
  descriptors w !! prop = Some d ->
  state d = kAbsent ->
  (cache = true ->
   Get {| node_edge := node_edge (cache_key w); key_name := name d |}
     (the_cache w) = None) ->
  reads None (Join uri (path d)) out ->
  schema_mismatch (name d) out ->
  exists e,
    error_code e = InvalidArgument
    /\ LoadProperties (name d) (Join uri (path d)) = Err e
    /\ (forall rest,
         AddProperties uri cache (prop :: rest) None add_fn w
         = Some ((Err (WithContext ("error loading " +:+ Join uri (path d)) e),
                  None),
                 probed cache (name d) w))
    /\ (exists op,
         AddProperties uri cache [prop] (Some []) add_fn w
         = Some ((ResultSuccess, Some [op]), probed cache (name d) w)
         /\ Finish [op] (probed cache (name d) w)
            = Some ([Err (WithContext (Join uri (path d))
                            (WithContext
                               ("error loading " +:+ Join uri (path d)) e))],
                    probed cache (name d) w))
    /\ descriptors (probed cache (name d) w) = descriptors w
    /\ merged (probed cache (name d) w) = merged w
    /\ (forall offset length out',
         reads (Some {| offset := offset; length := length |})
           (Join uri (path d)) out' ->
         schema_mismatch (name d) out' ->
         exists e',
           LoadPropertySlice (name d) (Join uri (path d)) offset length
           = Err e'
           /\ error_code e' = InvalidArgument).
Proof.
  intros Hd Hs Hmiss Hr Hm.
  destruct (LoadProperties_mismatch _ _ _ Hr Hm) as (e & Hload & Hcode).
  pose proof (absent_IsAbsent d Hs) as Ha.
  assert (Htask : load_task d (Join uri (path d))
                  = Err (WithContext
                           ("error loading " +:+ Join uri (path d)) e)).
  { unfold load_task. rewrite Hload. reflexivity. }
  exists e. split; [exact Hcode|]. split; [exact Hload|].
  split; [|split; [|split; [|split]]].
  - intros rest. rewrite AddProperties_eq. unfold AddProperties_loop.
    simpl. unfold bind.
    rewrite (AddProperties_body_miss _ _ _ _ _ _ _ Hd Ha Hmiss).
    simpl. rewrite Htask. reflexivity.
  - eexists. split.
    + rewrite AddProperties_eq. unfold AddProperties_loop.
      simpl. unfold bind.
      rewrite (AddProperties_body_miss _ _ _ _ _ _ _ Hd Ha Hmiss).
      reflexivity.
    + simpl. rewrite Htask. reflexivity.
  - destruct cache; reflexivity.
  - destruct cache; reflexivity.
  - intros offset length out' Hr' Hm'.
    by eapply LoadPropertySlice_mismatch.
Qed.

(** ** The synchronous path stops at the first failure *)

Lemma return_after_Err cg e g :
  return_after cg = (Err e, g) -> cg = (Return (Err e), g).
Proof. destruct cg as [[|r] g']; simpl; [done|]. by intros [= -> ->]. Qed.

Lemma for_each_app_Return body (pre post : list nat) grp w r g' w' :
  for_each body pre grp w = Some ((Return r, g'), w') ->
  for_each body (pre ++ post) grp w = Some ((Return r, g'), w').
Proof. intros H. by rewrite for_each_app, H. Qed.

Lemma on_complete_Err_descriptors add_fn prop cache props w e w' :
  on_complete add_fn prop cache props w = Some (Err e, w') ->
  descriptors w' = descriptors w.
Proof.
  rewrite on_complete_eq.
  destruct (add_fn props (merged w)) as [m [[]|e']].
  - destruct (schema props); [done|].
    destruct (descriptors w !! prop) as [d|]; [|done].
    destruct (IsAbsent d); done.
  - destruct (descriptors w !! prop); [|done]. by intros [= _ <-].
Qed.

Lemma slice_on_complete_Err_descriptors add_fn prop props w e w' :
  slice_on_complete add_fn prop props w = Some (Err e, w') ->
  descriptors w' = descriptors w.
Proof.
  rewrite slice_on_complete_eq.
  destruct (add_fn props (merged w)) as [m [[]|e']].
  - destruct (schema props); [done|].
    destruct (descriptors w !! prop) as [d|]; [|done].
    destruct (IsAbsent d); done.
  - destruct (descriptors w !! prop); [|done]. by intros [= _ <-].
Qed.

(** Claim C7.  Without a read group, the first failure ends the call with
    that error.  A call that fails on a batch fails in the same way, and
    leaves the same store, whatever descriptors follow the batch.  When
    the loop reaches an absent descriptor that misses the cache and its
    load fails, the call returns the load's error and the store is the
    one the loop had reached (with the probed name in the cache key);
    when its completion routine fails, the call returns the routine's
    error, with the store the routine left, in which no descriptor has
    changed.  The descriptors after the failing one are not loaded,
    merged or marked.  The same holds for [AddPropertySlice]. *)
Theorem sync_first_failure_aborts
    (uri dir : Uri) (range : Z * Z) (cache : bool) add_fn
    (pre post : list nat) w :
  (forall e w',
     AddProperties uri cache pre None add_fn w = Some ((Err e, None), w') ->
     AddProperties uri cache (pre ++ post) None add_fn w
     = Some ((Err e, None), w'))
  /\ (forall e w',
       AddPropertySlice dir pre range None add_fn w
       = Some ((Err e, None), w') ->
       AddPropertySlice dir (pre ++ post) range None add_fn w
       = Some ((Err e, None), w'))
  /\ (forall prop d w1,
       AddProperties_loop uri cache pre None add_fn w
       = Some ((Continue, None), w1) ->
       descriptors w1 !! prop = Some d ->
       state d = kAbsent ->
       (cache = true ->
        Get {| node_edge := node_edge (cache_key w1); key_name := name d |}
          (the_cache w1) = None) ->
       (forall e,
          load_task d (Join uri (path d)) = Err e ->
          AddProperties uri cache (pre ++ prop :: post) None add_fn w
          = Some ((Err e, None), probed cache (name d) w1))
       /\ (forall props e w2,
            load_task d (Join uri (path d)) = Ok props ->
            on_complete add_fn prop cache props (probed cache (name d) w1)
            = Some (Err e, w2) ->
            AddProperties uri cache (pre ++ prop :: post) None add_fn w
            = Some ((Err e, None), w2)
            /\ descriptors w2 = descriptors w1))
  /\ (forall prop d w1,
       AddPropertySlice_loop dir pre range None add_fn w
       = Some ((Continue, None), w1) ->
       descriptors w1 !! prop = Some d ->
       state d = kAbsent ->
       let file := Join dir (path d) in
       let size := ((range.2 - range.1) mod two64)%Z in
       (forall e,
          slice_task d file range.1 size = Err e ->
          AddPropertySlice dir (pre ++ prop :: post) range None add_fn w
          = Some ((Err e, None), w1))
       /\ (forall props e w2,
            slice_task d file range.1 size = Ok props ->
            slice_on_complete add_fn prop props w1 = Some (Err e, w2) ->
            AddPropertySlice dir (pre ++ prop :: post) range None add_fn w
            = Some ((Err e, None), w2)
            /\ descriptors w2 = descriptors w1)).
Proof.
  split; [|split; [|split]].
  - intros e w'. rewrite !AddProperties_eq. unfold AddProperties_loop.
    destruct (for_each _ pre None w) as [[cg w1]|] eqn:Hpre; [|done].
    intros [= Hres <-]. apply return_after_Err in Hres as ->.
    by rewrite (for_each_app_Return _ _ post _ _ _ _ _ Hpre).
  - intros e w'. rewrite !AddPropertySlice_eq. unfold AddPropertySlice_loop.
    simpl.
    destruct (for_each _ pre None w) as [[cg w1]|] eqn:Hpre; [|done].
    intros [= Hres <-]. apply return_after_Err in Hres as ->.
    by rewrite (for_each_app_Return _ _ post _ _ _ _ _ Hpre).
  - intros prop d w1 Hpre Hd Hs Hmiss.
    pose proof (absent_IsAbsent d Hs) as Ha.
    assert (Hcall : AddProperties uri cache (pre ++ prop :: post) None
                      add_fn w
                    = match AddProperties_body uri cache add_fn None prop w1
                      with
                      | Some ((Continue, g'), w2) =>
                          AddProperties uri cache post g' add_fn w2
                      | Some ((Return r, g'), w2) => Some ((r, g'), w2)
                      | None => None
                      end).
    { rewrite AddProperties_eq. unfold AddProperties_loop in *.
      rewrite for_each_app, Hpre. simpl. unfold bind.
      destruct (AddProperties_body uri cache add_fn None prop w1)
        as [[[[|r] g'] w2]|]; reflexivity. }
    rewrite Hcall, (AddProperties_body_miss _ _ _ _ _ _ _ Hd Ha Hmiss).
    simpl. split.
    + intros e ->. reflexivity.
    + intros props e w2 -> Hc. rewrite Hc. split; [reflexivity|].
      apply on_complete_Err_descriptors in Hc. rewrite Hc.
      destruct cache; reflexivity.
  - intros prop d w1 Hpre Hd Hs file size.
    pose proof (absent_IsAbsent d Hs) as Ha.
    assert (Hcall : AddPropertySlice dir (pre ++ prop :: post) range None
                      add_fn w
                    = match AddPropertySlice_body dir range.1 size add_fn
                              None prop w1
                      with
                      | Some ((Continue, g'), w2) =>
                          AddPropertySlice dir post range g' add_fn w2
                      | Some ((Return r, g'), w2) => Some ((r, g'), w2)
                      | None => None
                      end).
    { rewrite AddPropertySlice_eq. unfold AddPropertySlice_loop in *.
      simpl in *. rewrite for_each_app, Hpre. simpl. unfold bind.
      destruct (AddPropertySlice_body dir range.1 _ add_fn None prop w1)
        as [[[[|r] g'] w2]|]; reflexivity. }
    rewrite Hcall, (AddPropertySlice_body_absent _ _ _ _ _ _ _ _ Hd Ha).
    simpl. fold file. split.
    + intros e ->. reflexivity.
    + intros props e w2 -> Hc. rewrite Hc. split; [reflexivity|].
      by apply slice_on_complete_Err_descriptors in Hc.
Qed.

(** ** Sliced loads *)

Lemma for_each_preserves (R : World -> World -> Prop) body properties
    grp w cg w' :
  (forall w0, R w0 w0) ->
  (forall w1 w2 w3, R w1 w2 -> R w2 w3 -> R w1 w3) ->
  (forall g p w1 c w2, body g p w1 = Some (c, w2) -> R w1 w2) ->
  for_each body properties grp w = Some (cg, w') -> R w w'.
Proof.
  intros Hrefl Htrans Hbody. revert grp w.
  induction properties as [|p rest IH]; intros grp w; simpl.
  - intros [= <- <-]. apply Hrefl.
  - unfold bind. destruct (body grp p w) as [[[c g1] w1]|] eqn:Hb; [|done].
    apply Hbody in Hb. destruct c as [|r].
    + intros Hrest. apply IH in Hrest. eauto.
    + intros [= <- <-]. done.
Qed.

Lemma slice_on_complete_same_cache add_fn prop props w r w' :
  slice_on_complete add_fn prop props w = Some (r, w') -> same_cache w w'.
Proof.
  rewrite slice_on_complete_eq.
  destruct (add_fn props (merged w)) as [m [[]|e]].
  - destruct (schema props); [done|].
    destruct (descriptors w !! prop) as [d|]; [|done].
    destruct (IsAbsent d); [|done]. by intros [= <- <-].
  - destruct (descriptors w !! prop); [|done]. by intros [= <- <-].
Qed.

Lemma slice_on_complete_recache add_fn prop props c k w :
  slice_on_complete add_fn prop props (recache c k w) =
  match slice_on_complete add_fn prop props w with
  | Some (r, w') => Some (r, recache c k w')
  | None => None
  end.
Proof.
  rewrite !slice_on_complete_eq. simpl.
  destruct (add_fn props (merged w)) as [m [[]|e]].
  - destruct (schema props); [done|].
    destruct (descriptors w !! prop) as [d|]; [|done].
    destruct (IsAbsent d); done.
  - destruct (descriptors w !! prop); done.
Qed.

Lemma AddPropertySlice_body_same_cache dir begin size add_fn grp prop w
    cg w' :
  AddPropertySlice_body dir begin size add_fn grp prop w = Some (cg, w') ->
  same_cache w w'.
Proof.
  destruct (descriptors w !! prop) as [d|] eqn:Hd.
  2: { unfold AddPropertySlice_body, bind, deref. by rewrite Hd. }
  destruct (IsAbsent d) eqn:Ha.
  2: { rewrite (AddPropertySlice_body_not_absent _ _ _ _ _ _ _ _ Hd Ha).
       by intros [= <- <-]. }
  rewrite (AddPropertySlice_body_absent _ _ _ _ _ _ _ _ Hd Ha).
  simpl. destruct grp as [g|]; [by intros [= <- <-]|].
  destruct (slice_task d _ begin size) as [t|e]; [|by intros [= <- <-]].
  destruct (slice_on_complete add_fn prop t w) as [[r w2]|] eqn:Hc; [|done].
  apply slice_on_complete_same_cache in Hc.
  destruct r as [[]|e]; by intros [= <- <-].
Qed.

Lemma AddPropertySlice_body_recache dir begin size add_fn grp prop c k w :
  AddPropertySlice_body dir begin size add_fn grp prop (recache c k w) =
  match AddPropertySlice_body dir begin size add_fn grp prop w with
  | Some (cg, w') => Some (cg, recache c k w')
  | None => None
  end.
Proof.
  destruct (descriptors w !! prop) as [d|] eqn:Hd.
  2: { unfold AddPropertySlice_body, bind, deref. simpl. by rewrite Hd. }
  assert (Hd' : descriptors (recache c k w) !! prop = Some d) by exact Hd.
  destruct (IsAbsent d) eqn:Ha.
  { rewrite (AddPropertySlice_body_absent _ _ _ _ _ _ _ _ Hd Ha),
      (AddPropertySlice_body_absent _ _ _ _ _ _ _ _ Hd' Ha).
    simpl. destruct grp as [g|]; [done|].
    destruct (slice_task d _ begin size) as [t|e]; [|done].
    rewrite slice_on_complete_recache.
    destruct (slice_on_complete add_fn prop t w) as [[[[]|e] w2]|]; done. }
  by rewrite (AddPropertySlice_body_not_absent _ _ _ _ _ _ _ _ Hd Ha),
    (AddPropertySlice_body_not_absent _ _ _ _ _ _ _ _ Hd' Ha).
Qed.

Lemma for_each_recache body properties grp c k w :
  (forall g p w0,
     body g p (recache c k w0) =
     match body g p w0 with
     | Some (cg, w') => Some (cg, recache c k w')
     | None => None
     end) ->
  for_each body properties grp (recache c k w) =
  match for_each body properties grp w with
  | Some (cg, w') => Some (cg, recache c k w')
  | None => None
  end.
Proof.
  intros Hbody. revert grp w.
  induction properties as [|p rest IH]; intros grp w; simpl; [done|].
  unfold bind. rewrite Hbody.
  destruct (body grp p w) as [[[[|r] g1] w1]|]; [|done|done].
  apply IH.
Qed.

Lemma AddPropertySlice_body_Continue dir begin size add_fn prop w g wa :
  AddPropertySlice_body dir begin size add_fn None prop w
  = Some ((Continue, g), wa) ->
  exists d', descriptors wa !! prop = Some d' /\ state d' = kModified.
Proof.
  destruct (descriptors w !! prop) as [d|] eqn:Hd.
  2: { unfold AddPropertySlice_body, bind, deref. by rewrite Hd. }
  destruct (IsAbsent d) eqn:Ha.
  2: { by rewrite (AddPropertySlice_body_not_absent _ _ _ _ _ _ _ _ Hd Ha). }
  rewrite (AddPropertySlice_body_absent _ _ _ _ _ _ _ _ Hd Ha). simpl.
  destruct (slice_task d _ begin size) as [t|e]; [|done].
  rewrite slice_on_complete_eq.
  destruct (add_fn t (merged w)) as [m [[]|e]].
  - destruct (schema t) as [|f fs]; [done|]. rewrite Hd, Ha.
    intros [= _ <-]. exists (modified_as (field_type f) d).
    split; [|done]. simpl. apply list_lookup_insert_eq.
    eapply lookup_lt_Some; eauto.
  - by rewrite Hd.
Qed.

Lemma AddPropertySlice_loop_all_modified dir range add_fn properties w w1 :
  AddPropertySlice_loop dir properties range None add_fn w
  = Some ((Continue, None), w1) ->
  forall prop, prop ∈ properties ->
  exists d', descriptors w1 !! prop = Some d' /\ state d' = kModified.
Proof.
  unfold AddPropertySlice_loop. simpl.
  revert w. induction properties as [|p rest IH]; intros w Hloop prop Hin.
  - by apply elem_of_nil in Hin.
  - simpl in Hloop. unfold bind in Hloop.
    destruct (AddPropertySlice_body dir range.1 _ add_fn None p w)
      as [[[[|r] g] wa]|] eqn:Hb; [|done|done].
    assert (g = None) as ->.
    { destruct (descriptors w !! p) as [d|] eqn:Hd.
      2: { unfold AddPropertySlice_body, bind, deref in Hb.
           by rewrite Hd in Hb. }
      destruct (IsAbsent d) eqn:Ha.
      2: { by rewrite (AddPropertySlice_body_not_absent _ _ _ _ _ _ _ _
                         Hd Ha) in Hb. }
      rewrite (AddPropertySlice_body_absent _ _ _ _ _ _ _ _ Hd Ha) in Hb.
      simpl in Hb. destruct (slice_task d _ _ _) as [t|e]; [|done].
      destruct (slice_on_complete add_fn p t w) as [[[[]|e] w2]|];
        by inversion Hb. }
    apply elem_of_cons in Hin as [->|Hin].
    + destruct (AddPropertySlice_body_Continue _ _ _ _ _ _ _ _ Hb)
        as (d' & Hd' & Hs').
      exists d'. split; [|done].
      eapply evolves_lookup_not_absent; [| exact Hd' |].
      * eapply (for_each_evolves _ _ _ _ _ _
                  (fun g p0 w0 c w2 =>
                     AddPropertySlice_body_evolves _ _ _ _ g p0 w0 c w2)).
        exact Hloop.
      * unfold IsAbsent. by rewrite Hs'.
    + eapply IH; eauto.
Qed.

(** Claim C3.  When the sliced column of an absent descriptor has been
    loaded, for whatever row range, and the merge function accepts it, the
    completion routine of [AddPropertySlice] leaves the descriptor
    [kModified] (not [kLoaded]) with the type of the column's field as
    its data type.  So does [AddPropertySlice] itself: when the call
    without a group reaches such a descriptor, it returns success if the
    descriptor is the last of the batch, and however the call ends after
    it the descriptor is [kModified] with that type at the end; and the
    call with a fresh group, once the group is resolved, has left the
    descriptor [kModified] too.  After the synchronous loop has run
    through a batch, every descriptor of the batch is [kModified], and
    stays so whatever happens to the descriptors that follow.
    [AddPropertySlice] and its
    completion routine never probe or populate the cache: they leave the
    cache and the cache key as they are, and they behave the same
    whatever the cache and the key hold. *)
Theorem sliced_load_marks_modified (dir : Uri) (range : Z * Z) add_fn :
  (forall (prop : nat) d props (m : MergeTarget) w (begin size : Z),
     descriptors w !! prop = Some d ->
     state d = kAbsent ->
     slice_task d (Join dir (path d)) begin size = Ok props ->
     add_fn props (merged w) = (m, Ok tt) ->
     exists f w',
       schema props = [f]
       /\ slice_on_complete add_fn prop props w = Some (Ok tt, w')
       /\ descriptors w' !! prop
          = Some {| name := name d; path := path d; state := kModified;
                    type := Some (field_type f) |}
       /\ merged w' = m)
  /\ (forall (pre : list nat) (prop : nat) d props (m : MergeTarget) w w1,
       AddPropertySlice_loop dir pre range None add_fn w
       = Some ((Continue, None), w1) ->
       descriptors w1 !! prop = Some d ->
       state d = kAbsent ->
       slice_task d (Join dir (path d)) range.1
         ((range.2 - range.1) mod two64)%Z = Ok props ->
       add_fn props (merged w1) = (m, Ok tt) ->
       exists f,
         schema props = [f]
         /\ (exists w2,
              AddPropertySlice dir (pre ++ [prop]) range None add_fn w
              = Some ((ResultSuccess, None), w2)
              /\ descriptors w2 !! prop
                 = Some (modified_as (field_type f) d)
              /\ merged w2 = m)
         /\ (forall post res w',
              AddPropertySlice dir (pre ++ prop :: post) range None add_fn w
              = Some (res, w') ->
              descriptors w' !! prop
              = Some (modified_as (field_type f) d)))
  /\ (forall (prop : nat) d props (m : MergeTarget) w,
       descriptors w !! prop = Some d ->
       state d = kAbsent ->
       slice_task d (Join dir (path d)) range.1
         ((range.2 - range.1) mod two64)%Z = Ok props ->
       add_fn props (merged w) = (m, Ok tt) ->
       exists f w',
         schema props = [f]
         /\ then_Finish
              (AddPropertySlice dir [prop] range (Some []) add_fn w)
            = Some ([Ok tt], w')
         /\ descriptors w' !! prop = Some (modified_as (field_type f) d)
         /\ merged w' = m)
  /\ (forall (pre post : list nat) w w1 res w',
       AddPropertySlice_loop dir pre range None add_fn w
       = Some ((Continue, None), w1) ->
       AddPropertySlice dir (pre ++ post) range None add_fn w
       = Some (res, w') ->
       forall prop, prop ∈ pre ->
       exists d', descriptors w' !! prop = Some d' /\ state d' = kModified)
  /\ (forall (properties : list nat) grp w res w',
       AddPropertySlice dir properties range grp add_fn w = Some (res, w') ->
       same_cache w w'
       /\ forall c k,
            AddPropertySlice dir properties range grp add_fn (recache c k w)
            = Some (res, recache c k w'))
  /\ (forall (prop : nat) props w r w',
       slice_on_complete add_fn prop props w = Some (r, w') ->
       same_cache w w'
       /\ forall c k,
            slice_on_complete add_fn prop props (recache c k w)
            = Some (r, recache c k w')).
Proof.
  split; [|split; [|split; [|split; [|split]]]].
  - intros prop d props m w begin size Hd Hs Hload Hadd.
    apply slice_task_Ok in Hload as (_ & f & Hf & _).
    exists f. eexists. split; [exact Hf|]. split.
    + rewrite slice_on_complete_eq, Hadd, Hf, Hd, (absent_IsAbsent d Hs).
      reflexivity.
    + split; [|reflexivity]. simpl. apply list_lookup_insert_eq.
      eapply lookup_lt_Some; eauto.
  - intros pre prop d props m w w1 Hpre Hd Hs Hload Hadd.
    pose proof (slice_task_Ok _ _ _ _ _ Hload) as (_ & f & Hf & _).
    exists f. split; [exact Hf|].
    pose proof (absent_IsAbsent d Hs) as Ha.
    assert (Hbody :
      AddPropertySlice_body dir range.1 ((range.2 - range.1) mod two64)%Z
        add_fn None prop w1
      = Some ((Continue, None),
              set_descriptors
                (<[prop := modified_as (field_type f) d]> (descriptors w1))
                (set_merged m w1))).
    { rewrite (AddPropertySlice_body_absent _ _ _ _ _ _ _ _ Hd Ha). simpl.
      rewrite Hload, slice_on_complete_eq, Hadd, Hf, Hd, Ha. reflexivity. }
    assert (Hmarked :
      descriptors
        (set_descriptors
           (<[prop := modified_as (field_type f) d]> (descriptors w1))
           (set_merged m w1)) !! prop
      = Some (modified_as (field_type f) d)).
    { simpl. apply list_lookup_insert_eq. eapply lookup_lt_Some; eauto. }
    unfold AddPropertySlice_loop in Hpre. simpl in Hpre. split.
    + eexists. split; [|split; [exact Hmarked|reflexivity]].
      rewrite AddPropertySlice_eq. unfold AddPropertySlice_loop. simpl.
      rewrite for_each_app, Hpre. simpl. unfold bind. rewrite Hbody.
      reflexivity.
    + intros post res w'. rewrite AddPropertySlice_eq.
      unfold AddPropertySlice_loop. simpl.
      rewrite for_each_app, Hpre. simpl. unfold bind. rewrite Hbody.
      destruct (for_each _ post None _) as [[cg w2]|] eqn:Hpost; [|done].
      intros [= _ <-].
      eapply evolves_lookup_not_absent; [| exact Hmarked | done].
      eapply (for_each_evolves _ _ _ _ _ _
                (fun g p0 w0 c w3 =>
                   AddPropertySlice_body_evolves _ _ _ _ g p0 w0 c w3)).
      exact Hpost.
  - intros prop d props m w Hd Hs Hload Hadd.
    pose proof (slice_task_Ok _ _ _ _ _ Hload) as (_ & f & Hf & _).
    pose proof (absent_IsAbsent d Hs) as Ha.
    exists f. eexists. split; [exact Hf|]. split; [|split].
    + rewrite AddPropertySlice_eq. unfold AddPropertySlice_loop. simpl.
      unfold bind.
      rewrite (AddPropertySlice_body_absent _ _ _ _ _ _ _ _ Hd Ha). simpl.
      rewrite Hload. unfold bind.
      rewrite slice_on_complete_eq, Hadd, Hf, Hd, Ha. reflexivity.
    + simpl. apply list_lookup_insert_eq. eapply lookup_lt_Some; eauto.
    + reflexivity.
  - intros pre post w w1 res w' Hpre Hcall prop Hin.
    destruct (AddPropertySlice_loop_all_modified _ _ _ _ _ _ Hpre prop Hin)
      as (d' & Hd' & Hs').
    exists d'. split; [|done].
    rewrite AddPropertySlice_eq in Hcall.
    unfold AddPropertySlice_loop in Hcall, Hpre. simpl in Hcall, Hpre.
    rewrite for_each_app, Hpre in Hcall.
    destruct (for_each _ post None w1) as [[cg w2]|] eqn:Hpost; [|done].
    injection Hcall as _ <-.
    eapply evolves_lookup_not_absent; [| exact Hd' |].
    + eapply (for_each_evolves _ _ _ _ _ _
                (fun g p0 w0 c w3 =>
                   AddPropertySlice_body_evolves _ _ _ _ g p0 w0 c w3)).
      exact Hpost.
    + unfold IsAbsent. by rewrite Hs'.
  - intros properties grp w res w'. rewrite AddPropertySlice_eq.
    unfold AddPropertySlice_loop. simpl.
    destruct (for_each _ properties grp w) as [[cg w2]|] eqn:Hloop; [|done].
    intros [= <- <-]. split.
    + eapply (for_each_preserves same_cache); [| | | exact Hloop].
      * by intros w0.
      * intros w1 w3 w4 [H1 H2] [H3 H4]. split; congruence.
      * intros g p w1 c w3. apply AddPropertySlice_body_same_cache.
    + intros c k. rewrite AddPropertySlice_eq.
      unfold AddPropertySlice_loop. simpl.
      rewrite for_each_recache, Hloop; [done|].
      intros g p w0. apply AddPropertySlice_body_recache.
  - intros prop props w r w' Hc. split.
    + by eapply slice_on_complete_same_cache.
    + intros c k. by rewrite slice_on_complete_recache, Hc.
Qed.

(** ** The row range of a sliced load *)

Lemma to_int64_mod x : is_uint64 x -> (to_int64 x mod two64 = x)%Z.
Proof.
  unfold is_uint64, to_int64, two64. intros Hx.
  rewrite (Z.mod_small x) by lia.
  destruct (x <? 2 ^ 63)%Z.
  - apply Z.mod_small. lia.
  - replace (x - 2 ^ 64)%Z with (x + (-1) * 2 ^ 64)%Z by lia.
    rewrite Z_mod_plus_full. apply Z.mod_small. lia.
Qed.

Lemma size_is_uint64 (first second : Z) :
  is_uint64 ((second - first) mod two64).
Proof. unfold is_uint64, two64. apply Z.mod_pos_bound. lia. Qed.

(** Claim C10.  [AddPropertySlice] reads its range as the half-open
    interval from [range.first] to [range.second]: the loader is invoked
    with the offset [range.first] and the length
    [range.second - range.first] computed on 64-bit unsigned values
    (both converted to [int64_t] at the call, which keeps them modulo
    2^64).  The length is the width of the interval when
    [range.first <= range.second]; when [range.second < range.first] it
    wraps around to [range.second - range.first + 2^64], and the call does
    not fail on that account: with a group the load is registered and the
    call succeeds, without one it succeeds whenever the load with these
    arguments and the merge do. *)
Theorem slice_range_wraps
    (dir : Uri) add_fn (prop : nat) d w (first second : Z)
    (g : ReadGroup) :
  is_uint64 first ->
  is_uint64 second ->
  descriptors w !! prop = Some d ->
  state d = kAbsent ->
  let size := ((second - first) mod two64)%Z in
  let file := Join dir (path d) in
  AddPropertySlice dir [prop] (first, second) (Some g) add_fn w
  = Some ((ResultSuccess,
           Some (AddReturnsOp (slice_task d file first size) file
                   (slice_on_complete add_fn prop) g)), w)
  /\ slice_task d file first size
     = checked_context ("error loading " +:+ file)
         (LoadPropertySlice (name d) file (to_int64 first) (to_int64 size))
  /\ LoadPropertySlice (name d) file (to_int64 first) (to_int64 size)
     = match DoLoadProperties (name d) file
               (Some {| offset := to_int64 first;
                        length := to_int64 size |}) with
       | Returns r => r
       | Throw what =>
           Err (KATANA_ERROR ArrowError ("arrow exception: " +:+ what))
       end
  /\ (to_int64 first mod two64 = first)%Z
  /\ (to_int64 size mod two64 = size)%Z
  /\ ((first <= second)%Z -> size = (second - first)%Z)
  /\ ((second < first)%Z ->
      size = (second - first + two64)%Z /\ (0 < size < two64)%Z)
  /\ (forall props (m : MergeTarget),
        slice_task d file first size = Ok props ->
        add_fn props (merged w) = (m, Ok tt) ->
        exists w',
          AddPropertySlice dir [prop] (first, second) None add_fn w
          = Some ((ResultSuccess, None), w')).
Proof.
  intros Hfirst Hsecond Hd Hs size file.
  pose proof (absent_IsAbsent d Hs) as Ha.
  split; [|split; [|split; [|split; [|split; [|split; [|split]]]]]].
  - rewrite AddPropertySlice_eq. unfold AddPropertySlice_loop.
    simpl. unfold bind.
    rewrite (AddPropertySlice_body_absent _ _ _ _ _ _ _ _ Hd Ha).
    reflexivity.
  - reflexivity.
  - reflexivity.
  - by apply to_int64_mod.
  - apply to_int64_mod, size_is_uint64.
  - intros Hle. unfold size. apply Z.mod_small.
    unfold is_uint64 in *. lia.
  - intros Hlt. unfold is_uint64 in *.
    assert (Hsize : size = (second - first + two64)%Z).
    { unfold size.
      rewrite <- (Z_mod_plus_full (second - first) 1 two64), Z.mul_1_l.
      apply Z.mod_small. lia. }
    split; [exact Hsize|]. lia.
  - intros props m Hload Hadd.
    apply slice_task_Ok in Hload as Hschema.
    destruct Hschema as (_ & f & Hf & _).
    eexists. rewrite AddPropertySlice_eq. unfold AddPropertySlice_loop.
    simpl. unfold bind.
    rewrite (AddPropertySlice_body_absent _ _ _ _ _ _ _ _ Hd Ha).
    simpl. fold size file. rewrite Hload.
    rewrite slice_on_complete_eq, Hadd, Hf, Hd, Ha. reflexivity.
Qed.

(** ** The cache key shared with the callbacks *)

Lemma AddProperties_body_cache_key uri add_fn grp prop d w cg w' :
  descriptors w !! prop = Some d -> IsAbsent d = true ->
  AddProperties_body uri true add_fn grp prop w = Some (cg, w') ->
  cache_key w' = set_name (name d) (cache_key w).
Proof.
  intros Hd Ha.
  destruct (Get (set_name (name d) (cache_key w)) (the_cache w))
    as [props|] eqn:Hget.
  - rewrite (AddProperties_body_hit _ _ _ _ _ _ _ Hd Ha Hget).
    destruct (add_fn props (merged w)) as [m [[]|e]].
    + destruct (schema props); [done|]. by intros [= <- <-].
    + by intros [= <- <-].
  - rewrite (AddProperties_body_miss _ _ _ _ _ _ _ Hd Ha (fun _ => Hget)).
    simpl. destruct grp as [g|]; [by intros [= <- <-]|].
    destruct (load_task d _) as [t|e]; [|by intros [= <- <-]].
    rewrite on_complete_eq. simpl.
    destruct (add_fn t (merged w)) as [m [[]|e]].
    + destruct (schema t); [done|]. rewrite Hd, Ha. by intros [= <- <-].
    + rewrite Hd. by intros [= <- <-].
Qed.

Lemma on_complete_cache_key add_fn prop d props w w' :
  descriptors w !! prop = Some d ->
  on_complete add_fn prop true props w = Some (Ok tt, w') ->
  cache_key w' = set_name (name d) (cache_key w)
  /\ the_cache w' = Insert (set_name (name d) (cache_key w)) props
                      (the_cache w).
Proof.
  intros Hd. rewrite on_complete_eq.
  destruct (add_fn props (merged w)) as [m [[]|e]].
  - destruct (schema props); [done|]. rewrite Hd.
    destruct (IsAbsent d); [|done]. by intros [= <-].
  - by rewrite Hd.
Qed.

Lemma on_complete_no_cache add_fn prop props w r w' :
  on_complete add_fn prop false props w = Some (r, w') ->
  same_cache w w'.
Proof.
  rewrite on_complete_eq.
  destruct (add_fn props (merged w)) as [m [[]|e]].
  - destruct (schema props); [done|].
    destruct (descriptors w !! prop) as [d|]; [|done].
    destruct (IsAbsent d); [|done]. by intros [= <- <-].
  - destruct (descriptors w !! prop); [|done]. by intros [= <- <-].
Qed.

Lemma AddProperties_body_no_cache uri add_fn grp prop w cg w' :
  AddProperties_body uri false add_fn grp prop w = Some (cg, w') ->
  same_cache w w'.
Proof.
  destruct (descriptors w !! prop) as [d|] eqn:Hd.
  2: { unfold AddProperties_body, bind, deref. by rewrite Hd. }
  destruct (IsAbsent d) eqn:Ha.
  2: { rewrite (AddProperties_body_not_absent _ _ _ _ _ _ _ Hd Ha).
       by intros [= <- <-]. }
  rewrite (AddProperties_body_miss _ false _ _ _ _ _ Hd Ha) by done.
  simpl. destruct grp as [g|]; [by intros [= <- <-]|].
  destruct (load_task d _) as [t|e]; [|by intros [= <- <-]].
  destruct (on_complete add_fn prop false t w) as [[r w2]|] eqn:Hc; [|done].
  apply on_complete_no_cache in Hc.
  destruct r as [[]|e]; by intros [= <- <-].
Qed.

(** What one iteration with a group adds to the group: nothing, or the
    pending operation of its descriptor. *)
Lemma AddProperties_body_group uri cache add_fn (g : ReadGroup) prop w c
    g_out w' :
  AddProperties_body uri cache add_fn (Some g) prop w
  = Some ((c, g_out), w') ->
  g_out = Some g
  \/ exists future file,
       g_out = Some (g ++ [{| op_future := future; op_file := file;
                              op_on_complete :=
                                on_complete add_fn prop cache |}]).
Proof.
  destruct (descriptors w !! prop) as [d|] eqn:Hd.
  2: { unfold AddProperties_body, bind, deref. by rewrite Hd. }
  destruct (IsAbsent d) eqn:Ha.
  2: { rewrite (AddProperties_body_not_absent _ _ _ _ _ _ _ Hd Ha).
       intros [= <- <- <-]. by left. }
  assert (Hmiss :
    (cache = true ->
     Get (set_name (name d) (cache_key w)) (the_cache w) = None) ->
    AddProperties_body uri cache add_fn (Some g) prop w
    = Some ((c, g_out), w') ->
    exists future file,
      g_out = Some (g ++ [{| op_future := future; op_file := file;
                             op_on_complete :=
                               on_complete add_fn prop cache |}])).
  { intros Hget.
    rewrite (AddProperties_body_miss _ _ _ _ _ _ _ Hd Ha Hget). simpl.
    intros [= <- <- <-]. eauto. }
  destruct cache; [|intros H; right; by apply Hmiss].
  destruct (Get (set_name (name d) (cache_key w)) (the_cache w))
    as [props|] eqn:Hget; [|intros H; right; by apply Hmiss].
  rewrite (AddProperties_body_hit _ _ _ _ _ _ _ Hd Ha Hget).
  destruct (add_fn props (merged w)) as [m [[]|e]].
  - destruct (schema props); [done|]. intros [= <- <- <-]. by left.
  - intros [= <- <- <-]. by left.
Qed.

Lemma AddProperties_loop_group uri cache add_fn properties (g : ReadGroup)
    w c g_out w' :
  AddProperties_loop uri cache properties (Some g) add_fn w
  = Some ((c, g_out), w') ->
  exists ops,
    g_out = Some (g ++ ops)
    /\ Forall (fun op => exists prop,
                 prop ∈ properties
                 /\ op_on_complete op = on_complete add_fn prop cache) ops.
Proof.
  unfold AddProperties_loop. revert g w.
  induction properties as [|p rest IH]; intros g w; simpl.
  - intros [= <- <- <-]. exists []. by rewrite app_nil_r.
  - unfold bind.
    destruct (AddProperties_body uri cache add_fn (Some g) p w)
      as [[[c1 g1] w1]|] eqn:Hb; [|done].
    apply AddProperties_body_group in Hb as [->|(future & file & ->)].
    + destruct c1 as [|r].
      * intros Hrest. apply IH in Hrest as (ops & -> & Hops).
        exists ops. split; [done|].
        eapply Forall_impl; [exact Hops|].
        intros op (prop & Hin & Hop). exists prop.
        split; [by apply elem_of_cons; right | done].
      * intros [= <- <- <-]. exists []. by rewrite app_nil_r.
    + destruct c1 as [|r].
      * intros Hrest. apply IH in Hrest as (ops & -> & Hops).
        eexists (_ :: ops). split; [by rewrite <- app_assoc|].
        constructor.
        -- exists p. split; [by apply elem_of_cons; left | done].
        -- eapply Forall_impl; [exact Hops|].
           intros op (prop & Hin & Hop). exists prop.
           split; [by apply elem_of_cons; right | done].
      * intros [= <- <- <-]. eexists [_]. split; [done|].
        constructor; [|constructor].
        exists p. split; [by apply elem_of_cons; left | done].
Qed.

(** Claim C9, as amended.  With a cache, [AddProperties] writes into the
    one cache key object its caller supplied.  Probing the cache for an
    absent descriptor overwrites the key's name with that descriptor's
    name, whatever the iteration then does.  Every completion callback the call
    hands to a read group is the routine [on_complete] of a descriptor of
    the batch, a closure over the store and not over a copy of the key:
    when it runs, after the call has returned, and its merge succeeds, it
    overwrites the name of the key as it then is with its property's name
    and inserts the column under that key; when its merge fails it
    returns before that and leaves the key and the cache as they are.
    Without a cache the key is never written. *)
Theorem cache_key_is_shared_and_overwritten (uri : Uri) add_fn :
  (forall grp (prop : nat) d w cg w',
     descriptors w !! prop = Some d ->
     state d = kAbsent ->
     AddProperties_body uri true add_fn grp prop w = Some (cg, w') ->
     cache_key w'
     = {| node_edge := node_edge (cache_key w); key_name := name d |})
  /\ (forall (prop : nat) d props w w',
       descriptors w !! prop = Some d ->
       on_complete add_fn prop true props w = Some (Ok tt, w') ->
       cache_key w'
       = {| node_edge := node_edge (cache_key w); key_name := name d |}
       /\ the_cache w'
          = Insert {| node_edge := node_edge (cache_key w);
                      key_name := name d |} props (the_cache w))
  /\ (forall (prop : nat) props e w w',
       on_complete add_fn prop true props w = Some (Err e, w') ->
       cache_key w' = cache_key w /\ the_cache w' = the_cache w)
  /\ (forall (properties : list nat) (g : ReadGroup) res g_out w w',
       AddProperties uri true properties (Some g) add_fn w
       = Some ((res, g_out), w') ->
       exists ops,
         g_out = Some (g ++ ops)
         /\ Forall (fun op => exists prop,
                      prop ∈ properties
                      /\ op_on_complete op = on_complete add_fn prop true)
              ops)
  /\ (forall (properties : list nat) grp res w w',
       AddProperties uri false properties grp add_fn w = Some (res, w') ->
       cache_key w' = cache_key w).
Proof.
  split; [|split; [|split; [|split]]].
  - intros grp prop d w cg w' Hd Hs.
    apply (AddProperties_body_cache_key _ _ _ _ _ _ _ _ Hd
             (absent_IsAbsent d Hs)).
  - intros prop d props w w' Hd. by apply on_complete_cache_key.
  - intros prop props e w w'. rewrite on_complete_eq.
    destruct (add_fn props (merged w)) as [m [[]|e0]].
    + destruct (schema props); [done|].
      destruct (descriptors w !! prop) as [d|]; [|done].
      by destruct (IsAbsent d).
    + destruct (descriptors w !! prop); [|done]. by intros [= _ <-].
  - intros properties g res g_out w w'. rewrite AddProperties_eq.
    destruct (AddProperties_loop uri true properties (Some g) add_fn w)
      as [[[c g1] w1]|] eqn:Hloop; [|done].
    apply AddProperties_loop_group in Hloop as (ops & -> & Hops).
    destruct c as [|r]; intros [= <- <- <-]; eauto.
  - intros properties grp res w w'. rewrite AddProperties_eq.
    destruct (AddProperties_loop uri false properties grp add_fn w)
      as [[cg w1]|] eqn:Hloop; [|done].
    intros [= _ <-]. unfold AddProperties_loop in Hloop.
    eapply (for_each_preserves same_cache) in Hloop.
    + exact (proj2 Hloop).
    + by intros w0.
    + intros w2 w3 w4 [H1 H2] [H3 H4]. split; congruence.
    + intros g0 p w2 c w3. apply AddProperties_body_no_cache.
Qed.

(** ** The synchronous path and the grouped path *)

Lemma probed_probed cache n n' w :
  probed cache n (probed cache n' w) = probed cache n w.
Proof. destruct cache; reflexivity. Qed.

Lemma probed_self w : probed true (key_name (cache_key w)) w = w.
Proof. destruct w as [ds [ne kn] c m sp]. reflexivity. Qed.

Lemma key_equiv_refl cache w : key_equiv cache w w.
Proof.
  destruct cache.
  - exists (key_name (cache_key w)). by rewrite probed_self.
  - by exists EmptyString.
Qed.

Lemma key_equiv_probed cache n wx w :
  key_equiv cache wx w -> key_equiv cache (probed cache n wx) w.
Proof. intros [n' ->]. exists n. apply probed_probed. Qed.

Lemma key_equiv_probed_r cache n wx w :
  key_equiv cache wx w -> key_equiv cache wx (probed cache n w).
Proof. intros [n' ->]. exists n'. by rewrite probed_probed. Qed.

Lemma key_equiv_descriptors cache wx w :
  key_equiv cache wx w -> descriptors wx = descriptors w.
Proof. intros [n ->]. destruct cache; reflexivity. Qed.

Lemma key_equiv_misses cache d wx w :
  key_equiv cache wx w -> misses cache d w -> misses cache d wx.
Proof. intros [n ->] H Hc. specialize (H Hc). subst cache. exact H. Qed.

Lemma key_equiv_false wx w : key_equiv false wx w -> wx = w.
Proof. by intros [n ->]. Qed.

Lemma key_equiv_same cache wx w :
  key_equiv cache wx w ->
  descriptors wx = descriptors w /\ the_cache wx = the_cache w
  /\ merged wx = merged w.
Proof. intros [n ->]. by destruct cache. Qed.

Lemma group_follows_paths_agree
    (run : option ReadGroup -> Exec (Result unit * option ReadGroup)) w :
  group_follows run w -> paths_agree run w.
Proof.
  intros Hfollows r ws outcomes wg Hs Hg.
  destruct (Hfollows r ws Hs) as (outcomes' & wg' & Hg' & Hsame).
  assert (wg' = wg) as <- by congruence. exact Hsame.
Qed.

Section SyncVersusGroup.

(** The common shape of the two loops.  An iteration stops at a
    descriptor that is not absent.  At an absent descriptor that misses
    the cache, with a group the load is registered; without a group the
    column is loaded and the callback run, and the iteration continues
    when both succeed. *)
Variable cache : bool.
Variable body : option ReadGroup -> nat -> Exec (Control * option ReadGroup).
Variable task : PropStorageInfo -> CopyableResult Table.
Variable file : PropStorageInfo -> string.
Variable callback : nat -> Table -> Exec (CopyableResult unit).

Hypothesis body_sync_Continue : forall prop w g w2,
  body None prop w = Some ((Continue, g), w2) ->
  exists d t,
    g = None /\ descriptors w !! prop = Some d /\ IsAbsent d = true
    /\ misses cache d w /\ task d = Ok t
    /\ callback prop t (probed cache (name d) w) = Some (Ok tt, w2).

Hypothesis body_not_absent : forall g prop d w,
  descriptors w !! prop = Some d -> IsAbsent d = false ->
  body g prop w = Some ((Return (Err (must_be_absent d)), g), w).

Hypothesis body_sync_miss : forall prop d w,
  descriptors w !! prop = Some d -> IsAbsent d = true ->
  misses cache d w ->
  body None prop w =
  match task d with
  | Err e => Some ((Return (Err e), None), probed cache (name d) w)
  | Ok t =>
      match callback prop t (probed cache (name d) w) with
      | Some (Err e, w2) => Some ((Return (Err e), None), w2)
      | Some (Ok _, w2) => Some ((Continue, None), w2)
      | None => None
      end
  end.

Hypothesis body_group : forall prop d w (g : ReadGroup),
  descriptors w !! prop = Some d -> IsAbsent d = true ->
  misses cache d w ->
  body (Some g) prop w
  = Some ((Continue,
           Some (g ++ [{| op_future := task d; op_file := file d;
                          op_on_complete := callback prop |}])),
          probed cache (name d) w).

Hypothesis body_evolves : forall g prop w cg w',
  body g prop w = Some (cg, w') -> evolves w w'.

Hypothesis callback_key : forall prop t wx w wa,
  key_equiv cache wx w ->
  callback prop t w = Some (Ok tt, wa) ->
  callback prop t wx = Some (Ok tt, wa).

Hypothesis callback_key_any : forall prop t wx w r wa,
  key_equiv cache wx w ->
  callback prop t w = Some (r, wa) ->
  exists wxa, callback prop t wx = Some (r, wxa) /\ key_equiv cache wxa wa.

Lemma sync_run_registers_and_resolves (properties : list nat) :
  forall w w',
    for_each body properties None w = Some ((Continue, None), w') ->
    (forall prop d,
       prop ∈ properties -> descriptors w !! prop = Some d ->
       misses cache d w) ->
    exists ops,
      (forall g : ReadGroup, exists w1,
         for_each body properties (Some g) w
         = Some ((Continue, Some (g ++ ops)), w1)
         /\ key_equiv cache w1 w)
      /\ (forall wx, key_equiv cache wx w -> exists wy,
            Finish ops wx = Some (map (fun _ => Ok tt) properties, wy)
            /\ key_equiv cache wy w'
            /\ (properties <> [] -> wy = w')).
Proof.
  induction properties as [|p pre IH] using rev_ind;
    intros w w' Hsync Hmisses.
  - injection Hsync as <-. exists []. split.
    + intros g. exists w. rewrite app_nil_r. split; [done|].
      apply key_equiv_refl.
    + intros wx Hx. exists wx. done.
  - rewrite for_each_app in Hsync.
    destruct (for_each body pre None w) as [[[[|r] g0] w_mid]|] eqn:Hpre;
      [|done|done].
    assert (g0 = None) as ->.
    { clear -Hpre body_sync_Continue. revert w Hpre.
      induction pre as [|q pre IHpre]; intros w; simpl.
      - by intros [= <- <-].
      - unfold bind.
        destruct (body None q w) as [[[[|r] g1] w1]|] eqn:Hb; [|done|done].
        apply body_sync_Continue in Hb as (d & t & -> & _). apply IHpre. }
    simpl in Hsync. unfold bind in Hsync.
    destruct (body None p w_mid) as [[[[|r] g2] w2]|] eqn:Hb; [|done|done].
    assert (w2 = w') as -> by (by injection Hsync).
    destruct (body_sync_Continue _ _ _ _ Hb)
      as (d & t & -> & Hd & Ha & Hmiss & Htask & Hcb).
    destruct (IH w w_mid Hpre) as (ops & Hreg & Hres).
    { intros q dq Hq. apply Hmisses, elem_of_app. by left. }
    assert (Hev : evolves w w_mid).
    { eapply (for_each_evolves body); [|exact Hpre].
      intros g q w1 c w3. apply body_evolves. }
    pose proof (evolves_lookup_absent _ _ _ _ Hev Hd Ha) as Hd0.
    assert (Hmiss0 : misses cache d w).
    { apply (Hmisses p d); [|exact Hd0]. apply elem_of_app. right.
      apply elem_of_cons. by left. }
    exists (ops ++ [{| op_future := task d; op_file := file d;
                       op_on_complete := callback p |}]).
    split.
    + intros g. destruct (Hreg g) as (w1 & Hloop & Hw1).
      exists (probed cache (name d) w1). split.
      * rewrite for_each_app, Hloop. simpl. unfold bind.
        unfold ReadGroup in *.
        rewrite (body_group p d w1 (g ++ ops)).
        -- by rewrite app_assoc.
        -- by rewrite (key_equiv_descriptors _ _ _ Hw1).
        -- exact Ha.
        -- by eapply key_equiv_misses.
      * by apply key_equiv_probed.
    + intros wx Hx. destruct (Hres wx Hx) as (wy & Hfin & Hy & _).
      exists w'. rewrite Finish_app, Hfin. simpl. rewrite Htask.
      unfold bind.
      rewrite (callback_key p t wy _ w' (key_equiv_probed_r _ _ _ _ Hy) Hcb).
      simpl. rewrite map_app. split; [done|].
      split; [apply key_equiv_refl | done].
Qed.

(** The two loops end alike when the synchronous one does not stop before
    the grouped one would: it runs through [pre] and then finds nothing
    left, or a descriptor that was not absent from the start, or a last
    descriptor that misses the cache. *)
Lemma sync_and_group_end_alike (pre rest : list nat) w w_mid :
  for_each body pre None w = Some ((Continue, None), w_mid) ->
  (forall prop d,
     prop ∈ pre -> descriptors w !! prop = Some d -> misses cache d w) ->
  (rest = []
   \/ (exists stop rest' d,
         rest = stop :: rest'
         /\ descriptors w !! stop = Some d /\ IsAbsent d = false)
   \/ (exists last d,
         rest = [last]
         /\ descriptors w_mid !! last = Some d /\ IsAbsent d = true
         /\ misses cache d w /\ misses cache d w_mid)) ->
  forall cg ws,
    for_each body (pre ++ rest) None w = Some (cg, ws) ->
    exists cg' (g : ReadGroup) w1 outcomes wg,
      for_each body (pre ++ rest) (Some []) w = Some ((cg', Some g), w1)
      /\ Finish g w1 = Some (outcomes, wg)
      /\ descriptors ws = descriptors wg
      /\ the_cache ws = the_cache wg
      /\ merged ws = merged wg.
Proof.
  intros Hpre Hmisses Hstop cg ws Hsync.
  destruct (sync_run_registers_and_resolves pre w w_mid Hpre Hmisses)
    as (ops & Hreg & Hres).
  destruct (Hreg []) as (w1 & Hloop & Hw1). simpl in Hloop.
  assert (Hev : evolves w w_mid).
  { eapply (for_each_evolves body); [|exact Hpre].
    intros g q w2 c w3. apply body_evolves. }
  rewrite for_each_app, Hpre in Hsync.
  destruct Hstop as [-> | [(stop & rest' & d & -> & Hd & Ha)
                          | (last & d & -> & Hd & Ha & Hm0 & Hm)]].
  - simpl in Hsync. injection Hsync as <- <-.
    destruct (Hres w1 Hw1) as (wy & Hfin & Hy & _).
    exists Continue, ops, w1, (map (fun _ => Ok tt) pre), wy.
    rewrite app_nil_r. split; [exact Hloop|]. split; [exact Hfin|].
    destruct (key_equiv_same _ _ _ Hy) as (H1 & H2 & H3). done.
  - pose proof (evolves_lookup_not_absent _ _ _ _ Hev Hd Ha) as Hd_mid.
    simpl in Hsync. unfold bind in Hsync.
    rewrite (body_not_absent None stop d w_mid Hd_mid Ha) in Hsync.
    injection Hsync as <- <-.
    destruct (Hres w1 Hw1) as (wy & Hfin & Hy & _).
    exists (Return (Err (must_be_absent d))), ops, w1,
      (map (fun _ => Ok tt) pre), wy.
    split.
    { rewrite for_each_app. unfold ReadGroup in *. rewrite Hloop. simpl.
      unfold bind. rewrite (body_not_absent (Some ops) stop d w1); [done| |done].
      by rewrite (key_equiv_descriptors _ _ _ Hw1). }
    split; [exact Hfin|].
    destruct (key_equiv_same _ _ _ Hy) as (H1 & H2 & H3). done.
  - pose proof (evolves_lookup_absent _ _ _ _ Hev Hd Ha) as Hd0.
    simpl in Hsync. unfold bind in Hsync.
    rewrite (body_sync_miss last d w_mid Hd Ha Hm) in Hsync.
    assert (Hgrp :
      for_each body (pre ++ [last]) (Some []) w
      = Some ((Continue,
               Some (ops ++ [{| op_future := task d; op_file := file d;
                                op_on_complete := callback last |}])),
              probed cache (name d) w1)).
    { rewrite for_each_app. unfold ReadGroup in *. rewrite Hloop. simpl.
      unfold bind. rewrite (body_group last d w1 ops); [done| |done|].
      - by rewrite (key_equiv_descriptors _ _ _ Hw1).
      - by eapply key_equiv_misses. }
    destruct (Hres (probed cache (name d) w1)
                (key_equiv_probed _ _ _ _ Hw1)) as (wy & Hfin & Hy & _).
    destruct (task d) as [t|e] eqn:Ht.
    + destruct (callback last t (probed cache (name d) w_mid))
        as [[r w2]|] eqn:Hcb; [|done].
      assert (ws = w2) as -> by (destruct r as [[]|e]; by injection Hsync).
      destruct (callback_key_any last t wy _ r w2
                  (key_equiv_probed_r _ _ _ _ Hy) Hcb)
        as (wxa & Hcbx & Hxa).
      do 3 eexists. exists (map (fun _ => Ok tt) pre ++ [r]), wxa.
      split; [exact Hgrp|]. split.
      { rewrite Finish_app, Hfin. simpl. unfold bind.
        rewrite Hcbx. reflexivity. }
      destruct (key_equiv_same _ _ _ Hxa) as (H1 & H2 & H3). done.
    + injection Hsync as <- <-.
      do 3 eexists.
      exists (map (fun _ => Ok tt) pre ++ [Err (WithContext (file d) e)]), wy.
      split; [exact Hgrp|]. split.
      { rewrite Finish_app, Hfin. reflexivity. }
      destruct (key_equiv_same _ _ _ Hy) as (H1 & H2 & H3).
      destruct cache; done.
Qed.

End SyncVersusGroup.

Lemma AddProperties_body_sync_Continue uri cache add_fn prop w g w2 :
  AddProperties_body uri cache add_fn None prop w
  = Some ((Continue, g), w2) ->
  exists d t,
    g = None /\ descriptors w !! prop = Some d /\ IsAbsent d = true
    /\ misses cache d w
    /\ load_task d (Join uri (path d)) = Ok t
    /\ on_complete add_fn prop cache t (probed cache (name d) w)
       = Some (Ok tt, w2).
Proof.
  destruct (descriptors w !! prop) as [d|] eqn:Hd.
  2: { unfold AddProperties_body, bind, deref. by rewrite Hd. }
  destruct (IsAbsent d) eqn:Ha.
  2: { by rewrite (AddProperties_body_not_absent _ _ _ _ _ _ _ Hd Ha). }
  assert (Hmiss : misses cache d w ->
    AddProperties_body uri cache add_fn None prop w
    = Some ((Continue, g), w2) ->
    exists d0 t,
      g = None /\ Some d = Some d0 /\ IsAbsent d0 = true
      /\ misses cache d0 w
      /\ load_task d0 (Join uri (path d0)) = Ok t
      /\ on_complete add_fn prop cache t (probed cache (name d0) w)
         = Some (Ok tt, w2)).
  { intros Hget.
    rewrite (AddProperties_body_miss _ _ _ _ _ _ _ Hd Ha Hget). simpl.
    destruct (load_task d _) as [t|e] eqn:Ht; [|done].
    destruct (on_complete add_fn prop cache t _) as [[[[]|e] w3]|] eqn:Hc;
      [|done|done].
    intros [= <- <-]. exists d, t. done. }
  destruct cache; [|apply Hmiss; by intros ?].
  destruct (Get (set_name (name d) (cache_key w)) (the_cache w))
    as [props|] eqn:Hget; [|apply Hmiss; by intros _].
  rewrite (AddProperties_body_hit _ _ _ _ _ _ _ Hd Ha Hget).
  destruct (add_fn props (merged w)) as [m [[]|e]]; [|done].
  by destruct (schema props).
Qed.

Lemma AddPropertySlice_body_sync_Continue dir begin size add_fn prop w g
    w2 :
  AddPropertySlice_body dir begin size add_fn None prop w
  = Some ((Continue, g), w2) ->
  exists d t,
    g = None /\ descriptors w !! prop = Some d /\ IsAbsent d = true
    /\ misses false d w
    /\ slice_task d (Join dir (path d)) begin size = Ok t
    /\ slice_on_complete add_fn prop t (probed false (name d) w)
       = Some (Ok tt, w2).
Proof.
  destruct (descriptors w !! prop) as [d|] eqn:Hd.
  2: { unfold AddPropertySlice_body, bind, deref. by rewrite Hd. }
  destruct (IsAbsent d) eqn:Ha.
  2: { by rewrite (AddPropertySlice_body_not_absent _ _ _ _ _ _ _ _ Hd Ha). }
  rewrite (AddPropertySlice_body_absent _ _ _ _ _ _ _ _ Hd Ha). simpl.
  destruct (slice_task d _ begin size) as [t|e] eqn:Ht; [|done].
  destruct (slice_on_complete add_fn prop t w) as [[[[]|e] w3]|] eqn:Hc;
    [|done|done].
  intros [= <- <-]. exists d, t. done.
Qed.

Lemma on_complete_key_equiv add_fn prop cache t wx w wa :
  key_equiv cache wx w ->
  on_complete add_fn prop cache t w = Some (Ok tt, wa) ->
  on_complete add_fn prop cache t wx = Some (Ok tt, wa).
Proof.
  intros [n ->]. rewrite !on_complete_eq.
  destruct cache; [|done]. simpl.
  destruct (add_fn t (merged w)) as [m [[]|e]].
  - destruct (schema t); [done|].
    destruct (descriptors w !! prop) as [d|]; [|done].
    destruct (IsAbsent d); [|done]. by intros [= <-].
  - destruct (descriptors w !! prop); done.
Qed.

Lemma on_complete_key_equiv_any add_fn prop cache t wx w r wa :
  key_equiv cache wx w ->
  on_complete add_fn prop cache t w = Some (r, wa) ->
  exists wxa,
    on_complete add_fn prop cache t wx = Some (r, wxa)
    /\ key_equiv cache wxa wa.
Proof.
  intros [n ->]. rewrite !on_complete_eq.
  destruct cache.
  2: { intros H. exists wa. split; [exact H|apply key_equiv_refl]. }
  simpl. destruct (add_fn t (merged w)) as [m [[]|e]].
  - destruct (schema t); [done|].
    destruct (descriptors w !! prop) as [d|]; [|done].
    destruct (IsAbsent d); [|done]. intros [= <- <-].
    eexists. split; [reflexivity|]. apply key_equiv_refl.
  - destruct (descriptors w !! prop); [|done]. intros [= <- <-].
    eexists. split; [reflexivity|]. by exists n.
Qed.

(** A call whose first descriptor hits the cache ends alike with and
    without a group: nothing has been registered when it returns. *)
Lemma first_hit_group_follows uri add_fn stop rest d props w :
  descriptors w !! stop = Some d -> IsAbsent d = true ->
  Get (set_name (name d) (cache_key w)) (the_cache w) = Some props ->
  group_follows
    (fun grp => AddProperties uri true (stop :: rest) grp add_fn) w.
Proof.
  intros Hd Ha Hget r ws. rewrite !AddProperties_eq.
  unfold AddProperties_loop. simpl. unfold bind.
  rewrite !(AddProperties_body_hit _ _ _ _ _ _ _ Hd Ha Hget).
  destruct (add_fn props (merged w)) as [m [[]|e]].
  - destruct (schema props) as [|f fs]; [done|]. intros [= <- <-].
    exists [], (hit_done stop d (field_type f) m w). done.
  - intros [= <- <-].
    exists [], (set_merged m (probed true (name d) w)). done.
Qed.

(** Claim C1, as amended.  The call without a read group ends with the
    same descriptors, cache contents and merged data as the call with a
    fresh read group followed by the resolution of the group in the order
    of submission, provided the synchronous call does not stop where the
    grouped one goes on: it runs through a part [pre] of the batch, whose
    descriptors also miss the cache as it is when the call starts, and
    then stops only as [stops_alike] allows (at the end of the batch, at
    a descriptor that was not absent from the start, at the last
    descriptor when it misses the cache, or at a cache hit of the very
    first descriptor).  Then the grouped way goes through whenever the
    synchronous call returns.  This holds for [AddProperties] and for
    [AddPropertySlice], and in particular for every batch of a single
    descriptor, whatever happens to it. *)
Theorem sync_equals_grouped_unless_stopped_early
    (uri dir : Uri) (range : Z * Z) (cache : bool) add_fn
    (pre rest : list nat) w w_mid :
  (AddProperties_loop uri cache pre None add_fn w
   = Some ((Continue, None), w_mid) ->
   (forall prop d,
      prop ∈ pre -> descriptors w !! prop = Some d -> misses cache d w) ->
   stops_alike cache pre rest w w_mid ->
   group_follows
     (fun grp => AddProperties uri cache (pre ++ rest) grp add_fn) w
   /\ paths_agree
        (fun grp => AddProperties uri cache (pre ++ rest) grp add_fn) w)
  /\ (AddPropertySlice_loop dir pre range None add_fn w
      = Some ((Continue, None), w_mid) ->
      stops_alike false pre rest w w_mid ->
      group_follows
        (fun grp => AddPropertySlice dir (pre ++ rest) range grp add_fn) w
      /\ paths_agree
           (fun grp => AddPropertySlice dir (pre ++ rest) range grp add_fn)
           w)
  /\ (forall prop,
        group_follows
          (fun grp => AddProperties uri cache [prop] grp add_fn) w
        /\ paths_agree
             (fun grp => AddProperties uri cache [prop] grp add_fn) w
        /\ group_follows
             (fun grp => AddPropertySlice dir [prop] range grp add_fn) w
        /\ paths_agree
             (fun grp => AddPropertySlice dir [prop] range grp add_fn) w).
Proof.
  assert (Hfull : forall pre0 rest0 w_mid0,
    AddProperties_loop uri cache pre0 None add_fn w
    = Some ((Continue, None), w_mid0) ->
    (forall prop d,
       prop ∈ pre0 -> descriptors w !! prop = Some d -> misses cache d w) ->
    stops_alike cache pre0 rest0 w w_mid0 ->
    group_follows
      (fun grp => AddProperties uri cache (pre0 ++ rest0) grp add_fn) w).
  { intros pre0 rest0 w_mid0 Hpre Hmisses Hstop.
    destruct Hstop as [Hstop | [Hstop | [Hstop | Hhit]]].
    4: { destruct Hhit as (-> & stop & rest' & d & props & -> & Hd & Ha
                           & -> & Hget).
         by eapply first_hit_group_follows. }
    all: intros r ws; rewrite !AddProperties_eq; unfold AddProperties_loop;
      intros Hs;
      destruct (for_each (AddProperties_body uri cache add_fn)
                  (pre0 ++ rest0) None w) as [[cg ws0]|] eqn:Hsync;
      [|done];
      injection Hs as Hr <-;
      destruct (sync_and_group_end_alike cache
                  (AddProperties_body uri cache add_fn)
                  (fun d => load_task d (Join uri (path d)))
                  (fun d => Join uri (path d))
                  (fun prop => on_complete add_fn prop cache)
                  (AddProperties_body_sync_Continue uri cache add_fn)
                  (fun g prop d w0 =>
                     AddProperties_body_not_absent uri cache add_fn g prop
                       d w0)
                  (fun prop d w0 Hd Ha Hm =>
                     AddProperties_body_miss uri cache add_fn None prop d w0
                       Hd Ha Hm)
                  (fun prop d w0 g Hd Ha Hm =>
                     AddProperties_body_miss uri cache add_fn (Some g) prop
                       d w0 Hd Ha Hm)
                  (fun g prop w0 cg0 w2 =>
                     AddProperties_body_evolves uri cache add_fn g prop w0
                       cg0 w2)
                  (fun prop t wx w0 wa =>
                     on_complete_key_equiv add_fn prop cache t wx w0 wa)
                  (fun prop t wx w0 r0 wa =>
                     on_complete_key_equiv_any add_fn prop cache t wx w0 r0
                       wa)
                  pre0 rest0 w w_mid0 Hpre Hmisses
                  ltac:(tauto) cg ws0 Hsync)
        as (cg' & g & w1 & outcomes & wg & Hgrp & Hfin & Hsame);
      exists outcomes, wg; unfold ReadGroup in *; rewrite Hgrp;
      split; [by destruct cg'|exact Hsame]. }
  assert (Hslice : forall pre0 rest0 w_mid0,
    AddPropertySlice_loop dir pre0 range None add_fn w
    = Some ((Continue, None), w_mid0) ->
    stops_alike false pre0 rest0 w w_mid0 ->
    group_follows
      (fun grp => AddPropertySlice dir (pre0 ++ rest0) range grp add_fn) w).
  { intros pre0 rest0 w_mid0 Hpre Hstop.
    destruct Hstop as [Hstop | [Hstop | [Hstop | Hhit]]].
    4: { by destruct Hhit as (_ & stop & rest' & d & props & _ & _ & _
                              & ? & _). }
    all: intros r ws; rewrite !AddPropertySlice_eq;
      unfold AddPropertySlice_loop in *; simpl in *;
      intros Hs;
      destruct (for_each
                  (AddPropertySlice_body dir range.1
                     ((range.2 - range.1) mod two64)%Z add_fn)
                  (pre0 ++ rest0) None w) as [[cg ws0]|] eqn:Hsync;
      [|done];
      injection Hs as Hr <-;
      destruct (sync_and_group_end_alike false
                  (AddPropertySlice_body dir range.1
                     ((range.2 - range.1) mod two64)%Z add_fn)
                  (fun d => slice_task d (Join dir (path d)) range.1
                              ((range.2 - range.1) mod two64)%Z)
                  (fun d => Join dir (path d))
                  (fun prop => slice_on_complete add_fn prop)
                  (AddPropertySlice_body_sync_Continue dir _ _ add_fn)
                  (fun g prop d w0 =>
                     AddPropertySlice_body_not_absent dir _ _ add_fn g prop
                       d w0)
                  (fun prop d w0 Hd Ha _ =>
                     AddPropertySlice_body_absent dir _ _ add_fn None prop d
                       w0 Hd Ha)
                  (fun prop d w0 g Hd Ha _ =>
                     AddPropertySlice_body_absent dir _ _ add_fn (Some g)
                       prop d w0 Hd Ha)
                  (fun g prop w0 cg0 w2 =>
                     AddPropertySlice_body_evolves dir _ _ add_fn g prop w0
                       cg0 w2)
                  (fun prop t wx w0 wa Hk H =>
                     eq_ind_r
                       (fun wx0 =>
                          slice_on_complete add_fn prop t wx0
                          = Some (Ok tt, wa))
                       H (key_equiv_false _ _ Hk))
                  (fun prop t wx w0 r0 wa Hk H =>
                     ex_intro _ wa
                       (conj
                          (eq_ind_r
                             (fun wx0 =>
                                slice_on_complete add_fn prop t wx0
                                = Some (r0, wa))
                             H (key_equiv_false _ _ Hk))
                          (key_equiv_refl false wa)))
                  pre0 rest0 w w_mid0 Hpre
                  (fun prop d _ _ (H : false = true) =>
                     False_ind _ (eq_ind false
                        (fun b => if b then False else True) I true H))
                  ltac:(tauto) cg ws0 Hsync)
        as (cg' & g & w1 & outcomes & wg & Hgrp & Hfin & Hsame);
      exists outcomes, wg; unfold ReadGroup in *; rewrite Hgrp;
      split; [by destruct cg'|exact Hsame]. }
  split; [|split].
  - intros Hpre Hmisses Hstop.
    pose proof (Hfull pre rest w_mid Hpre Hmisses Hstop) as H.
    split; [exact H|]. by apply group_follows_paths_agree.
  - intros Hpre Hstop.
    pose proof (Hslice pre rest w_mid Hpre Hstop) as H.
    split; [exact H|]. by apply group_follows_paths_agree.
  - intros prop.
    assert (Hone : group_follows
              (fun grp => AddProperties uri cache [prop] grp add_fn) w).
    { destruct (descriptors w !! prop) as [d|] eqn:Hd.
      2: { intros r ws. rewrite AddProperties_eq.
           unfold AddProperties_loop. simpl.
           unfold bind, AddProperties_body, bind, deref. by rewrite Hd. }
      apply (Hfull [] [prop] w eq_refl).
      { intros q dq Hq. by apply elem_of_nil in Hq. }
      destruct (IsAbsent d) eqn:Ha.
      2: { right. left. by exists prop, [], d. }
      destruct cache.
      - destruct (Get (set_name (name d) (cache_key w)) (the_cache w))
          as [props|] eqn:Hget.
        + right. right. right. split; [done|].
          by exists prop, [], d, props.
        + right. right. left. exists prop, d.
          split; [done|]. split; [done|]. split; [done|].
          split; intros _; exact Hget.
      - right. right. left. exists prop, d.
        split; [done|]. split; [done|]. split; [done|].
        split; by intros ?. }
    assert (Hones : group_follows
              (fun grp => AddPropertySlice dir [prop] range grp add_fn) w).
    { destruct (descriptors w !! prop) as [d|] eqn:Hd.
      2: { intros r ws. rewrite AddPropertySlice_eq.
           unfold AddPropertySlice_loop. simpl.
           unfold bind, AddPropertySlice_body, bind, deref.
           by rewrite Hd. }
      apply (Hslice [] [prop] w eq_refl).
      destruct (IsAbsent d) eqn:Ha.
      2: { right. left. by exists prop, [], d. }
      right. right. left. exists prop, d.
      split; [done|]. split; [done|]. split; [done|].
      split; by intros ?. }
    split; [exact Hone|].
    split; [by apply group_follows_paths_agree|].
    split; [exact Hones|]. by apply group_follows_paths_agree.
Qed.

(** * Further properties of the loaders *)

Lemma check_schema_single expected_name out f :
  schema out = [f] -> field_name f = expected_name ->
  check_schema expected_name out = Ok out.
Proof.
  intros Hf Hn. unfold check_schema. rewrite Hf.
  by rewrite bool_decide_eq_true_2.
Qed.

Lemma DoLoadProperties_Ok_iff expected_name file_path slice t :
  DoLoadProperties expected_name file_path slice = Returns (Ok t)
  <-> reads slice file_path t
      /\ exists f, schema t = [f] /\ field_name f = expected_name.
Proof.
  split; [apply DoLoadProperties_Ok|].
  intros (Hr & f & Hf & Hn).
  rewrite (DoLoadProperties_reads _ _ _ _ Hr).
  by rewrite (check_schema_single _ _ _ Hf Hn).
Qed.

(** Property X1.  A load succeeds with the table [t] exactly when the
    reader returns [t] for the file (and the slice, if any) and [t] has a
    single field, named like the property: a loader never returns a table
    other than the one read, nor one of another shape. *)
Theorem load_succeeds_iff_single_expected_field
    (expected_name : string) (file_path : Uri) (t : Table) :
  (LoadProperties expected_name file_path = Ok t
   <-> reads None file_path t
       /\ exists f, schema t = [f] /\ field_name f = expected_name)
  /\ (forall offset length,
        LoadPropertySlice expected_name file_path offset length = Ok t
        <-> reads (Some {| offset := offset; length := length |})
              file_path t
            /\ exists f, schema t = [f] /\ field_name f = expected_name).
Proof.
  split.
  - rewrite <- DoLoadProperties_Ok_iff. unfold LoadProperties.
    destruct (DoLoadProperties expected_name file_path None)
      as [[t'|e]|what]; split; intros H; by inversion H.
  - intros offset length.
    rewrite <- DoLoadProperties_Ok_iff. unfold LoadPropertySlice.
    destruct (DoLoadProperties expected_name file_path _)
      as [[t'|e]|what]; split; intros H; by inversion H.
Qed.

Lemma DoLoadProperties_reader_fails expected_name file_path slice e :
  reader_fails slice file_path e ->
  DoLoadProperties expected_name file_path slice
  = Returns (Err (WithContext "loading property" e)).
Proof.
  unfold DoLoadProperties.
  intros [Hm | (reader & Hm & Hr)]; rewrite Hm; [done|].
  by rewrite Hr.
Qed.

(** Property X2.  An error the reader reports, when it is made or when it
    reads the file, reaches the caller of the loaders with its code and
    message intact and the context "loading property" added; the
    background tasks of both orchestrators add the context
    "error loading" with the file on top of it. *)
Theorem reader_error_passes_with_context
    (dir : Uri) d (begin size : Z) (e : ErrorInfo) :
  let file := Join dir (path d) in
  (reader_fails None file e ->
   LoadProperties (name d) file = Err (WithContext "loading property" e)
   /\ load_task d file
      = Err {| error_code := error_code e; message := message e;
               context := ("error loading " +:+ file)
                          :: "loading property" :: context e |})
  /\ (reader_fails
        (Some {| offset := to_int64 begin; length := to_int64 size |})
        file e ->
      LoadPropertySlice (name d) file (to_int64 begin) (to_int64 size)
      = Err (WithContext "loading property" e)
      /\ slice_task d file begin size
         = Err {| error_code := error_code e; message := message e;
                  context := ("error loading " +:+ file)
                             :: "loading property" :: context e |}).
Proof.
  intros file. split; intros H.
  - unfold load_task, LoadProperties.
    by rewrite (DoLoadProperties_reader_fails _ _ _ _ H).
  - unfold slice_task, LoadPropertySlice.
    by rewrite (DoLoadProperties_reader_fails _ _ _ _ H).
Qed.

Lemma check_schema_Err expected_name out e :
  check_schema expected_name out = Err e ->
  schema_mismatch expected_name out
  /\ error_code e = InvalidArgument /\ context e = [].
Proof.
  unfold check_schema, schema_mismatch, num_fields.
  destruct (schema out) as [|f [|f' fs]] eqn:Hs.
  - intros [= <-]. split; [left; done | done].
  - case_bool_decide as Hn; [done|]. intros [= <-].
    split; [right; eauto | done].
  - intros [= <-]. split; [left; done | done].
Qed.

Lemma DoLoadProperties_Err expected_name file_path slice e :
  DoLoadProperties expected_name file_path slice = Returns (Err e) ->
  (exists e0, reader_fails slice file_path e0
              /\ e = WithContext "loading property" e0)
  \/ (exists out, reads slice file_path out
                  /\ schema_mismatch expected_name out
                  /\ error_code e = InvalidArgument /\ context e = []).
Proof.
  unfold DoLoadProperties, reader_fails, reads.
  destruct (Make (with_slice Defaults slice)) as [[reader|e1]|what] eqn:Hm;
    [| intros [= <-]; left; eauto | done].
  destruct (ReadTable reader file_path) as [[out|e1]|what] eqn:Hr;
    [| intros [= <-]; left; eauto 6 | done].
  intros [= Hc]. apply check_schema_Err in Hc. right. eauto 6.
Qed.

Lemma DoLoadProperties_Throw expected_name file_path slice what :
  DoLoadProperties expected_name file_path slice = Throw what ->
  library_throws slice file_path what.
Proof.
  unfold DoLoadProperties, library_throws.
  destruct (Make (with_slice Defaults slice)) as [[reader|e1]|what'] eqn:Hm;
    [| done | intros [= <-]; by left].
  destruct (ReadTable reader file_path) as [[out|e1]|what'] eqn:Hr;
    [done | done | intros [= <-]; right; eauto].
Qed.

(** Property X3.  A load fails in one of three ways only: the columnar
    library threw, and the error is [ArrowError] with the text of the
    exception; the reader reported an error, which is passed on with the
    context "loading property"; or the table read has not the single
    expected field, and the error is [InvalidArgument] without context. *)
Theorem load_failures_classified
    (expected_name : string) (file_path : Uri) (slice : option Slice)
    (e : ErrorInfo) :
  match slice with
  | None => LoadProperties expected_name file_path
  | Some s => LoadPropertySlice expected_name file_path (offset s) (length s)
  end = Err e ->
  (exists what,
     library_throws slice file_path what
     /\ e = KATANA_ERROR ArrowError ("arrow exception: " +:+ what))
  \/ (exists e0,
        reader_fails slice file_path e0
        /\ e = WithContext "loading property" e0)
  \/ (exists out,
        reads slice file_path out
        /\ schema_mismatch expected_name out
        /\ error_code e = InvalidArgument /\ context e = []).
Proof.
  assert (H : match DoLoadProperties expected_name file_path slice with
              | Returns r => r
              | Throw what =>
                  Err (KATANA_ERROR ArrowError ("arrow exception: " +:+ what))
              end = Err e ->
              (exists what,
                 library_throws slice file_path what
                 /\ e = KATANA_ERROR ArrowError ("arrow exception: " +:+ what))
              \/ (exists e0,
                    reader_fails slice file_path e0
                    /\ e = WithContext "loading property" e0)
              \/ (exists out,
                    reads slice file_path out
                    /\ schema_mismatch expected_name out
                    /\ error_code e = InvalidArgument /\ context e = [])).
  { destruct (DoLoadProperties expected_name file_path slice)
      as [[t|e1]|what] eqn:Hdo; [done| |].
    - intros [= <-]. right. by apply DoLoadProperties_Err in Hdo.
    - intros [= <-]. left. exists what.
      split; [by apply DoLoadProperties_Throw in Hdo | done]. }
  destruct slice as [[o l]|]; exact H.
Qed.

(** * Further properties of the orchestrators *)

(** Property X4.  When the loop of [AddProperties] reaches an absent
    descriptor whose identity is in the cache and the merge function
    rejects the cached column, the call returns the merge error with the
    context "adding" and the quoted property name.  The descriptor is
    still absent, the cache and the spans are as they were, the key
    carries the probed name, and the rest of the batch is not reached. *)
Theorem cache_hit_with_failing_merge
    (uri : Uri) add_fn grp (pre post : list nat) (prop : nat) d props
    (m : MergeTarget) (e : ErrorInfo) g1 w w1 :
  AddProperties_loop uri true pre grp add_fn w = Some ((Continue, g1), w1) ->
  descriptors w1 !! prop = Some d ->
  state d = kAbsent ->
  Get {| node_edge := node_edge (cache_key w1); key_name := name d |}
    (the_cache w1) = Some props ->
  add_fn props (merged w1) = (m, Err e) ->
  exists w',
    AddProperties uri true (pre ++ prop :: post) grp add_fn w
    = Some ((Err (WithContext ("adding " +:+ quoted (name d)) e), g1), w')
    /\ descriptors w' = descriptors w1
    /\ the_cache w' = the_cache w1
    /\ spans w' = spans w1
    /\ merged w' = m
    /\ cache_key w'
       = {| node_edge := node_edge (cache_key w1); key_name := name d |}.
Proof.
  intros Hpre Hd Hs Hget Hadd.
  exists (set_merged m (probed true (name d) w1)).
  split; [|done].
  rewrite AddProperties_eq. unfold AddProperties_loop in *.
  rewrite for_each_app, Hpre. simpl. unfold bind.
  by rewrite (AddProperties_body_hit _ _ _ _ _ _ _ Hd (absent_IsAbsent d Hs)
                Hget), Hadd.
Qed.

(** Property X5.  A completion routine, of [AddProperties] or of
    [AddPropertySlice], fails exactly when the merge function does.  Its
    error is then the merge error with the context "adding" and the
    quoted property name, and the store differs from the one it found by
    what the merge function did to the merged data only: no descriptor is
    marked, the cache is not populated, the key is not written and no
    span is emitted. *)
Theorem completion_fails_iff_merge_fails
    add_fn (cache : bool) (prop : nat) d props (e' : ErrorInfo) w w' :
  descriptors w !! prop = Some d ->
  (on_complete add_fn prop cache props w = Some (Err e', w')
   <-> exists m e,
         add_fn props (merged w) = (m, Err e)
         /\ e' = WithContext ("adding " +:+ quoted (name d)) e
         /\ w' = set_merged m w)
  /\ (slice_on_complete add_fn prop props w = Some (Err e', w')
      <-> exists m e,
            add_fn props (merged w) = (m, Err e)
            /\ e' = WithContext ("adding " +:+ quoted (name d)) e
            /\ w' = set_merged m w).
Proof.
  intros Hd. rewrite on_complete_eq, slice_on_complete_eq, Hd.
  destruct (add_fn props (merged w)) as [m [[]|e]].
  - split; (split; [|by intros (m' & e0 & [= ] & _)]).
    + destruct (schema props); [done|]. by destruct (IsAbsent d).
    + destruct (schema props); [done|]. by destruct (IsAbsent d).
  - split; (split; [intros [= <- <-]; eauto
                   | intros (m' & e0 & [= <- <-] & -> & ->); done]).
Qed.

Lemma AddPropertySlice_body_group_same dir begin size add_fn (g : ReadGroup)
    prop w cg w' :
  AddPropertySlice_body dir begin size add_fn (Some g) prop w
  = Some (cg, w') ->
  w' = w.
Proof.
  destruct (descriptors w !! prop) as [d|] eqn:Hd.
  2: { unfold AddPropertySlice_body, bind, deref. by rewrite Hd. }
  destruct (IsAbsent d) eqn:Ha.
  - rewrite (AddPropertySlice_body_absent _ _ _ _ _ _ _ _ Hd Ha).
    by intros [= <- <-].
  - rewrite (AddPropertySlice_body_not_absent _ _ _ _ _ _ _ _ Hd Ha).
    by intros [= <- <-].
Qed.

Lemma AddProperties_body_group_same uri add_fn (g : ReadGroup) prop w cg
    w' :
  AddProperties_body uri false add_fn (Some g) prop w = Some (cg, w') ->
  w' = w.
Proof.
  destruct (descriptors w !! prop) as [d|] eqn:Hd.
  2: { unfold AddProperties_body, bind, deref. by rewrite Hd. }
  destruct (IsAbsent d) eqn:Ha.
  - rewrite (AddProperties_body_miss _ false _ _ _ _ _ Hd Ha) by done.
    by intros [= <- <-].
  - rewrite (AddProperties_body_not_absent _ _ _ _ _ _ _ Hd Ha).
    by intros [= <- <-].
Qed.

Lemma AddProperties_body_group_cache uri add_fn (g : ReadGroup) prop w cg
    w' :
  AddProperties_body uri true add_fn (Some g) prop w = Some (cg, w') ->
  the_cache w' = the_cache w.
Proof.
  destruct (descriptors w !! prop) as [d|] eqn:Hd.
  2: { unfold AddProperties_body, bind, deref. by rewrite Hd. }
  destruct (IsAbsent d) eqn:Ha.
  2: { rewrite (AddProperties_body_not_absent _ _ _ _ _ _ _ Hd Ha).
       by intros [= <- <-]. }
  destruct (Get (set_name (name d) (cache_key w)) (the_cache w))
    as [props|] eqn:Hget.
  - rewrite (AddProperties_body_hit _ _ _ _ _ _ _ Hd Ha Hget).
    destruct (add_fn props (merged w)) as [m [[]|e]].
    + destruct (schema props); [done|]. by intros [= <- <-].
    + by intros [= <- <-].
  - rewrite (AddProperties_body_miss _ _ _ _ _ _ _ Hd Ha (fun _ => Hget)).
    by intros [= <- <-].
Qed.

(** The group is a group after every iteration that started with one. *)
Lemma for_each_group_preserves (R : World -> World -> Prop) body
    properties (g : ReadGroup) w cg w' :
  (forall w0, R w0 w0) ->
  (forall w1 w2 w3, R w1 w2 -> R w2 w3 -> R w1 w3) ->
  (forall (g0 : ReadGroup) p w1 c g1 w2,
     body (Some g0) p w1 = Some ((c, g1), w2) ->
     R w1 w2 /\ exists g2 : ReadGroup, g1 = Some g2) ->
  for_each body properties (Some g) w = Some (cg, w') -> R w w'.
Proof.
  intros Hrefl Htrans Hbody. revert g w.
  induction properties as [|p rest IH]; intros g w; simpl.
  - intros [= <- <-]. apply Hrefl.
  - unfold bind.
    destruct (body (Some g) p w) as [[[c g1] w1]|] eqn:Hb; [|done].
    apply Hbody in Hb as (HR & g2 & ->). destruct c as [|r].
    + intros Hrest. apply IH in Hrest. eauto.
    + intros [= <- <-]. done.
Qed.

Lemma AddPropertySlice_body_group dir begin size add_fn (g : ReadGroup)
    prop w c g_out w' :
  AddPropertySlice_body dir begin size add_fn (Some g) prop w
  = Some ((c, g_out), w') ->
  exists g2 : ReadGroup, g_out = Some g2.
Proof.
  destruct (descriptors w !! prop) as [d|] eqn:Hd.
  2: { unfold AddPropertySlice_body, bind, deref. by rewrite Hd. }
  destruct (IsAbsent d) eqn:Ha.
  - rewrite (AddPropertySlice_body_absent _ _ _ _ _ _ _ _ Hd Ha).
    intros [= <- <- <-]. eauto.
  - rewrite (AddPropertySlice_body_not_absent _ _ _ _ _ _ _ _ Hd Ha).
    intros [= <- <- <-]. eauto.
Qed.

(** Property X6.  A call that is given a read group defers the work: it
    loads into the store nothing, merges nothing and marks nothing.
    [AddPropertySlice] with a group, and [AddProperties] with a group and
    without a cache, return with the store exactly as they found it,
    whatever the batch and the outcome; [AddProperties] with a group and
    a cache never changes the contents of the cache. *)
Theorem grouped_call_defers_the_work
    (uri dir : Uri) (range : Z * Z) add_fn (properties : list nat)
    (g : ReadGroup) res w w' :
  (AddPropertySlice dir properties range (Some g) add_fn w
   = Some (res, w') -> w' = w)
  /\ (AddProperties uri false properties (Some g) add_fn w
      = Some (res, w') -> w' = w)
  /\ (AddProperties uri true properties (Some g) add_fn w
      = Some (res, w') -> the_cache w' = the_cache w).
Proof.
  split; [|split].
  - rewrite AddPropertySlice_eq. unfold AddPropertySlice_loop. simpl.
    destruct (for_each _ properties (Some g) w) as [[cg w1]|] eqn:Hloop;
      [|done].
    intros [= _ <-].
    eapply (for_each_group_preserves (fun w1 w2 => w2 = w1)) in Hloop;
      [done | done | by intros w2 w3 w4 -> -> |].
    intros g0 p w2 c g1 w3 Hb. split.
    + by apply AddPropertySlice_body_group_same in Hb.
    + by apply AddPropertySlice_body_group in Hb.
  - rewrite AddProperties_eq. unfold AddProperties_loop.
    destruct (for_each _ properties (Some g) w) as [[cg w1]|] eqn:Hloop;
      [|done].
    intros [= _ <-].
    eapply (for_each_group_preserves (fun w1 w2 => w2 = w1)) in Hloop;
      [done | done | by intros w2 w3 w4 -> -> |].
    intros g0 p w2 c g1 w3 Hb. split.
    + by apply AddProperties_body_group_same in Hb.
    + apply AddProperties_body_group in Hb as [->|(f0 & l0 & ->)]; eauto.
  - rewrite AddProperties_eq. unfold AddProperties_loop.
    destruct (for_each _ properties (Some g) w) as [[cg w1]|] eqn:Hloop;
      [|done].
    intros [= _ <-].
    eapply (for_each_group_preserves
              (fun w1 w2 => the_cache w2 = the_cache w1)) in Hloop;
      [done | done | intros w2 w3 w4 H1 H2; congruence |].
    intros g0 p w2 c g1 w3 Hb. split.
    + by apply AddProperties_body_group_cache in Hb.
    + apply AddProperties_body_group in Hb as [->|(f0 & l0 & ->)]; eauto.
Qed.

Lemma misses_probed cache d n w :
  misses cache d (probed cache n w) <-> misses cache d w.
Proof. destruct cache; reflexivity. Qed.

Lemma descriptors_probed cache n w :
  descriptors (probed cache n w) = descriptors w.
Proof. by destruct cache. Qed.

(** Property X7.  Given a group, a batch of absent descriptors that miss
    the cache is registered whole: the call succeeds, and the group gains
    one pending operation per descriptor, in the order of the batch,
    labelled with the descriptor's file and carrying the result of its
    load and its completion routine.  A descriptor listed twice is
    registered twice.  The store is the one the probes leave for
    [AddProperties], and is untouched for [AddPropertySlice]. *)
Theorem grouped_call_registers_every_descriptor
    (uri dir : Uri) (range : Z * Z) (cache : bool) add_fn
    (properties : list nat) (ds : list PropStorageInfo) (g : ReadGroup) w :
  Forall2 (fun prop d => descriptors w !! prop = Some d
                         /\ state d = kAbsent) properties ds ->
  (Forall (fun d => misses cache d w) ds ->
   AddProperties uri cache properties (Some g) add_fn w
   = Some ((ResultSuccess,
            Some (g ++ zip_with (pending_load uri cache add_fn)
                          properties ds)),
           probed_all cache ds w))
  /\ AddPropertySlice dir properties range (Some g) add_fn w
     = Some ((ResultSuccess,
              Some (g ++ zip_with
                           (pending_slice dir range.1
                              ((range.2 - range.1) mod two64)%Z add_fn)
                           properties ds)),
             w).
Proof.
  intros Hall. split.
  - intros Hmiss. rewrite AddProperties_eq. unfold AddProperties_loop.
    cut (for_each (AddProperties_body uri cache add_fn) properties (Some g) w
         = Some ((Continue,
                  Some (g ++ zip_with (pending_load uri cache add_fn)
                                properties ds)),
                 probed_all cache ds w)).
    { by intros ->. }
    revert ds g w Hall Hmiss.
    induction properties as [|p rest IH]; intros ds g w Hall Hmiss.
    + apply Forall2_nil_inv_l in Hall as ->. simpl. by rewrite app_nil_r.
    + apply Forall2_cons_inv_l in Hall as (d & ds' & [Hd Hs] & Hrest & ->).
      apply Forall_cons in Hmiss as [Hm Hmiss]. simpl. unfold bind.
      rewrite (AddProperties_body_miss _ _ _ _ _ _ _ Hd
                 (absent_IsAbsent d Hs) Hm).
      simpl. unfold AddReturnsOp.
      assert (Hih := IH ds' (g ++ [pending_load uri cache add_fn p d])
                       (probed cache (name d) w)).
      unfold pending_load, ReadGroup in *. rewrite Hih.
      * by rewrite <- app_assoc.
      * eapply Forall2_impl; [exact Hrest|].
        intros p0 d0 [H1 H2]. by rewrite descriptors_probed.
      * eapply Forall_impl; [exact Hmiss|].
        intros d0 H0. by apply misses_probed.
  - rewrite AddPropertySlice_eq. unfold AddPropertySlice_loop. simpl.
    cut (for_each (AddPropertySlice_body dir range.1
                     ((range.2 - range.1) mod two64)%Z add_fn)
           properties (Some g) w
         = Some ((Continue,
                  Some (g ++ zip_with
                               (pending_slice dir range.1
                                  ((range.2 - range.1) mod two64)%Z add_fn)
                               properties ds)), w)).
    { by intros ->. }
    revert g.
    induction Hall as [|p d rest ds' [Hd Hs] Hrest IH]; intros g.
    + simpl. by rewrite app_nil_r.
    + simpl. unfold bind.
      rewrite (AddPropertySlice_body_absent _ _ _ _ _ _ _ _ Hd
                 (absent_IsAbsent d Hs)).
      simpl. unfold AddReturnsOp.
      assert (Hih := IH (g ++ [pending_slice dir range.1
                                 ((range.2 - range.1) mod two64)%Z add_fn
                                 p d])).
      unfold pending_slice, ReadGroup in *. rewrite Hih.
      by rewrite <- app_assoc.
Qed.

(** Property X8.  No call reshapes the store.  After [AddProperties] or
    [AddPropertySlice], with or without a group and whatever the outcome,
    the descriptor list has its length, every descriptor has its name and
    its path, a descriptor found absent afterwards was absent before and
    is unchanged (no descriptor returns to absent), and the cache key has
    its owner kind. *)
Theorem calls_keep_the_shape_of_the_store
    (uri dir : Uri) (range : Z * Z) (cache : bool) add_fn
    (properties : list nat) grp res w w' :
  AddProperties uri cache properties grp add_fn w = Some (res, w')
  \/ AddPropertySlice dir properties range grp add_fn w = Some (res, w') ->
  List.length (descriptors w') = List.length (descriptors w)
  /\ (forall prop d',
        descriptors w' !! prop = Some d' ->
        exists d,
          descriptors w !! prop = Some d
          /\ name d' = name d /\ path d' = path d
          /\ (state d' = kAbsent -> d' = d))
  /\ node_edge (cache_key w') = node_edge (cache_key w).
Proof.
  intros Hcall.
  assert (Hev : evolves w w').
  { destruct Hcall as [H|H].
    - rewrite AddProperties_eq in H.
      destruct (AddProperties_loop uri cache properties grp add_fn w)
        as [[cg w1]|] eqn:Hloop; [|done].
      injection H as _ <-. by eapply AddProperties_loop_evolves.
    - rewrite AddPropertySlice_eq in H.
      destruct (AddPropertySlice_loop dir properties range grp add_fn w)
        as [[cg w1]|] eqn:Hloop; [|done].
      injection H as _ <-. by eapply AddPropertySlice_loop_evolves. }
  destruct Hev as (Hk & Hds).
  split; [symmetry; by eapply Forall2_length|].
  split; [|exact Hk].
  intros prop d' Hd'.
  destruct (Forall2_lookup_r _ _ _ _ _ Hds Hd') as (d & Hd & Hstep).
  exists d. split; [exact Hd|].
  destruct Hstep as [->|(Ha & Ha' & Hn & Hp)]; [done|].
  split; [exact Hn|]. split; [exact Hp|].
  intros Hs. unfold IsAbsent in Ha'. by rewrite Hs in Ha'.
Qed.

Section RunThrough.

(** A loop whose iterations, when they continue without a group, have
    found their descriptor absent and have left it with data in the state
    [target]. *)
Variable body : option ReadGroup -> nat -> Exec (Control * option ReadGroup).
Variable target : State.

Hypothesis target_has_data : target <> kAbsent.

Hypothesis body_Continue : forall prop w g w2,
  body None prop w = Some ((Continue, g), w2) ->
  g = None
  /\ exists d ty,
       descriptors w !! prop = Some d /\ state d = kAbsent
       /\ descriptors w2 !! prop = Some (with_data target ty d).

Hypothesis body_evolves : forall g prop w cg w',
  body g prop w = Some (cg, w') -> evolves w w'.

Lemma run_through_marks_all (properties : list nat) :
  forall w w',
    for_each body properties None w = Some ((Continue, None), w') ->
    NoDup properties
    /\ forall prop, prop ∈ properties ->
       exists d ty,
         descriptors w !! prop = Some d /\ state d = kAbsent
         /\ descriptors w' !! prop = Some (with_data target ty d).
Proof.
  induction properties as [|p rest IH]; intros w w' Hloop.
  - split; [constructor|]. intros prop Hin. by apply elem_of_nil in Hin.
  - simpl in Hloop. unfold bind in Hloop.
    destruct (body None p w) as [[[[|r] g] wa]|] eqn:Hb; [|done|done].
    destruct (body_Continue _ _ _ _ Hb) as (-> & d & ty & Hd & Hs & Hda).
    pose proof (body_evolves _ _ _ _ _ Hb) as Hev.
    assert (Hev' : evolves wa w').
    { eapply (for_each_evolves body); [|exact Hloop].
      intros g0 q w1 c w2. apply body_evolves. }
    destruct (IH wa w' Hloop) as (Hnd & Hrest).
    assert (Hna : IsAbsent (with_data target ty d) = false).
    { unfold IsAbsent. simpl. by destruct target. }
    split.
    + constructor; [|exact Hnd]. intros Hin.
      destruct (Hrest p Hin) as (d0 & ty0 & Hd0 & Hs0 & _).
      rewrite Hda in Hd0. injection Hd0 as <-. simpl in Hs0. done.
    + intros prop Hin. apply elem_of_cons in Hin as [->|Hin].
      * exists d, ty. split; [exact Hd|]. split; [exact Hs|].
        by eapply evolves_lookup_not_absent.
      * destruct (Hrest prop Hin) as (d0 & ty0 & Hd0 & Hs0 & Hd0').
        exists d0, ty0. split; [|done].
        eapply evolves_lookup_absent; [exact Hev | exact Hd0 |].
        by apply absent_IsAbsent.
Qed.

End RunThrough.

Lemma AddProperties_body_Continue_loaded uri cache add_fn prop w g w2 :
  AddProperties_body uri cache add_fn None prop w
  = Some ((Continue, g), w2) ->
  g = None
  /\ exists d ty,
       descriptors w !! prop = Some d /\ state d = kAbsent
       /\ descriptors w2 !! prop = Some (with_data kLoaded ty d).
Proof.
  intros Hb.
  apply AddProperties_body_sync_Continue in Hb
    as (d & t & -> & Hd & Ha & _ & _ & Hc).
  split; [done|].
  rewrite on_complete_eq in Hc.
  destruct (add_fn t (merged (probed cache (name d) w))) as [m [[]|e]].
  2: { rewrite descriptors_probed, Hd in Hc. done. }
  destruct (schema t) as [|f fs]; [done|].
  rewrite descriptors_probed, Hd, Ha in Hc. injection Hc as <-.
  exists d, (field_type f). split; [exact Hd|].
  split; [unfold IsAbsent in Ha; by destruct (state d)|].
  assert (Hlt : prop < List.length (descriptors w))
    by (eapply lookup_lt_Some; eauto).
  destruct cache; simpl; by rewrite list_lookup_insert_eq.
Qed.

Lemma AddPropertySlice_body_Continue_modified dir begin size add_fn prop w
    g w2 :
  AddPropertySlice_body dir begin size add_fn None prop w
  = Some ((Continue, g), w2) ->
  g = None
  /\ exists d ty,
       descriptors w !! prop = Some d /\ state d = kAbsent
       /\ descriptors w2 !! prop = Some (with_data kModified ty d).
Proof.
  intros Hb.
  apply AddPropertySlice_body_sync_Continue in Hb
    as (d & t & -> & Hd & Ha & _ & _ & Hc).
  split; [done|].
  rewrite slice_on_complete_eq in Hc. simpl in Hc.
  destruct (add_fn t (merged w)) as [m [[]|e]].
  2: { rewrite Hd in Hc. done. }
  destruct (schema t) as [|f fs]; [done|].
  rewrite Hd, Ha in Hc. injection Hc as <-.
  exists d, (field_type f). split; [exact Hd|].
  split; [unfold IsAbsent in Ha; by destruct (state d)|].
  simpl. apply list_lookup_insert_eq. eapply lookup_lt_Some; eauto.
Qed.

(** Property X9.  When the synchronous loop has run through a batch, the
    batch has no repeated descriptor; every descriptor of it was absent
    before the call and is, after it, the same descriptor with a data
    type and the state [kLoaded] (for [AddProperties]) or [kModified]
    (for [AddPropertySlice]).  Adding such a descriptor again, by either
    function, with or without a group, fails with [Exists] and changes
    nothing. *)
Theorem run_through_marks_each_descriptor_once
    (uri dir : Uri) (range : Z * Z) (cache : bool) add_fn
    (properties : list nat) w w' :
  let readd (d : PropStorageInfo) (prop : nat) :=
    forall uri' range' cache' grp' rest add_fn',
      AddProperties uri' cache' (prop :: rest) grp' add_fn' w'
      = Some ((Err (must_be_absent d), grp'), w')
      /\ AddPropertySlice uri' (prop :: rest) range' grp' add_fn' w'
         = Some ((Err (must_be_absent d), grp'), w') in
  (AddProperties_loop uri cache properties None add_fn w
   = Some ((Continue, None), w') ->
   NoDup properties
   /\ forall prop, prop ∈ properties ->
      exists d ty,
        descriptors w !! prop = Some d /\ state d = kAbsent
        /\ descriptors w' !! prop = Some (with_data kLoaded ty d)
        /\ readd d prop)
  /\ (AddPropertySlice_loop dir properties range None add_fn w
      = Some ((Continue, None), w') ->
      NoDup properties
      /\ forall prop, prop ∈ properties ->
         exists d ty,
           descriptors w !! prop = Some d /\ state d = kAbsent
           /\ descriptors w' !! prop = Some (with_data kModified ty d)
           /\ readd d prop).
Proof.
  intros readd.
  assert (Hreadd : forall s ty d prop,
            s <> kAbsent ->
            descriptors w' !! prop = Some (with_data s ty d) ->
            readd d prop).
  { intros s ty d prop Hs Hd uri' range' cache' grp' rest add_fn'.
    assert (Ha : IsAbsent (with_data s ty d) = false)
      by (unfold IsAbsent; simpl; by destruct s).
    split.
    - rewrite AddProperties_eq. unfold AddProperties_loop. simpl.
      unfold bind.
      by rewrite (AddProperties_body_not_absent _ _ _ _ _ _ _ Hd Ha).
    - rewrite AddPropertySlice_eq. unfold AddPropertySlice_loop. simpl.
      unfold bind.
      by rewrite (AddPropertySlice_body_not_absent _ _ _ _ _ _ _ _ Hd Ha). }
  split; intros Hloop.
  - destruct (run_through_marks_all (AddProperties_body uri cache add_fn)
                kLoaded) with (properties := properties) (w := w) (w' := w')
      as (Hnd & Hall); [done | | | exact Hloop |].
    + intros prop w0 g w2. apply AddProperties_body_Continue_loaded.
    + intros g prop w0 cg w2. apply AddProperties_body_evolves.
    + split; [exact Hnd|]. intros prop Hin.
      destruct (Hall prop Hin) as (d & ty & Hd & Hs & Hd').
      exists d, ty. repeat (split; [done|]).
      by apply (Hreadd kLoaded ty d prop).
  - unfold AddPropertySlice_loop in Hloop. simpl in Hloop.
    destruct (run_through_marks_all
                (AddPropertySlice_body dir range.1
                   ((range.2 - range.1) mod two64)%Z add_fn)
                kModified) with (properties := properties) (w := w)
                                (w' := w')
      as (Hnd & Hall); [done | | | exact Hloop |].
    + intros prop w0 g w2. apply AddPropertySlice_body_Continue_modified.
    + intros g prop w0 cg w2. apply AddPropertySlice_body_evolves.
    + split; [exact Hnd|]. intros prop Hin.
      destruct (Hall prop Hin) as (d & ty & Hd & Hs & Hd').
      exists d, ty. repeat (split; [done|]).
      by apply (Hreadd kModified ty d prop).
Qed.


Lemma to_int64_small x : (0 <= x < 2 ^ 63)%Z -> to_int64 x = x.
Proof.
  intros Hx. unfold to_int64, two64.
  rewrite (Z.mod_small x) by lia.
  destruct (x <? 2 ^ 63)%Z eqn:Hlt; [done|].
  apply Z.ltb_ge in Hlt. lia.
Qed.

Lemma to_int64_large x :
  (2 ^ 63 <= x < two64)%Z -> to_int64 x = (x - two64)%Z.
Proof.
  unfold two64. intros Hx. unfold to_int64, two64.
  rewrite (Z.mod_small x) by lia.
  destruct (x <? 2 ^ 63)%Z eqn:Hlt; [|done].
  apply Z.ltb_lt in Hlt. lia.
Qed.

(** Property X11.  What the loader receives from [AddPropertySlice] as
    signed 64-bit values.  For a range with
    [range.first <= range.second < 2^63] it receives the offset
    [range.first] and the length [range.second - range.first] as they
    are.  For a reversed range, with [range.second < range.first] and a
    difference of at most 2^63, it receives the negative length
    [range.second - range.first]; and a first bound of 2^63 or more
    arrives as the negative offset [range.first - 2^64]. *)
Theorem slice_arguments_as_signed (dir : Uri) d (first second : Z) :
  is_uint64 first ->
  is_uint64 second ->
  let file := Join dir (path d) in
  let size := ((second - first) mod two64)%Z in
  ((first <= second)%Z -> (second < 2 ^ 63)%Z ->
   slice_task d file first size
   = checked_context ("error loading " +:+ file)
       (LoadPropertySlice (name d) file first (second - first)))
  /\ ((second < first)%Z -> (first - second <= 2 ^ 63)%Z ->
      to_int64 size = (second - first)%Z /\ (to_int64 size < 0)%Z)
  /\ ((2 ^ 63 <= first)%Z ->
      to_int64 first = (first - two64)%Z /\ (to_int64 first < 0)%Z).
Proof.
  intros Hfirst Hsecond file size. unfold is_uint64 in *.
  split; [|split].
  - intros Hle Hlt.
    assert (Hsize : size = (second - first)%Z).
    { unfold size. apply Z.mod_small. lia. }
    unfold slice_task.
    rewrite (to_int64_small first) by lia.
    rewrite Hsize, (to_int64_small (second - first)) by lia.
    reflexivity.
  - intros Hlt Hdiff.
    assert (Hsize : size = (second - first + two64)%Z).
    { unfold size.
      rewrite <- (Z_mod_plus_full (second - first) 1 two64), Z.mul_1_l.
      apply Z.mod_small. lia. }
    rewrite Hsize, to_int64_large; [lia|].
    unfold two64 in *. lia.
  - intros Hge. rewrite to_int64_large by lia. lia.
Qed.

Section RunThroughMerges.

Variable cache : bool.
Variable body : option ReadGroup -> nat -> Exec (Control * option ReadGroup).
Variable task : PropStorageInfo -> CopyableResult Table.
Variable callback : nat -> Table -> Exec (CopyableResult unit).
Variable merge : MergeFn.

Hypothesis body_sync_Continue : forall prop w g w2,
  body None prop w = Some ((Continue, g), w2) ->
  exists d t,
    g = None /\ descriptors w !! prop = Some d /\ IsAbsent d = true
    /\ misses cache d w /\ task d = Ok t
    /\ callback prop t (probed cache (name d) w) = Some (Ok tt, w2).

Hypothesis body_evolves : forall g prop w cg w',
  body g prop w = Some (cg, w') -> evolves w w'.

Hypothesis callback_merges : forall prop t w0 w2,
  callback prop t w0 = Some (Ok tt, w2) ->
  merge t (merged w0) = (merged w2, Ok tt).

Lemma run_through_merges (properties : list nat) :
  forall w w',
    for_each body properties None w = Some ((Continue, None), w') ->
    exists ts,
      Forall2 (fun prop t => exists d,
                 descriptors w !! prop = Some d /\ IsAbsent d = true
                 /\ task d = Ok t) properties ts
      /\ merge_all merge ts (merged w) = Some (merged w').
Proof.
  induction properties as [|p rest IH]; intros w w' Hloop.
  - injection Hloop as <-. exists []. split; [constructor | done].
  - simpl in Hloop. unfold bind in Hloop.
    destruct (body None p w) as [[[[|r] g] wa]|] eqn:Hb; [|done|done].
    pose proof (body_evolves _ _ _ _ _ Hb) as Hev.
    destruct (body_sync_Continue _ _ _ _ Hb)
      as (d & t & -> & Hd & Ha & _ & Ht & Hc).
    apply callback_merges in Hc.
    assert (Hm : merged (probed cache (name d) w) = merged w)
      by (by destruct cache).
    rewrite Hm in Hc.
    destruct (IH wa w' Hloop) as (ts & Hall & Hmerge).
    exists (t :: ts). split.
    + constructor; [by exists d|].
      eapply Forall2_impl; [exact Hall|].
      intros q tq (dq & Hdq & Haq & Htq). exists dq.
      split; [|done]. by eapply evolves_lookup_absent.
    + simpl. by rewrite Hc.
Qed.

End RunThroughMerges.

Lemma on_complete_merges add_fn prop cache t w0 w2 :
  on_complete add_fn prop cache t w0 = Some (Ok tt, w2) ->
  add_fn t (merged w0) = (merged w2, Ok tt).
Proof.
  rewrite on_complete_eq.
  destruct (add_fn t (merged w0)) as [m [[]|e]].
  - destruct (schema t); [done|].
    destruct (descriptors w0 !! prop) as [d|]; [|done].
    destruct (IsAbsent d); [|done]. intros [= <-]. by destruct cache.
  - by destruct (descriptors w0 !! prop).
Qed.

Lemma slice_on_complete_merges add_fn prop t w0 w2 :
  slice_on_complete add_fn prop t w0 = Some (Ok tt, w2) ->
  add_fn t (merged w0) = (merged w2, Ok tt).
Proof.
  rewrite slice_on_complete_eq.
  destruct (add_fn t (merged w0)) as [m [[]|e]].
  - destruct (schema t); [done|].
    destruct (descriptors w0 !! prop) as [d|]; [|done].
    destruct (IsAbsent d); [|done]. by intros [= <-].
  - by destruct (descriptors w0 !! prop).
Qed.

(** Property X12.  When the synchronous loop has run through a batch,
    the merge function has been called once per descriptor, in the order
    of the batch, on the column loaded for that descriptor, each call
    starting from the merged data the previous one left: the final merged
    data is the result of merging those columns one after the other. *)
Theorem run_through_merges_each_column_in_order
    (uri dir : Uri) (range : Z * Z) (cache : bool) add_fn
    (properties : list nat) w w' :
  (AddProperties_loop uri cache properties None add_fn w
   = Some ((Continue, None), w') ->
   exists ts,
     Forall2 (fun prop t => exists d,
                descriptors w !! prop = Some d /\ state d = kAbsent
                /\ load_task d (Join uri (path d)) = Ok t) properties ts
     /\ merge_all add_fn ts (merged w) = Some (merged w'))
  /\ (AddPropertySlice_loop dir properties range None add_fn w
      = Some ((Continue, None), w') ->
      exists ts,
        Forall2 (fun prop t => exists d,
                   descriptors w !! prop = Some d /\ state d = kAbsent
                   /\ slice_task d (Join dir (path d)) range.1
                        ((range.2 - range.1) mod two64)%Z = Ok t)
          properties ts
        /\ merge_all add_fn ts (merged w) = Some (merged w')).
Proof.
  assert (Habs : forall d, IsAbsent d = true -> state d = kAbsent).
  { intros d. unfold IsAbsent. by destruct (state d). }
  split; intros Hloop.
  - destruct (run_through_merges cache (AddProperties_body uri cache add_fn)
                (fun d => load_task d (Join uri (path d)))
                (fun prop => on_complete add_fn prop cache) add_fn)
      with (properties := properties) (w := w) (w' := w')
      as (ts & Hall & Hm); [| | | exact Hloop |].
    + intros prop w0 g w2. apply AddProperties_body_sync_Continue.
    + intros g prop w0 cg w2. apply AddProperties_body_evolves.
    + intros prop t w0 w2. apply on_complete_merges.
    + exists ts. split; [|exact Hm].
      eapply Forall2_impl; [exact Hall|].
      intros p t (d & Hd & Ha & Ht). exists d. auto.
  - unfold AddPropertySlice_loop in Hloop. simpl in Hloop.
    destruct (run_through_merges false
                (AddPropertySlice_body dir range.1
                   ((range.2 - range.1) mod two64)%Z add_fn)
                (fun d => slice_task d (Join dir (path d)) range.1
                            ((range.2 - range.1) mod two64)%Z)
                (fun prop => slice_on_complete add_fn prop) add_fn)
      with (properties := properties) (w := w) (w' := w')
      as (ts & Hall & Hm); [| | | exact Hloop |].
    + intros prop w0 g w2. apply AddPropertySlice_body_sync_Continue.
    + intros g prop w0 cg w2. apply AddPropertySlice_body_evolves.
    + intros prop t w0 w2. apply slice_on_complete_merges.
    + exists ts. split; [|exact Hm].
      eapply Forall2_impl; [exact Hall|].
      intros p t (d & Hd & Ha & Ht). exists d. auto.
Qed.

Lemma insert_all_snoc owner loaded d t (c : PropertyCache) :
  insert_all owner (loaded ++ [(d, t)]) c
  = Insert {| node_edge := owner; key_name := name d |} t
      (insert_all owner loaded c).
Proof. unfold insert_all. by rewrite foldl_app. Qed.

Lemma AddProperties_loop_fills_cache uri add_fn (properties : list nat) :
  forall w w',
    AddProperties_loop uri true properties None add_fn w
    = Some ((Continue, None), w') ->
    exists loaded,
      Forall2 (fun prop dt =>
                 descriptors w !! prop = Some dt.1 /\ IsAbsent dt.1 = true
                 /\ load_task dt.1 (Join uri (path dt.1)) = Ok dt.2)
        properties loaded
      /\ the_cache w'
         = insert_all (node_edge (cache_key w)) loaded (the_cache w).
Proof.
  unfold AddProperties_loop.
  induction properties as [|p rest IH]; intros w w' Hloop.
  - injection Hloop as <-. exists []. split; [constructor|done].
  - simpl in Hloop. unfold bind in Hloop.
    destruct (AddProperties_body uri true add_fn None p w)
      as [[[[|r] g] wa]|] eqn:Hb; [|done|done].
    pose proof (AddProperties_body_evolves _ _ _ _ _ _ _ _ Hb) as Hev.
    destruct (AddProperties_body_sync_Continue _ _ _ _ _ _ _ Hb)
      as (d & t & -> & Hd & Ha & Hmiss & Ht & Hc).
    assert (Hd1 : descriptors (probed true (name d) w) !! p = Some d)
      by exact Hd.
    destruct (on_complete_cache_key _ _ _ _ _ _ Hd1 Hc) as [_ Hcache].
    simpl in Hcache.
    change (set_name (name d) (set_name (name d) (cache_key w)))
      with {| node_edge := node_edge (cache_key w); key_name := name d |}
      in Hcache.
    destruct (IH wa w' Hloop) as (loaded & Hall & Hfinal).
    exists ((d, t) :: loaded). split.
    + constructor; [done|].
      eapply Forall2_impl; [exact Hall|].
      intros q dt (Hdq & Haq & Htq).
      split; [by eapply evolves_lookup_absent|done].
    + destruct Hev as (Hk & _). rewrite Hfinal, Hk, Hcache. reflexivity.
Qed.

(** Property X13.  When the synchronous loop of [AddProperties] has run
    through a batch with a cache, the cache has been given each column
    loaded for the batch, once, in the order of the batch, under the name
    of its descriptor and the owner kind of the key: the cache at the end
    is the result of these insertions into the cache of the start.  A
    probe then finds the column of the last descriptor; what it finds for
    the others depends on what the cache keeps. *)
Theorem run_through_inserts_each_column_in_order
    (uri : Uri) add_fn (properties : list nat) w w' :
  AddProperties_loop uri true properties None add_fn w
  = Some ((Continue, None), w') ->
  exists loaded,
    Forall2 (fun prop dt =>
               descriptors w !! prop = Some dt.1 /\ state dt.1 = kAbsent
               /\ load_task dt.1 (Join uri (path dt.1)) = Ok dt.2)
      properties loaded
    /\ the_cache w'
       = insert_all (node_edge (cache_key w)) loaded (the_cache w)
    /\ (forall d t,
          list.last loaded = Some (d, t) ->
          Get {| node_edge := node_edge (cache_key w); key_name := name d |}
            (the_cache w') = Some t).
Proof.
  intros Hloop.
  destruct (AddProperties_loop_fills_cache _ _ _ _ _ Hloop)
    as (loaded & Hall & Hfinal).
  exists loaded. split; [|split; [exact Hfinal|]].
  - eapply Forall2_impl; [exact Hall|].
    intros prop dt (Hd & Ha & Ht). split; [done|]. split; [|done].
    unfold IsAbsent in Ha. by destruct (state dt.1).
  - intros d t Hlast. apply last_Some in Hlast as [l' ->].
    rewrite Hfinal, insert_all_snoc. apply Get_Insert.
Qed.

Section Attribution.

Variable body : option ReadGroup -> nat -> Exec (Control * option ReadGroup).
Variable load : PropStorageInfo -> CopyableResult Table.

Hypothesis load_respects : forall d d',
  name d' = name d -> path d' = path d -> load d' = load d.

Hypothesis body_evolves : forall g prop w cg w',
  body g prop w = Some (cg, w') -> evolves w w'.

Hypothesis body_Return : forall g prop w e g' w',
  body g prop w = Some ((Return (Err e), g'), w') ->
  exists d, descriptors w !! prop = Some d /\ attributed load g d e.

Hypothesis body_mode : forall g prop w c g' w',
  body g prop w = Some ((c, g'), w') -> g' = None -> g = None.

Lemma attributed_respects g d d' e :
  name d' = name d -> path d' = path d ->
  attributed load g d' e -> attributed load g d e.
Proof.
  intros Hn Hp [->|[[Hg Hl]|(e0 & ->)]].
  - left. unfold must_be_absent. by rewrite Hn.
  - right. left. split; [done|]. by rewrite <- (load_respects d d').
  - right. right. exists e0. by rewrite Hn.
Qed.

Lemma loop_errors_attributed (properties : list nat) :
  forall grp w e g' w',
    for_each body properties grp w = Some ((Return (Err e), g'), w') ->
    exists prop d,
      prop ∈ properties /\ descriptors w !! prop = Some d
      /\ attributed load grp d e.
Proof.
  induction properties as [|p rest IH]; intros grp w e g' w' Hloop.
  - done.
  - simpl in Hloop. unfold bind in Hloop.
    destruct (body grp p w) as [[[[|r] g1] w1]|] eqn:Hb; [| |done].
    + destruct (IH _ _ _ _ _ Hloop) as (q & d1 & Hin & Hd1 & Hatt).
      pose proof (body_evolves _ _ _ _ _ Hb) as (_ & Hds).
      destruct (Forall2_lookup_r _ _ _ _ _ Hds Hd1) as (d & Hd & Hstep).
      exists q, d. split; [by apply elem_of_cons; right|].
      split; [exact Hd|].
      assert (Hnp : name d1 = name d /\ path d1 = path d).
      { destruct Hstep as [->|(_ & _ & Hn & Hp)]; done. }
      destruct Hnp as [Hn Hp].
      apply (attributed_respects _ _ d1); [done | done |].
      destruct Hatt as [->|[[Hg Hl]|(e0 & ->)]].
      * by left.
      * right. left. split; [|done].
        by eapply body_mode.
      * right. right. eauto.
    + injection Hloop as -> <- <-.
      destruct (body_Return _ _ _ _ _ _ Hb) as (d & Hd & Hatt).
      exists p, d. split; [by apply elem_of_cons; left | done].
Qed.

End Attribution.

Lemma AddProperties_body_mode uri cache add_fn g prop w c g' w' :
  AddProperties_body uri cache add_fn g prop w = Some ((c, g'), w') ->
  g' = None -> g = None.
Proof.
  destruct g as [g0|]; [|done].
  intros Hb. by apply AddProperties_body_group in Hb as [->|(f & l & ->)].
Qed.

Lemma AddPropertySlice_body_mode dir begin size add_fn g prop w c g' w' :
  AddPropertySlice_body dir begin size add_fn g prop w
  = Some ((c, g'), w') ->
  g' = None -> g = None.
Proof.
  destruct g as [g0|]; [|done].
  intros Hb. by apply AddPropertySlice_body_group in Hb as (g2 & ->).
Qed.

Lemma on_complete_Err_context add_fn prop cache t w e w' d :
  descriptors w !! prop = Some d ->
  on_complete add_fn prop cache t w = Some (Err e, w') ->
  exists e0, e = WithContext ("adding " +:+ quoted (name d)) e0.
Proof.
  intros Hd. rewrite on_complete_eq, Hd.
  destruct (add_fn t (merged w)) as [m [[]|e0]].
  - destruct (schema t); [done|]. by destruct (IsAbsent d).
  - intros [= <- _]. eauto.
Qed.

Lemma slice_on_complete_Err_context add_fn prop t w e w' d :
  descriptors w !! prop = Some d ->
  slice_on_complete add_fn prop t w = Some (Err e, w') ->
  exists e0, e = WithContext ("adding " +:+ quoted (name d)) e0.
Proof.
  intros Hd. rewrite slice_on_complete_eq, Hd.
  destruct (add_fn t (merged w)) as [m [[]|e0]].
  - destruct (schema t); [done|]. by destruct (IsAbsent d).
  - intros [= <- _]. eauto.
Qed.

Lemma AddProperties_body_Return uri cache add_fn g prop w e g' w' :
  AddProperties_body uri cache add_fn g prop w
  = Some ((Return (Err e), g'), w') ->
  exists d,
    descriptors w !! prop = Some d
    /\ attributed (fun d0 => load_task d0 (Join uri (path d0))) g d e.
Proof.
  destruct (descriptors w !! prop) as [d|] eqn:Hd.
  2: { unfold AddProperties_body, bind, deref. by rewrite Hd. }
  intros Hb. exists d. split; [done|]. revert Hb.
  destruct (IsAbsent d) eqn:Ha.
  2: { rewrite (AddProperties_body_not_absent _ _ _ _ _ _ _ Hd Ha).
       intros [= <- _ _]. by left. }
  assert (Hmiss : misses cache d w ->
    AddProperties_body uri cache add_fn g prop w
    = Some ((Return (Err e), g'), w') ->
    attributed (fun d0 => load_task d0 (Join uri (path d0))) g d e).
  { intros Hget.
    rewrite (AddProperties_body_miss _ _ _ _ _ _ _ Hd Ha Hget). simpl.
    destruct g as [g0|]; [done|].
    destruct (load_task d _) as [t|e1] eqn:Ht.
    2: { intros [= <- _ _]. right. left. done. }
    destruct (on_complete add_fn prop cache t _) as [[[[]|e1] w3]|] eqn:Hc;
      [done| |done].
    intros [= <- _ _]. right. right.
    eapply on_complete_Err_context; [|exact Hc].
    by rewrite descriptors_probed. }
  destruct cache; [|apply Hmiss; by intros ?].
  destruct (Get (set_name (name d) (cache_key w)) (the_cache w))
    as [props|] eqn:Hget; [|apply Hmiss; by intros _].
  rewrite (AddProperties_body_hit _ _ _ _ _ _ _ Hd Ha Hget).
  destruct (add_fn props (merged w)) as [m [[]|e0]].
  - by destruct (schema props).
  - intros [= <- _ _]. right. right. eauto.
Qed.

Lemma AddPropertySlice_body_Return dir begin size add_fn g prop w e g' w' :
  AddPropertySlice_body dir begin size add_fn g prop w
  = Some ((Return (Err e), g'), w') ->
  exists d,
    descriptors w !! prop = Some d
    /\ attributed
         (fun d0 => slice_task d0 (Join dir (path d0)) begin size) g d e.
Proof.
  destruct (descriptors w !! prop) as [d|] eqn:Hd.
  2: { unfold AddPropertySlice_body, bind, deref. by rewrite Hd. }
  intros Hb. exists d. split; [done|]. revert Hb.
  destruct (IsAbsent d) eqn:Ha.
  2: { rewrite (AddPropertySlice_body_not_absent _ _ _ _ _ _ _ _ Hd Ha).
       intros [= <- _ _]. by left. }
  rewrite (AddPropertySlice_body_absent _ _ _ _ _ _ _ _ Hd Ha). simpl.
  destruct g as [g0|]; [done|].
  destruct (slice_task d _ begin size) as [t|e1] eqn:Ht.
  2: { intros [= <- _ _]. right. left. done. }
  destruct (slice_on_complete add_fn prop t w) as [[[[]|e1] w3]|] eqn:Hc;
    [done| |done].
  intros [= <- _ _]. right. right.
  by eapply slice_on_complete_Err_context.
Qed.

(** Property X14.  Every error a call returns belongs to one descriptor
    of the batch and has one of three origins: the descriptor was not
    absent ([Exists], with its quoted name in the message); the call had
    no group and the load of the descriptor's file failed with that very
    error; or the merge function rejected the descriptor's column, and
    the error carries the context "adding" with the quoted name.  In
    particular a call that is given a group never returns the error of a
    load. *)
Theorem errors_belong_to_a_descriptor
    (uri dir : Uri) (range : Z * Z) (cache : bool) add_fn
    (properties : list nat) grp (e : ErrorInfo) g' w w' :
  (AddProperties uri cache properties grp add_fn w
   = Some ((Err e, g'), w') ->
   exists prop d,
     prop ∈ properties /\ descriptors w !! prop = Some d
     /\ attributed (fun d0 => load_task d0 (Join uri (path d0))) grp d e)
  /\ (AddPropertySlice dir properties range grp add_fn w
      = Some ((Err e, g'), w') ->
      exists prop d,
        prop ∈ properties /\ descriptors w !! prop = Some d
        /\ attributed
             (fun d0 => slice_task d0 (Join dir (path d0)) range.1
                          ((range.2 - range.1) mod two64)%Z) grp d e).
Proof.
  split.
  - rewrite AddProperties_eq. unfold AddProperties_loop.
    destruct (for_each _ properties grp w) as [[cg w1]|] eqn:Hloop; [|done].
    intros [= Hres <-]. apply return_after_Err in Hres as ->.
    eapply (loop_errors_attributed (AddProperties_body uri cache add_fn));
      [| | | | exact Hloop].
    + intros d d' Hn Hp. unfold load_task. by rewrite Hn, Hp.
    + intros g p w0 cg w2. apply AddProperties_body_evolves.
    + intros g p w0 e0 g0 w2. apply AddProperties_body_Return.
    + intros g p w0 c g0 w2. apply AddProperties_body_mode.
  - rewrite AddPropertySlice_eq. unfold AddPropertySlice_loop. simpl.
    destruct (for_each _ properties grp w) as [[cg w1]|] eqn:Hloop; [|done].
    intros [= Hres <-]. apply return_after_Err in Hres as ->.
    eapply (loop_errors_attributed
              (AddPropertySlice_body dir range.1
                 ((range.2 - range.1) mod two64)%Z add_fn));
      [| | | | exact Hloop].
    + intros d d' Hn Hp. unfold slice_task. by rewrite Hn, Hp.
    + intros g p w0 cg w2. apply AddPropertySlice_body_evolves.
    + intros g p w0 e0 g0 w2. apply AddPropertySlice_body_Return.
    + intros g p w0 c g0 w2. apply AddPropertySlice_body_mode.
Qed.

End Properties.

(** * The properties at work on the sample directory *)

Lemma loaders_wrap_library_exceptions_witness :
  @library_throws sample_env None "g/boom.parquet"
    "Parquet magic bytes not found in footer"
  /\ @library_throws sample_env (Some {| offset := 1; length := 2 |})
       "g/boom.parquet" "Parquet magic bytes not found in footer"
  /\ @LoadProperties sample_env "boom" "g/boom.parquet"
     = Err (KATANA_ERROR ArrowError
              "arrow exception: Parquet magic bytes not found in footer")
  /\ @LoadPropertySlice sample_env "boom" "g/boom.parquet" 1 2
     = Err (KATANA_ERROR ArrowError
              "arrow exception: Parquet magic bytes not found in footer").
Proof.
  assert (H1 : @library_throws sample_env None "g/boom.parquet"
                 "Parquet magic bytes not found in footer").
  { right. eexists. split; reflexivity. }
  assert (H2 : @library_throws sample_env
                 (Some {| offset := 1; length := 2 |}) "g/boom.parquet"
                 "Parquet magic bytes not found in footer").
  { right. eexists. split; reflexivity. }
  split; [exact H1|]. split; [exact H2|].
  destruct (@loaders_wrap_library_exceptions sample_env "boom"
              "g/boom.parquet" "Parquet magic bytes not found in footer")
    as [Hfull Hslice].
  split.
  - exact (Hfull H1).
  - exact (Hslice 1%Z 2%Z H2).
Defined.

Lemma not_absent_fails_with_Exists_witness :
  descriptors sample_world !! 5 = Some height
  /\ state height <> kAbsent
  /\ AddProperties "g" true [5; 0] None add_column sample_world
     = Some ((Err (must_be_absent height), None), sample_world)
  /\ AddPropertySlice "g" [5; 0] (1, 3)%Z None add_column sample_world
     = Some ((Err (must_be_absent height), None), sample_world)
  /\ descriptors sample_world !! 5 = Some height.
Proof.
  assert (Hd : descriptors sample_world !! 5 = Some height) by reflexivity.
  assert (Hs : state height <> kAbsent) by (simpl; congruence).
  destruct (@not_absent_fails_with_Exists sample_env "g" "g" (1, 3)%Z true
              add_column None 5 height sample_world Hd Hs)
    as (_ & Hfull & Hslice & _ & _).
  split; [exact Hd|]. split; [exact Hs|].
  destruct (Hfull [] [0] None sample_world eq_refl) as [Hf1 Hf2].
  destruct (Hslice [] [0] None sample_world eq_refl) as [Hs1 _].
  split; [exact Hf1|]. split; [exact Hs1|]. exact Hf2.
Defined.



Lemma schema_mismatch_is_InvalidArgument_witness :
  descriptors sample_world !! 2 = Some (absent "bad")
  /\ @reads sample_env None "g/bad.parquet" misnamed_table
  /\ schema_mismatch "bad" misnamed_table
  /\ exists e,
       error_code e = InvalidArgument
       /\ AddProperties "g" true [2; 0] None add_column sample_world
          = Some ((Err (WithContext "error loading g/bad.parquet" e), None),
                  probed true "bad" sample_world)
       /\ descriptors (probed true "bad" sample_world) !! 2
          = Some (absent "bad").
Proof.
  assert (Hd : descriptors sample_world !! 2 = Some (absent "bad"))
    by reflexivity.
  assert (Hr : @reads sample_env None
                 (@Join sample_env "g" (path (absent "bad"))) misnamed_table)
    by (eexists; split; reflexivity).
  assert (Hm : schema_mismatch (name (absent "bad")) misnamed_table)
    by (right; eexists; split; [reflexivity | discriminate]).
  split; [exact Hd|]. split; [exact Hr|]. split; [exact Hm|].
  destruct (@schema_mismatch_is_InvalidArgument sample_env "g" true add_column
              2 (absent "bad") misnamed_table sample_world Hd eq_refl
              (fun _ => eq_refl) Hr Hm)
    as (e & Hcode & _ & Hsync & _ & Hdesc & _).
  exists e. split; [exact Hcode|]. split; [exact (Hsync [0])|].
  exact (eq_trans (f_equal (fun ds => ds !! 2) Hdesc) Hd).
Defined.

Lemma sync_first_failure_aborts_witness :
  AddProperties_loop "g" false [0] None add_column sample_world
  = Some ((Continue, None), sample_world_with_age)
  /\ @load_task sample_env (absent "bad") "g/bad.parquet"
     = Err (WithContext "error loading g/bad.parquet" bad_name_error)
  /\ AddProperties "g" false [0; 2; 1] None add_column sample_world
     = Some ((Err (WithContext "error loading g/bad.parquet" bad_name_error),
              None),
             sample_world_with_age)
  /\ descriptors sample_world_with_age !! 1 = Some (absent "rank")
  /\ merged sample_world_with_age = [age_table].
Proof.
  assert (Hpre : AddProperties_loop "g" false [0] None add_column sample_world
                 = Some ((Continue, None), sample_world_with_age))
    by reflexivity.
  assert (Hl : @load_task sample_env (absent "bad")
                 (@Join sample_env "g" (path (absent "bad")))
               = Err (WithContext "error loading g/bad.parquet"
                        bad_name_error))
    by reflexivity.
  split; [exact Hpre|]. split; [exact Hl|].
  destruct (@sync_first_failure_aborts sample_env "g" "g" (0, 0)%Z false
              add_column [0] [1] sample_world)
    as (_ & _ & Hfull & _).
  destruct (Hfull 2 (absent "bad") sample_world_with_age Hpre eq_refl eq_refl
              (fun H => False_ind _ (Bool.diff_false_true H)))
    as [Hfail _].
  split; [exact (Hfail _ Hl)|]. split; reflexivity.
Defined.

Lemma sliced_load_marks_modified_witness :
  descriptors sample_world !! 0 = Some (absent "age")
  /\ @slice_task sample_env (absent "age") "g/age.parquet" 1 2
     = Ok age_rows_1_3
  /\ add_column age_rows_1_3 (merged sample_world) = ([age_rows_1_3], Ok tt)
  /\ (exists w',
        slice_on_complete add_column 0 age_rows_1_3 sample_world
        = Some (Ok tt, w')
        /\ descriptors w' !! 0
           = Some {| name := "age"; path := "age.parquet";
                     state := kModified; type := Some int64 |}
        /\ merged w' = [age_rows_1_3])
  /\ (exists w2,
        AddPropertySlice "g" [0] (1, 3)%Z None add_column sample_world
        = Some ((ResultSuccess, None), w2)
        /\ descriptors w2 !! 0
           = Some {| name := "age"; path := "age.parquet";
                     state := kModified; type := Some int64 |}
        /\ merged w2 = [age_rows_1_3])
  /\ (forall res w',
        AddPropertySlice "g" [0; 2; 1] (1, 3)%Z None add_column sample_world
        = Some (res, w') ->
        descriptors w' !! 0
        = Some {| name := "age"; path := "age.parquet";
                  state := kModified; type := Some int64 |})
  /\ (exists w',
        then_Finish
          (AddPropertySlice "g" [0] (1, 3)%Z (Some []) add_column
             sample_world)
        = Some ([Ok tt], w')
        /\ descriptors w' !! 0
           = Some {| name := "age"; path := "age.parquet";
                     state := kModified; type := Some int64 |}).
Proof.
  assert (Hd : descriptors sample_world !! 0 = Some (absent "age"))
    by reflexivity.
  assert (Hl : @slice_task sample_env (absent "age")
                 (@Join sample_env "g" (path (absent "age"))) 1 2
               = Ok age_rows_1_3) by reflexivity.
  assert (Ha : add_column age_rows_1_3 (merged sample_world)
               = ([age_rows_1_3], Ok tt)) by reflexivity.
  split; [exact Hd|]. split; [exact Hl|]. split; [exact Ha|].
  destruct (@sliced_load_marks_modified sample_env "g" (1, 3)%Z add_column)
    as (Hcallback & Hsync & Hgroup & _).
  destruct (Hcallback 0 (absent "age") age_rows_1_3 [age_rows_1_3]
              sample_world 1%Z 2%Z Hd eq_refl Hl Ha)
    as (f & w' & Hf & Hrun & Hdesc & Hm).
  injection Hf as <-.
  split; [exists w'; split; [exact Hrun|]; split; [exact Hdesc|exact Hm]|].
  destruct (Hsync [] 0 (absent "age") age_rows_1_3 [age_rows_1_3]
              sample_world sample_world eq_refl Hd eq_refl Hl Ha)
    as (f & Hf & (w2 & Hcall & Hdesc2 & Hm2) & Hlater).
  injection Hf as <-.
  split; [exists w2; split; [exact Hcall|]; split; [exact Hdesc2|exact Hm2]|].
  split; [exact (Hlater [2; 1])|].
  destruct (Hgroup 0 (absent "age") age_rows_1_3 [age_rows_1_3]
              sample_world Hd eq_refl Hl Ha)
    as (f & wg & Hf & Hfin & Hdescg & _).
  injection Hf as <-.
  exists wg. split; [exact Hfin|exact Hdescg].
Defined.

Lemma slice_range_wraps_witness :
  is_uint64 5 /\ is_uint64 3
  /\ descriptors sample_world !! 0 = Some (absent "age")
  /\ AddPropertySlice "g" [0] (5, 3)%Z (Some []) add_column sample_world
     = Some ((ResultSuccess,
              Some (AddReturnsOp
                      (@slice_task sample_env (absent "age") "g/age.parquet"
                         5 ((3 - 5) mod two64))
                      "g/age.parquet" (slice_on_complete add_column 0) [])),
             sample_world)
  /\ ((3 - 5) mod two64 = 3 - 5 + two64)%Z
  /\ ((3 - 5) mod two64 = 18446744073709551614)%Z
  /\ to_int64 ((3 - 5) mod two64) = (-2)%Z.
Proof.
  assert (H5 : is_uint64 5) by (split; [discriminate | reflexivity]).
  assert (H3 : is_uint64 3) by (split; [discriminate | reflexivity]).
  assert (Hd : descriptors sample_world !! 0 = Some (absent "age"))
    by reflexivity.
  split; [exact H5|]. split; [exact H3|]. split; [exact Hd|].
  destruct (@slice_range_wraps sample_env "g" add_column 0 (absent "age")
              sample_world 5%Z 3%Z [] H5 H3 Hd eq_refl)
    as (Hcall & _ & _ & _ & _ & _ & Hwrap & _).
  split; [exact Hcall|].
  split; [exact (proj1 (Hwrap eq_refl))|].
  split; reflexivity.
Defined.

Lemma cache_key_is_shared_and_overwritten_witness :
  AddProperties "g" true [0; 2] (Some []) add_column sample_world
  = Some ((ResultSuccess,
           Some [ {| op_future := Ok age_table; op_file := "g/age.parquet";
                     op_on_complete := on_complete add_column 0 true |};
                  {| op_future :=
                       Err (WithContext "error loading g/bad.parquet"
                              bad_name_error);
                     op_file := "g/bad.parquet";
                     op_on_complete := on_complete add_column 2 true |} ]),
          returned_world)
  /\ cache_key returned_world = {| node_edge := kNode; key_name := "bad" |}
  /\ on_complete add_column 0 true age_table returned_world
     = Some (Ok tt, resolved_world)
  /\ cache_key resolved_world = {| node_edge := kNode; key_name := "age" |}
  /\ the_cache resolved_world
     = @Insert sample_env {| node_edge := kNode; key_name := "age" |}
         age_table ∅.
Proof.
  assert (Hrun : on_complete add_column 0 true age_table returned_world
                 = Some (Ok tt, resolved_world)) by reflexivity.
  split; [reflexivity|]. split; [reflexivity|]. split; [exact Hrun|].
  destruct (@cache_key_is_shared_and_overwritten sample_env "g" add_column)
    as (_ & Hcallback & _).
  exact (Hcallback 0 (absent "age") age_table returned_world resolved_world
           eq_refl Hrun).
Defined.

Lemma sync_equals_grouped_unless_stopped_early_witness :
  AddProperties_loop "g" true [0] None add_column sample_world
  = Some ((Continue, None), grouped_final_world)
  /\ (forall (prop : nat) d,
        prop ∈ [0] -> descriptors sample_world !! prop = Some d ->
        @misses sample_env true d sample_world)
  /\ @stops_alike sample_env true [0] [2] sample_world grouped_final_world
  /\ AddProperties "g" true [0; 2] None add_column sample_world
     = Some ((Err (WithContext "error loading g/bad.parquet" bad_name_error),
              None),
             @probed sample_env true "bad" grouped_final_world)
  /\ exists outcomes wg,
       then_Finish (AddProperties "g" true [0; 2] (Some []) add_column
                      sample_world)
       = Some (outcomes, wg)
       /\ descriptors (@probed sample_env true "bad" grouped_final_world)
          = descriptors wg
       /\ the_cache (@probed sample_env true "bad" grouped_final_world)
          = the_cache wg
       /\ merged (@probed sample_env true "bad" grouped_final_world)
          = merged wg.
Proof.
  assert (Hpre : AddProperties_loop "g" true [0] None add_column sample_world
                 = Some ((Continue, None), grouped_final_world))
    by reflexivity.
  assert (Hmisses : forall (prop : nat) d,
            prop ∈ [0] -> descriptors sample_world !! prop = Some d ->
            @misses sample_env true d sample_world).
  { intros prop d Hin Hd _. apply elem_of_cons in Hin as [->|Hin].
    - injection Hd as <-. reflexivity.
    - by apply elem_of_nil in Hin. }
  assert (Hstop : @stops_alike sample_env true [0] [2] sample_world
                    grouped_final_world).
  { right. right. left. exists 2, (absent "bad").
    split; [reflexivity|]. split; [reflexivity|]. split; [reflexivity|].
    split; intros _; reflexivity. }
  assert (Hsync : AddProperties "g" true [0; 2] None add_column sample_world
                  = Some ((Err (WithContext "error loading g/bad.parquet"
                                  bad_name_error), None),
                          @probed sample_env true "bad" grouped_final_world))
    by reflexivity.
  split; [exact Hpre|]. split; [exact Hmisses|]. split; [exact Hstop|].
  split; [exact Hsync|].
  destruct (@sync_equals_grouped_unless_stopped_early sample_env "g" "g"
              (0, 0)%Z true add_column [0] [2] sample_world
              grouped_final_world) as [Hfull _].
  destruct (Hfull Hpre Hmisses Hstop) as [Hfollows _].
  exact (Hfollows _ _ Hsync).
Defined.

(** Claim C1, as stated, fails when a load fails: without a group the call
    stops at the misnamed column of descriptor 2 and leaves descriptor 0
    absent; with a group, descriptor 0 is loaded, merged and cached when the
    group is resolved. *)
Lemma sync_differs_from_grouped_after_failure :
  ~ paths_agree
      (fun grp => AddProperties "g" true [2; 0] grp add_column) sample_world.
Proof.
  intros H.
  assert (Hs : AddProperties "g" true [2; 0] None add_column sample_world
               = Some ((Err (WithContext "error loading g/bad.parquet"
                               bad_name_error), None), returned_world))
    by reflexivity.
  assert (Hg : then_Finish (AddProperties "g" true [2; 0] (Some [])
                              add_column sample_world)
               = Some ([Err (WithContext "g/bad.parquet"
                               (WithContext "error loading g/bad.parquet"
                                  bad_name_error)); Ok tt],
                       grouped_final_world))
    by reflexivity.
  destruct (H _ _ _ _ Hs Hg) as (Hdesc & _).
  discriminate Hdesc.
Qed.

(** The two paths also differ without any failure: once descriptor 0 has
    put its column in the cache, the synchronous call hits the cache at
    descriptor 1, which names the same column, and returns, leaving
    descriptor 2 absent; the grouped call probes the cache before any
    column is inserted and loads all three. *)
Example sync_differs_from_grouped_after_hit :
  AddProperties "g" true [0; 1; 2] None append_column twin_world
  = Some ((ResultSuccess, None), twin_sync_world)
  /\ then_Finish (AddProperties "g" true [0; 1; 2] (Some []) append_column
                    twin_world)
     = Some ([Ok tt; Ok tt; Ok tt], twin_grouped_world)
  /\ state <$> descriptors twin_sync_world !! 2 = Some kAbsent
  /\ state <$> descriptors twin_grouped_world !! 2 = Some kLoaded.
Proof.
  split; [reflexivity|].
  split; [reflexivity|].
  split; reflexivity.
Qed.

(** Nor do they agree on every batch the synchronous call runs
    through, when the cache evicts: the synchronous call inserts the
    column [age], which evicts [rank], and then loads [rank] from storage;
    the grouped call finds [rank] in the cache before anything is
    inserted, merges it first and returns, and [age] is merged when the
    group is resolved. *)
Example sync_differs_from_grouped_under_eviction :
  @AddProperties_loop evicting_env "g" true [0; 1] None evicting_append
    evicting_world = Some ((Continue, None), evicting_sync_world)
  /\ merged evicting_sync_world = [age_table; rank_table]
  /\ then_Finish (@AddProperties evicting_env "g" true [0; 1] (Some [])
                    evicting_append evicting_world)
     = Some ([Ok tt], evicting_grouped_world)
  /\ merged evicting_grouped_world = [rank_table; age_table]
  /\ ~ paths_agree
        (fun grp => @AddProperties evicting_env "g" true [0; 1] grp
                      evicting_append)
        evicting_world.
Proof.
  assert (Hs : @AddProperties evicting_env "g" true [0; 1] None
                 evicting_append evicting_world
               = Some ((ResultSuccess, None), evicting_sync_world))
    by reflexivity.
  assert (Hg : then_Finish (@AddProperties evicting_env "g" true [0; 1]
                              (Some []) evicting_append evicting_world)
               = Some ([Ok tt], evicting_grouped_world))
    by reflexivity.
  split; [reflexivity|]. split; [reflexivity|]. split; [exact Hg|].
  split; [reflexivity|].
  intros H. destruct (H _ _ _ _ Hs Hg) as (_ & _ & Hm).
  discriminate Hm.
Qed.


(** Claim C9, as stated, fails for a callback whose merge fails: it
    returns before it assigns the name, and the key keeps the name it
    had. *)
Lemma failed_callback_keeps_the_key :
  ~ (forall (add_fn : @MergeFn sample_env) (prop : nat) d props w r w',
       descriptors w !! prop = Some d ->
       on_complete add_fn prop true props w = Some (r, w') ->
       key_name (cache_key w') = name d).
Proof.
  intros H.
  specialize (H add_column 1 (absent "rank") rank_table clash_world _ _
                eq_refl eq_refl).
  discriminate H.
Qed.

Lemma load_succeeds_iff_single_expected_field_witness :
  @reads sample_env None "g/age.parquet" age_table
  /\ @LoadProperties sample_env "age" "g/age.parquet" = Ok age_table
  /\ @reads sample_env (Some {| offset := 1; length := 2 |}) "g/age.parquet"
       age_rows_1_3
  /\ @LoadPropertySlice sample_env "age" "g/age.parquet" 1 2
     = Ok age_rows_1_3.
Proof.
  assert (Hr : @reads sample_env None "g/age.parquet" age_table)
    by (eexists; split; reflexivity).
  assert (Hr' : @reads sample_env (Some {| offset := 1; length := 2 |})
                  "g/age.parquet" age_rows_1_3)
    by (eexists; split; reflexivity).
  split; [exact Hr|].
  split.
  - destruct (@load_succeeds_iff_single_expected_field sample_env "age"
                "g/age.parquet" age_table) as [Hfull _].
    apply Hfull. split; [exact Hr|]. eexists. split; reflexivity.
  - split; [exact Hr'|].
    destruct (@load_succeeds_iff_single_expected_field sample_env "age"
                "g/age.parquet" age_rows_1_3) as [_ Hslice].
    apply Hslice. split; [exact Hr'|]. eexists. split; reflexivity.
Defined.

Lemma reader_error_passes_with_context_witness :
  @reader_fails sample_env None "g/missing.parquet" no_such_file_error
  /\ @LoadProperties sample_env "missing" "g/missing.parquet"
     = Err (WithContext "loading property" no_such_file_error)
  /\ @load_task sample_env (absent "missing") "g/missing.parquet"
     = Err {| error_code := OtherCode 2; message := "no such file";
              context := ["error loading g/missing.parquet";
                          "loading property"] |}.
Proof.
  assert (Hf : @reader_fails sample_env None
                 (@Join sample_env "g" (path (absent "missing")))
                 no_such_file_error)
    by (right; eexists; split; reflexivity).
  split; [exact Hf|].
  destruct (@reader_error_passes_with_context sample_env "g"
              (absent "missing") 0%Z 0%Z no_such_file_error) as [Hfull _].
  exact (Hfull Hf).
Defined.

Lemma load_failures_classified_witness :
  @LoadProperties sample_env "bad" "g/bad.parquet" = Err bad_name_error
  /\ ((exists what,
         @library_throws sample_env None "g/bad.parquet" what
         /\ bad_name_error
            = KATANA_ERROR ArrowError ("arrow exception: " +:+ what))
      \/ (exists e0,
            @reader_fails sample_env None "g/bad.parquet" e0
            /\ bad_name_error = WithContext "loading property" e0)
      \/ (exists out,
            @reads sample_env None "g/bad.parquet" out
            /\ schema_mismatch "bad" out
            /\ error_code bad_name_error = InvalidArgument
            /\ context bad_name_error = [])).
Proof.
  assert (H : @LoadProperties sample_env "bad" "g/bad.parquet"
              = Err bad_name_error) by reflexivity.
  split; [exact H|].
  exact (@load_failures_classified sample_env "bad" "g/bad.parquet" None
           bad_name_error H).
Defined.

Lemma cache_hit_with_failing_merge_witness :
  descriptors clash_world !! 1 = Some (absent "rank")
  /\ Get {| node_edge := kNode; key_name := "rank" |} (the_cache clash_world)
     = Some rank_table
  /\ add_column rank_table (merged clash_world)
     = ([rank_table], Err column_exists_error)
  /\ exists w',
       AddProperties "g" true [1; 0] None add_column clash_world
       = Some ((Err (WithContext ("adding " +:+ quoted "rank")
                       column_exists_error), None), w')
       /\ descriptors w' = descriptors clash_world
       /\ the_cache w' = the_cache clash_world.
Proof.
  assert (Hd : descriptors clash_world !! 1 = Some (absent "rank"))
    by reflexivity.
  assert (Hget : Get {| node_edge := node_edge (cache_key clash_world);
                        key_name := name (absent "rank") |}
                   (the_cache clash_world) = Some rank_table)
    by reflexivity.
  assert (Hadd : add_column rank_table (merged clash_world)
                 = ([rank_table], Err column_exists_error)) by reflexivity.
  split; [exact Hd|]. split; [exact Hget|]. split; [exact Hadd|].
  destruct (@cache_hit_with_failing_merge sample_env "g" add_column None []
              [0] 1 (absent "rank") rank_table [rank_table]
              column_exists_error None clash_world clash_world
              eq_refl Hd eq_refl Hget Hadd)
    as (w' & Hrun & Hdesc & Hcache & _).
  exists w'. split; [exact Hrun|]. split; [exact Hdesc | exact Hcache].
Defined.

Lemma completion_fails_iff_merge_fails_witness :
  descriptors clash_world !! 1 = Some (absent "rank")
  /\ add_column rank_table (merged clash_world)
     = ([rank_table], Err column_exists_error)
  /\ on_complete add_column 1 true rank_table clash_world
     = Some (Err (WithContext ("adding " +:+ quoted "rank")
                    column_exists_error),
             @set_merged sample_env [rank_table] clash_world).
Proof.
  assert (Hd : descriptors clash_world !! 1 = Some (absent "rank"))
    by reflexivity.
  assert (Hadd : add_column rank_table (merged clash_world)
                 = ([rank_table], Err column_exists_error)) by reflexivity.
  split; [exact Hd|]. split; [exact Hadd|].
  destruct (@completion_fails_iff_merge_fails sample_env add_column true 1
              (absent "rank") rank_table
              (WithContext ("adding " +:+ quoted "rank") column_exists_error)
              clash_world (@set_merged sample_env [rank_table] clash_world) Hd)
    as [Hfull _].
  apply Hfull. exists [rank_table], column_exists_error.
  split; [exact Hadd|]. split; reflexivity.
Defined.

Lemma grouped_call_defers_the_work_witness :
  AddPropertySlice "g" [0; 5] (1, 3)%Z (Some []) add_column sample_world
  = Some ((Err (must_be_absent height),
           Some [@pending_slice sample_env "g" 1 2 add_column 0
                   (absent "age")]),
          sample_world)
  /\ sample_world = sample_world.
Proof.
  assert (Hrun : AddPropertySlice "g" [0; 5] (1, 3)%Z (Some []) add_column
                   sample_world
                 = Some ((Err (must_be_absent height),
                          Some [@pending_slice sample_env "g" 1 2 add_column 0
                                  (absent "age")]),
                         sample_world)) by reflexivity.
  split; [exact Hrun|].
  destruct (@grouped_call_defers_the_work sample_env "g" "g" (1, 3)%Z
              add_column [0; 5] []
              (Err (must_be_absent height),
               Some [@pending_slice sample_env "g" 1 2 add_column 0
                       (absent "age")])
              sample_world sample_world) as [Hslice _].
  exact (Hslice Hrun).
Defined.

Lemma grouped_call_registers_every_descriptor_witness :
  Forall2 (fun prop d => descriptors sample_world !! prop = Some d
                         /\ state d = kAbsent)
    [0; 1; 0] [absent "age"; absent "rank"; absent "age"]
  /\ AddProperties "g" true [0; 1; 0] (Some []) add_column sample_world
     = Some ((ResultSuccess,
              Some [@pending_load sample_env "g" true add_column 0
                      (absent "age");
                    @pending_load sample_env "g" true add_column 1
                      (absent "rank");
                    @pending_load sample_env "g" true add_column 0
                      (absent "age")]),
             @probed sample_env true "age" sample_world).
Proof.
  assert (Hall : Forall2 (fun prop d => descriptors sample_world !! prop = Some d
                                        /\ state d = kAbsent)
                   [0; 1; 0] [absent "age"; absent "rank"; absent "age"])
    by (repeat constructor).
  split; [exact Hall|].
  destruct (@grouped_call_registers_every_descriptor sample_env "g" "g"
              (0, 0)%Z true add_column [0; 1; 0]
              [absent "age"; absent "rank"; absent "age"] [] sample_world
              Hall) as [Hfull _].
  apply Hfull. repeat constructor.
Defined.

Lemma calls_keep_the_shape_of_the_store_witness :
  AddProperties "g" true [0; 1; 2] None add_column sample_world
  = Some ((Err (WithContext "error loading g/bad.parquet" bad_name_error),
           None),
          @probed sample_env true "bad" both_loaded_world)
  /\ List.length
       (descriptors (@probed sample_env true "bad" both_loaded_world)) = 6
  /\ node_edge (cache_key (@probed sample_env true "bad" both_loaded_world))
     = kNode.
Proof.
  assert (Hrun : AddProperties "g" true [0; 1; 2] None add_column sample_world
                 = Some ((Err (WithContext "error loading g/bad.parquet"
                                 bad_name_error), None),
                         @probed sample_env true "bad" both_loaded_world))
    by reflexivity.
  split; [exact Hrun|].
  destruct (@calls_keep_the_shape_of_the_store sample_env "g" "g" (0, 0)%Z
              true add_column [0; 1; 2] None _ sample_world _
              (or_introl Hrun)) as (Hlen & _ & Hkind).
  split; [exact Hlen | exact Hkind].
Defined.

Lemma run_through_marks_each_descriptor_once_witness :
  AddProperties_loop "g" true [0; 1] None add_column sample_world
  = Some ((Continue, None), both_loaded_world)
  /\ NoDup [0; 1]
  /\ exists d ty,
       descriptors sample_world !! 0 = Some d
       /\ state d = kAbsent
       /\ descriptors both_loaded_world !! 0 = Some (with_data kLoaded ty d)
       /\ AddProperties "g" false [0; 2] None append_column both_loaded_world
          = Some ((Err (must_be_absent d), None), both_loaded_world).
Proof.
  assert (Hloop : AddProperties_loop "g" true [0; 1] None add_column
                    sample_world
                  = Some ((Continue, None), both_loaded_world))
    by reflexivity.
  split; [exact Hloop|].
  destruct (@run_through_marks_each_descriptor_once sample_env "g" "g"
              (0, 0)%Z true add_column [0; 1] sample_world both_loaded_world)
    as [Hfull _].
  destruct (Hfull Hloop) as (Hnd & Hall).
  split; [exact Hnd|].
  destruct (Hall 0) as (d & ty & Hd & Hs & Hd' & Hreadd).
  { apply elem_of_cons. by left. }
  exists d, ty. split; [exact Hd|]. split; [exact Hs|]. split; [exact Hd'|].
  exact (proj1 (Hreadd "g" (0, 0)%Z false None [2] append_column)).
Defined.


Lemma slice_arguments_as_signed_witness :
  is_uint64 1 /\ is_uint64 3 /\ is_uint64 5
  /\ @slice_task sample_env (absent "age") "g/age.parquet" 1
       ((3 - 1) mod two64)
     = checked_context "error loading g/age.parquet"
         (@LoadPropertySlice sample_env "age" "g/age.parquet" 1 (3 - 1))
  /\ to_int64 ((3 - 5) mod two64) = (3 - 5)%Z.
Proof.
  assert (H1 : is_uint64 1) by (split; [discriminate | reflexivity]).
  assert (H3 : is_uint64 3) by (split; [discriminate | reflexivity]).
  assert (H5 : is_uint64 5) by (split; [discriminate | reflexivity]).
  split; [exact H1|]. split; [exact H3|]. split; [exact H5|].
  split.
  - destruct (@slice_arguments_as_signed sample_env "g" (absent "age")
                1%Z 3%Z H1 H3) as (Hnormal & _).
    apply Hnormal; [discriminate | reflexivity].
  - destruct (@slice_arguments_as_signed sample_env "g" (absent "age")
                5%Z 3%Z H5 H3) as (_ & Hreversed & _).
    apply Hreversed; [reflexivity | discriminate].
Defined.

Lemma run_through_merges_each_column_in_order_witness :
  AddProperties_loop "g" true [0; 1] None add_column sample_world
  = Some ((Continue, None), both_loaded_world)
  /\ merged both_loaded_world = [age_table; rank_table]
  /\ exists ts,
       Forall2 (fun prop t => exists d,
                  descriptors sample_world !! prop = Some d
                  /\ state d = kAbsent
                  /\ @load_task sample_env d (@Join sample_env "g" (path d))
                     = Ok t) [0; 1] ts
       /\ merge_all add_column ts (merged sample_world)
          = Some (merged both_loaded_world).
Proof.
  assert (Hloop : AddProperties_loop "g" true [0; 1] None add_column
                    sample_world
                  = Some ((Continue, None), both_loaded_world))
    by reflexivity.
  split; [exact Hloop|]. split; [reflexivity|].
  destruct (@run_through_merges_each_column_in_order sample_env "g" "g"
              (0, 0)%Z true add_column [0; 1] sample_world both_loaded_world)
    as [Hfull _].
  exact (Hfull Hloop).
Defined.

Lemma run_through_inserts_each_column_in_order_witness :
  AddProperties_loop "g" true [0; 1] None add_column sample_world
  = Some ((Continue, None), both_loaded_world)
  /\ the_cache both_loaded_world
     = @insert_all sample_env kNode
         [(absent "age", age_table); (absent "rank", rank_table)]
         (the_cache sample_world)
  /\ Get {| node_edge := kNode; key_name := "rank" |}
       (the_cache both_loaded_world) = Some rank_table.
Proof.
  assert (Hloop : AddProperties_loop "g" true [0; 1] None add_column
                    sample_world
                  = Some ((Continue, None), both_loaded_world))
    by reflexivity.
  split; [exact Hloop|].
  destruct (@run_through_inserts_each_column_in_order sample_env "g"
              add_column [0; 1] sample_world both_loaded_world Hloop)
    as (loaded & Hall & Hcache & Hlast).
  apply Forall2_cons_inv_l in Hall as (dt0 & rest0 & H0 & Hall & ->).
  apply Forall2_cons_inv_l in Hall as (dt1 & rest1 & H1 & Hall & ->).
  apply Forall2_nil_inv_l in Hall as ->.
  destruct dt0 as [d0 t0], dt1 as [d1 t1].
  destruct H0 as (Hd0 & _ & Ht0), H1 as (Hd1 & _ & Ht1). simpl in *.
  injection Hd0 as <-. injection Hd1 as <-.
  injection Ht0 as <-. injection Ht1 as <-.
  split; [exact Hcache|]. exact (Hlast _ _ eq_refl).
Defined.

Lemma errors_belong_to_a_descriptor_witness :
  AddProperties "g" true [0; 1; 2] None add_column sample_world
  = Some ((Err (WithContext "error loading g/bad.parquet" bad_name_error),
           None),
          @probed sample_env true "bad" both_loaded_world)
  /\ exists (prop : nat) d,
       prop ∈ [0; 1; 2] /\ descriptors sample_world !! prop = Some d
       /\ @attributed sample_env
            (fun d0 => @load_task sample_env d0
                         (@Join sample_env "g" (path d0)))
            None d
            (WithContext "error loading g/bad.parquet" bad_name_error).
Proof.
  assert (Hrun : AddProperties "g" true [0; 1; 2] None add_column sample_world
                 = Some ((Err (WithContext "error loading g/bad.parquet"
                                 bad_name_error), None),
                         @probed sample_env true "bad" both_loaded_world))
    by reflexivity.
  split; [exact Hrun|].
  destruct (@errors_belong_to_a_descriptor sample_env "g" "g" (0, 0)%Z true
              add_column [0; 1; 2] None
              (WithContext "error loading g/bad.parquet" bad_name_error)
              None sample_world
              (@probed sample_env true "bad" both_loaded_world))
    as [Hfull _].
  exact (Hfull Hrun).
Defined.

(** * Properties of the chunked deque *)

Section GdequeProperties.
Context {T : Type} {R : RingOps T}.

Implicit Types (d : Gdeque.gdeque) (bs : list (Gdeque.loc * FixedSizeRing)).
Implicit Types (h : gmap Gdeque.loc Gdeque.Block) (xs : list T).

Lemma head_loc_app bs1 bs2 n :
  Gdeque.head_loc (bs1 ++ bs2) n
  = Gdeque.head_loc bs1 (Gdeque.head_loc bs2 n).
Proof. by destruct bs1 as [|[l r] bs1]. Qed.

Lemma last_loc_snoc bs l r p : Gdeque.last_loc (bs ++ [(l, r)]) p = Some l.
Proof. unfold Gdeque.last_loc. by rewrite last_snoc. Qed.

Lemma last_loc_cons bs l r p :
  Gdeque.last_loc ((l, r) :: bs) p = Gdeque.last_loc bs (Some l).
Proof.
  unfold Gdeque.last_loc. destruct bs as [|blk bs]; [done|].
  rewrite last_cons_cons.
  destruct (list.last (blk :: bs)) as [[l' r']|] eqn:Hlast; [done|].
  by apply last_None in Hlast.
Qed.

Lemma chain_app h p bs1 bs2 n :
  Gdeque.chain h p (bs1 ++ bs2) n
  <-> Gdeque.chain h p bs1 (Gdeque.head_loc bs2 n)
      /\ Gdeque.chain h (Gdeque.last_loc bs1 p) bs2 n.
Proof.
  revert p. induction bs1 as [|[l r] bs1 IH]; intros p; simpl.
  - unfold Gdeque.last_loc. simpl. tauto.
  - rewrite IH, head_loc_app, last_loc_cons. tauto.
Qed.

Lemma chain_frame h h' p bs n :
  (forall l, l ∈ bs.*1 -> h' !! l = h !! l) ->
  Gdeque.chain h p bs n -> Gdeque.chain h' p bs n.
Proof.
  revert p. induction bs as [|[l r] bs IH]; intros p Hsame; simpl; [done|].
  intros [Hl Hrest]. split.
  - rewrite Hsame; [done|]. simpl. apply elem_of_cons. by left.
  - apply IH; [|done]. intros l' Hin. apply Hsame. simpl.
    apply elem_of_cons. by right.
Qed.

Lemma chain_lookup h p bs n l :
  Gdeque.chain h p bs n -> l ∈ bs.*1 -> is_Some (h !! l).
Proof.
  revert p. induction bs as [|[l0 r] bs IH]; intros p; simpl.
  - intros _ Hin. by apply elem_of_nil in Hin.
  - intros [Hl Hrest] Hin. apply elem_of_cons in Hin as [->|Hin]; eauto.
Qed.

Lemma items_app bs1 bs2 :
  Gdeque.items (bs1 ++ bs2) = Gdeque.items bs1 ++ Gdeque.items bs2.
Proof. unfold Gdeque.items. by rewrite map_app, concat_app. Qed.

Lemma items_nil_inv bs :
  Forall (fun blk => ring_items blk.2 <> []) bs ->
  Gdeque.items bs = [] -> bs = [].
Proof.
  destruct bs as [|[l r] bs]; [done|].
  intros Hne. apply Forall_cons in Hne as [Hr _]. unfold Gdeque.items.
  simpl in *. intros H. apply app_eq_nil in H as [H _]. done.
Qed.

(** Under the invariant, no [assert(precondition())] fails. *)
Lemma layout_precondition d bs :
  Gdeque.layout d bs -> Gdeque.precondition d = true.
Proof.
  intros ((Hf & Hl & _) & Hne & Hnum & _). unfold Gdeque.precondition.
  destruct bs as [|[l r] bs].
  - rewrite Hf, Hl, Hnum. reflexivity.
  - apply Forall_cons in Hne as [Hr _]. simpl in Hr.
    assert (Hf' : Gdeque.first d <> None) by (by rewrite Hf).
    assert (Hl' : Gdeque.last d <> None).
    { rewrite Hl, last_loc_cons. unfold Gdeque.last_loc.
      by destruct (list.last bs) as [[? ?]|]. }
    assert (Hn : (0 <? Gdeque.num d)%Z = true).
    { apply Z.ltb_lt. rewrite Hnum. unfold Gdeque.items. simpl.
      rewrite length_app. destruct (ring_items r); [done|]. simpl. lia. }
    rewrite (bool_decide_eq_true_2 _ Hf'), (bool_decide_eq_true_2 _ Hl'), Hn.
    apply orb_true_r.
Qed.

Lemma layout_empty_iff d bs :
  Gdeque.layout d bs -> (Gdeque.num d = 0 <-> bs = [])%Z.
Proof.
  intros (_ & Hne & Hnum & _). rewrite Hnum. split.
  - intros H. apply (items_nil_inv _ Hne).
    apply nil_length_inv. lia.
  - intros ->. reflexivity.
Qed.


Lemma last_loc_app bs1 bs2 p :
  Gdeque.last_loc (bs1 ++ bs2) p
  = Gdeque.last_loc bs2 (Gdeque.last_loc bs1 p).
Proof.
  revert p. induction bs1 as [|[l r] bs1 IH]; intros p; [done|].
  simpl. by rewrite !last_loc_cons, IH.
Qed.

Lemma last_loc_nil p : Gdeque.last_loc [] p = p.
Proof. reflexivity. Qed.

Lemma linked_lookup d bs1 l r bs2 :
  Gdeque.linked d (bs1 ++ (l, r) :: bs2) ->
  Gdeque.heap d !! l
  = Some {| Gdeque.ring := r; Gdeque.next := Gdeque.head_loc bs2 None;
            Gdeque.prev := Gdeque.last_loc bs1 None |}.
Proof.
  intros (_ & _ & Hchain & _). apply chain_app in Hchain as [_ Hchain].
  by destruct Hchain as [Hl _].
Qed.

Lemma linked_NoDup_mid d bs1 l r bs2 :
  Gdeque.linked d (bs1 ++ (l, r) :: bs2) ->
  (l ∉ bs1.*1) /\ (l ∉ bs2.*1) /\ NoDup bs1.*1 /\ NoDup bs2.*1
  /\ (forall x, x ∈ bs1.*1 -> x ∉ bs2.*1).
Proof.
  intros (_ & _ & _ & Hnd & _). rewrite fmap_app, fmap_cons in Hnd.
  apply NoDup_app in Hnd as (Hnd1 & Hdisj & Hnd2).
  apply NoDup_cons in Hnd2 as [Hl2 Hnd2]. simpl in *.
  repeat split; try assumption.
  - intros Hin. apply (Hdisj l Hin). apply elem_of_cons. by left.
  - intros x Hin Hin2. apply (Hdisj x Hin). apply elem_of_cons. by right.
Qed.

Lemma linked_fresh d bs :
  Gdeque.linked d bs -> fresh (dom (Gdeque.heap d)) ∉ bs.*1.
Proof.
  intros (_ & _ & _ & _ & Hdom) Hin.
  apply (is_fresh (dom (Gdeque.heap d))). rewrite Hdom in Hin |- *.
  by apply elem_of_list_to_set.
Qed.

(** Replacing the ring of a block of the chain. *)
Lemma linked_set_ring d bs1 l r r' bs2 :
  Gdeque.linked d (bs1 ++ (l, r) :: bs2) ->
  exists d',
    Gdeque.set_ring l r' d = Some d'
    /\ Gdeque.linked d' (bs1 ++ (l, r') :: bs2)
    /\ Gdeque.num d' = Gdeque.num d.
Proof.
  intros Hlinked.
  pose proof (linked_lookup _ _ _ _ _ Hlinked) as Hl.
  destruct (linked_NoDup_mid _ _ _ _ _ Hlinked) as (Hn1 & Hn2 & _).
  destruct Hlinked as (Hf & Hla & Hchain & Hnd & Hdom).
  unfold Gdeque.set_ring. rewrite Hl. simpl.
  eexists. split; [reflexivity|]. split; [|reflexivity].
  unfold Gdeque.linked. simpl.
  split; [by rewrite Hf, !head_loc_app|].
  split; [by rewrite Hla, !last_loc_app, !last_loc_cons|].
  split; [|split].
  - apply chain_app in Hchain as [Hc1 [_ Hc2]]. apply chain_app. split.
    + eapply chain_frame; [|exact Hc1]. intros l' Hin.
      apply lookup_insert_ne. by intros ->.
    + split; [by rewrite lookup_insert_eq|].
      eapply chain_frame; [|exact Hc2]. intros l' Hin.
      apply lookup_insert_ne. by intros ->.
  - by rewrite fmap_app, fmap_cons in *.
  - rewrite dom_insert_lookup_L by (by rewrite Hl).
    by rewrite Hdom, !fmap_app, !fmap_cons.
Qed.


Lemma head_loc_cons_app bs l r bs' n :
  Gdeque.head_loc (bs ++ (l, r) :: bs') n = Gdeque.head_loc bs (Some l).
Proof. by rewrite head_loc_app. Qed.

Lemma last_loc_app_cons bs l r bs' p :
  Gdeque.last_loc (bs ++ (l, r) :: bs') p = Gdeque.last_loc bs' (Some l).
Proof. by rewrite last_loc_app, last_loc_cons. Qed.

(** [extend_last] links a new, empty block after the last one. *)
Lemma linked_extend_last d bs :
  Gdeque.linked d bs ->
  exists d',
    Gdeque.extend_last d = Some d'
    /\ Gdeque.linked d' (bs ++ [(fresh (dom (Gdeque.heap d)), ring_new)])
    /\ Gdeque.num d' = Gdeque.num d.
Proof.
  intros Hlinked. pose proof (linked_fresh _ _ Hlinked) as Hfresh.
  set (b := fresh (dom (Gdeque.heap d))) in *.
  unfold Gdeque.extend_last, Gdeque.alloc_block, Gdeque.set_prev.
  fold b. simpl. rewrite lookup_insert_eq. simpl.
  destruct bs as [|blk pre _] using rev_ind.
  - destruct Hlinked as (Hf & Hla & _ & _ & Hdom). simpl in Hf, Hla.
    rewrite Hla. simpl. rewrite Hf. eexists. split; [reflexivity|].
    split; [|reflexivity]. unfold Gdeque.linked. simpl.
    rewrite insert_insert_eq, lookup_insert_eq, dom_insert_L, Hdom.
    repeat split. apply NoDup_singleton.
  - destruct blk as [l r].
    pose proof (linked_lookup _ _ _ _ _ Hlinked) as Hl.
    destruct (linked_NoDup_mid _ _ _ _ _ Hlinked) as (Hlpre & _ & Hndpre & _).
    destruct Hlinked as (Hf & Hla & Hchain & Hnd & Hdom).
    rewrite fmap_app, fmap_cons in Hfresh. simpl in Hfresh.
    assert (Hbl : b <> l).
    { intros ->. apply Hfresh, elem_of_app. right. apply elem_of_cons. by left. }
    assert (Hbpre : b ∉ pre.*1).
    { intros Hin. apply Hfresh, elem_of_app. by left. }
    rewrite last_loc_app_cons in Hla. simpl in Hla. rewrite Hla. simpl.
    unfold Gdeque.set_next. simpl.
    rewrite insert_insert_eq, lookup_insert_ne, Hl by done. simpl.
    rewrite head_loc_cons_app in Hf.
    assert (Hfirst : exists f, Gdeque.first d = Some f).
    { rewrite Hf. destruct pre as [|[? ?] ?]; simpl; eauto. }
    destruct Hfirst as [f Hfirst]. rewrite Hfirst.
    eexists. split; [reflexivity|]. split; [|reflexivity].
    unfold Gdeque.linked. simpl. rewrite <- app_assoc. simpl.
    rewrite head_loc_cons_app, last_loc_app_cons, last_loc_cons.
    split; [congruence|]. split; [done|].
    apply chain_app in Hchain as [Hc1 _]. simpl in Hc1.
    split; [|split].
    + apply chain_app. split.
      * eapply chain_frame; [|exact Hc1]. intros l' Hin.
        rewrite !lookup_insert_ne; [done| |]; by intros ->.
      * simpl. rewrite lookup_insert_eq.
        rewrite lookup_insert_ne, lookup_insert_eq by done. done.
    + rewrite fmap_app, !fmap_cons. simpl.
      apply NoDup_app. split; [done|]. split.
      * intros x Hin Hx. apply elem_of_cons in Hx as [->|Hx]; [done|].
        apply elem_of_cons in Hx as [->|Hx]; [done|].
        by apply elem_of_nil in Hx.
      * apply NoDup_cons. split; [|apply NoDup_singleton].
        intros Hx. apply elem_of_cons in Hx as [->|Hx]; [done|].
        by apply elem_of_nil in Hx.
    + rewrite !dom_insert_L, Hdom, !fmap_app, !fmap_cons. simpl.
      rewrite !list_to_set_app_L, !list_to_set_cons. simpl.
      apply set_eq. intros x. rewrite !elem_of_union, !elem_of_singleton.
      tauto.
Qed.


Lemma last_loc_is_Some bs l : is_Some (Gdeque.last_loc bs (Some l)).
Proof.
  unfold Gdeque.last_loc. destruct (list.last bs) as [[? ?]|]; eauto.
Qed.

Lemma head_loc_is_Some bs l : is_Some (Gdeque.head_loc bs (Some l)).
Proof. destruct bs as [|[? ?] ?]; simpl; eauto. Qed.

(** [extend_first] links a new, empty block before the first one. *)
Lemma linked_extend_first d bs :
  Gdeque.linked d bs ->
  exists d',
    Gdeque.extend_first d = Some d'
    /\ Gdeque.linked d' ((fresh (dom (Gdeque.heap d)), ring_new) :: bs)
    /\ Gdeque.num d' = Gdeque.num d.
Proof.
  intros Hlinked. pose proof (linked_fresh _ _ Hlinked) as Hfresh.
  set (b := fresh (dom (Gdeque.heap d))) in *.
  unfold Gdeque.extend_first, Gdeque.alloc_block, Gdeque.set_next.
  fold b. simpl. rewrite lookup_insert_eq. simpl.
  destruct bs as [|[l r] post].
  - destruct Hlinked as (Hf & Hla & _ & _ & Hdom). simpl in Hf, Hla.
    rewrite Hf. simpl. rewrite Hla. eexists. split; [reflexivity|].
    split; [|reflexivity]. unfold Gdeque.linked. simpl.
    rewrite insert_insert_eq, lookup_insert_eq, dom_insert_L, Hdom.
    repeat split. apply NoDup_singleton.
  - pose proof (linked_lookup d [] l r post Hlinked) as Hl.
    destruct (linked_NoDup_mid d [] l r post Hlinked)
      as (_ & Hlpost & _ & Hndpost & _).
    destruct Hlinked as (Hf & Hla & Hchain & Hnd & Hdom).
    rewrite fmap_cons in Hfresh. simpl in Hfresh.
    assert (Hbl : b <> l).
    { intros ->. apply Hfresh, elem_of_cons. by left. }
    assert (Hbpost : b ∉ post.*1).
    { intros Hin. apply Hfresh, elem_of_cons. by right. }
    simpl in Hf. rewrite Hf. simpl.
    unfold Gdeque.set_prev. simpl.
    rewrite insert_insert_eq, lookup_insert_ne, Hl by done. simpl.
    rewrite last_loc_cons in Hla.
    destruct (last_loc_is_Some post l) as [e He].
    assert (Hlast : Gdeque.last d = Some e) by congruence. rewrite Hlast.
    eexists. split; [reflexivity|]. split; [|reflexivity].
    unfold Gdeque.linked. simpl. rewrite !last_loc_cons.
    split; [done|]. split; [congruence|].
    destruct Hchain as [_ Hc2].
    split; [|split].
    + rewrite lookup_insert_ne, lookup_insert_eq by done.
      split; [done|]. rewrite lookup_insert_eq. split; [done|].
      eapply chain_frame; [|exact Hc2]. intros l' Hin.
      rewrite !lookup_insert_ne; [done| |]; by intros ->.
    + apply NoDup_cons. split; [done|]. done.
    + rewrite !dom_insert_L, Hdom, !fmap_cons. simpl.
      apply set_eq. intros x. rewrite !elem_of_union, !elem_of_singleton.
      tauto.
Qed.


Lemma dom_delete_list h l (ls ls' : list Gdeque.loc) :
  dom h = list_to_set ls ->
  (forall x, x ∈ ls' <-> x ∈ ls /\ x <> l) ->
  dom (delete l h) = list_to_set ls'.
Proof.
  intros Hdom Hiff. rewrite dom_delete_L, Hdom. apply set_eq. intros x.
  rewrite elem_of_difference, !elem_of_list_to_set, elem_of_singleton.
  by rewrite Hiff.
Qed.

(** [shrink_first] unlinks and frees the first block. *)
Lemma linked_shrink_first d l r post :
  Gdeque.linked d ((l, r) :: post) ->
  exists d',
    Gdeque.shrink_first d = Some d'
    /\ Gdeque.linked d' post
    /\ Gdeque.num d' = Gdeque.num d.
Proof.
  intros Hlinked.
  pose proof (linked_lookup d [] l r post Hlinked) as Hl.
  destruct (linked_NoDup_mid d [] l r post Hlinked)
    as (_ & Hlpost & _ & Hndpost & _).
  assert (Hdel : forall x, x ∈ post.*1 <-> x ∈ ((l, r) :: post).*1 /\ x <> l).
  { intros x. rewrite fmap_cons, elem_of_cons. simpl. split.
    - intros Hin. split; [by right|]. by intros ->.
    - intros [[->|Hin] Hne]; done. }
  destruct Hlinked as (Hf & Hla & Hchain & Hnd & Hdom).
  simpl in Hf. unfold Gdeque.shrink_first. rewrite Hf. simpl.
  rewrite Hl. simpl.
  destruct post as [|[l2 r2] post'].
  - simpl. eexists. split; [reflexivity|]. split; [|reflexivity].
    unfold Gdeque.linked. simpl. repeat split; [apply NoDup_nil_2|].
    exact (dom_delete_list _ _ _ [] Hdom Hdel).
  - simpl. destruct Hchain as [_ [Hl2 Hc]].
    unfold Gdeque.set_prev. simpl. rewrite Hl2. simpl.
    rewrite fmap_cons in Hlpost. simpl in Hlpost.
    apply not_elem_of_cons in Hlpost as [Hll2 Hlpost'].
    apply NoDup_cons in Hndpost as Hnd2. destruct Hnd2 as [Hl2post _].
    eexists. split; [reflexivity|]. split; [|reflexivity].
    unfold Gdeque.linked. simpl.
    split; [done|]. split; [by rewrite Hla, !last_loc_cons|].
    split; [|split].
    + rewrite lookup_delete_ne, lookup_insert_eq by done. split; [done|].
      eapply chain_frame; [|exact Hc]. intros l' Hin.
      rewrite lookup_delete_ne, lookup_insert_ne; [done| |]; by intros ->.
    + done.
    + refine (dom_delete_list _ _ ((l, r) :: (l2, r2) :: post').*1
                ((l2, r2) :: post').*1 _ Hdel).
      rewrite dom_insert_lookup_L; [done|]. by rewrite Hl2.
Qed.

(** [shrink_last] unlinks and frees the last block. *)
Lemma linked_shrink_last d pre l r :
  Gdeque.linked d (pre ++ [(l, r)]) ->
  exists d',
    Gdeque.shrink_last d = Some d'
    /\ Gdeque.linked d' pre
    /\ Gdeque.num d' = Gdeque.num d.
Proof.
  intros Hlinked.
  pose proof (linked_lookup d pre l r [] Hlinked) as Hl.
  destruct (linked_NoDup_mid d pre l r [] Hlinked)
    as (Hlpre & _ & Hndpre & _).
  assert (Hdel : forall x,
            x ∈ pre.*1 <-> x ∈ (pre ++ [(l, r)]).*1 /\ x <> l).
  { intros x. rewrite fmap_app, elem_of_app, fmap_cons, elem_of_cons. simpl.
    split.
    - intros Hin. split; [by left|]. by intros ->.
    - intros [[Hin|[->|Hin]] Hne]; [done|done|]. by apply elem_of_nil in Hin. }
  assert (Hlinked' := Hlinked).
  destruct Hlinked as (Hf & Hla & Hchain & Hnd & Hdom).
  rewrite last_loc_app_cons in Hla. simpl in Hla.
  unfold Gdeque.shrink_last. rewrite Hla. simpl.
  rewrite Hl. simpl.
  destruct pre as [|[l2 r2] pre' _] using rev_ind.
  - simpl. eexists. split; [reflexivity|]. split; [|reflexivity].
    unfold Gdeque.linked. simpl. repeat split; [apply NoDup_nil_2|].
    exact (dom_delete_list _ _ _ [] Hdom Hdel).
  - rewrite last_loc_app_cons. simpl.
    rewrite <- app_assoc in Hlinked'. simpl in Hlinked'.
    pose proof (linked_lookup d pre' l2 r2 [(l, r)] Hlinked') as Hl2.
    simpl in Hl2.
    unfold Gdeque.set_next. simpl. rewrite Hl2. simpl.
    rewrite fmap_app, fmap_cons in Hlpre. simpl in Hlpre.
    assert (Hll2 : l <> l2).
    { intros ->. apply Hlpre, elem_of_app. right. apply elem_of_cons.
      by left. }
    assert (Hlpre' : l ∉ pre'.*1).
    { intros Hin. apply Hlpre, elem_of_app. by left. }
    destruct (linked_NoDup_mid d pre' l2 r2 [(l, r)] Hlinked')
      as (Hl2pre' & _).
    eexists. split; [reflexivity|]. split; [|reflexivity].
    unfold Gdeque.linked. simpl.
    split; [by rewrite Hf, !head_loc_cons_app|].
    split; [by rewrite last_loc_app_cons|].
    rewrite <- app_assoc in Hchain. simpl in Hchain.
    apply chain_app in Hchain as [Hc _]. simpl in Hc.
    split; [|split].
    + apply chain_app. split.
      * eapply chain_frame; [|exact Hc]. intros l' Hin.
        rewrite lookup_delete_ne, lookup_insert_ne; [done| |]; by intros ->.
      * simpl. by rewrite lookup_delete_ne, lookup_insert_eq.
    + done.
    + refine (dom_delete_list _ _ ((pre' ++ [(l2, r2)]) ++ [(l, r)]).*1
                (pre' ++ [(l2, r2)]).*1 _ Hdel).
      rewrite dom_insert_lookup_L; [done|]. by rewrite Hl2.
Qed.


Lemma items_cons l r bs :
  Gdeque.items ((l, r) :: bs) = ring_items r ++ Gdeque.items bs.
Proof. reflexivity. Qed.

Lemma items_singleton l r : Gdeque.items [(l, r)] = ring_items r.
Proof. unfold Gdeque.items. simpl. apply app_nil_r. Qed.

Lemma items_snoc bs l r :
  Gdeque.items (bs ++ [(l, r)]) = Gdeque.items bs ++ ring_items r.
Proof. by rewrite items_app, items_singleton. Qed.

(** What the laws of the ring give for each of its operations. *)
Lemma ring_push_back_Some v r :
  List.length (ring_items r) < CHUNK_SIZE ->
  exists r', ring_push_back v r = Some r'
             /\ ring_items r' = ring_items r ++ [v].
Proof.
  intros Hlt. pose proof (ring_push_back_items v r) as H.
  rewrite decide_True in H by done.
  destruct (ring_push_back v r) as [r'|]; simpl in H; [|done].
  exists r'. split; [done|]. by injection H.
Qed.

Lemma ring_push_back_inv v r r' :
  ring_push_back v r = Some r' -> ring_items r' = ring_items r ++ [v].
Proof.
  intros Heq. pose proof (ring_push_back_items v r) as H.
  rewrite Heq in H. simpl in H.
  destruct (decide _); [by injection H|done].
Qed.

Lemma ring_push_front_Some v r :
  List.length (ring_items r) < CHUNK_SIZE ->
  exists r', ring_push_front v r = Some r'
             /\ ring_items r' = v :: ring_items r.
Proof.
  intros Hlt. pose proof (ring_push_front_items v r) as H.
  rewrite decide_True in H by done.
  destruct (ring_push_front v r) as [r'|]; simpl in H; [|done].
  exists r'. split; [done|]. by injection H.
Qed.

Lemma ring_push_front_inv v r r' :
  ring_push_front v r = Some r' -> ring_items r' = v :: ring_items r.
Proof.
  intros Heq. pose proof (ring_push_front_items v r) as H.
  rewrite Heq in H. simpl in H.
  destruct (decide _); [by injection H|done].
Qed.

Lemma ring_new_has_room : List.length (ring_items ring_new) < CHUNK_SIZE.
Proof. rewrite ring_new_items. apply CHUNK_SIZE_positive. Qed.

(** The second half of [push_back]: a new last block takes the element. *)
Lemma extended_back d bs v :
  Gdeque.linked d bs ->
  exists d' r',
    (d1 ← Gdeque.extend_last d;
     l ← Gdeque.last d1;
     blk ← Gdeque.heap d1 !! l;
     r ← ring_push_back v (Gdeque.ring blk);
     Gdeque.set_ring l r d1) = Some d'
    /\ Gdeque.linked d' (bs ++ [(fresh (dom (Gdeque.heap d)), r')])
    /\ ring_items r' = [v]
    /\ Gdeque.num d' = Gdeque.num d.
Proof.
  intros Hl. destruct (linked_extend_last _ _ Hl) as (d1 & He & Hl1 & Hn1).
  rewrite He. simpl.
  assert (Hla : Gdeque.last d1 = Some (fresh (dom (Gdeque.heap d)))).
  { destruct Hl1 as (_ & Hla & _). by rewrite Hla, last_loc_snoc. }
  rewrite Hla. simpl. rewrite (linked_lookup _ _ _ _ _ Hl1). simpl.
  destruct (ring_push_back_Some v ring_new ring_new_has_room)
    as (r' & Hp & Hi).
  rewrite Hp. simpl.
  destruct (linked_set_ring _ _ _ _ r' _ Hl1) as (d2 & Hs & Hl2 & Hn2).
  exists d2, r'. split; [done|]. split; [done|].
  rewrite Hi, ring_new_items. split; [done|]. congruence.
Qed.

Lemma layout_push_back d bs v :
  Gdeque.layout d bs ->
  (Z.of_nat (List.length (Gdeque.items bs)) + 1 < Gdeque.UINT_MODULUS)%Z ->
  exists d' bs',
    Gdeque.push_back v d = Some d'
    /\ Gdeque.layout d' bs'
    /\ Gdeque.items bs' = Gdeque.items bs ++ [v].
Proof.
  intros Hlay Hroom. pose proof (layout_precondition _ _ Hlay) as Hpre.
  destruct Hlay as (Hlinked & Hne & Hnum & Hbound).
  unfold Gdeque.push_back. rewrite Hpre. cbv zeta.
  remember (Gdeque.set_num _ d) as d0 eqn:Hd0.
  assert (Hl0 : Gdeque.linked d0 bs) by (by rewrite Hd0).
  assert (Hn0 : Gdeque.num d0
                = (Z.of_nat (List.length (Gdeque.items bs)) + 1)%Z).
  { rewrite Hd0. simpl. rewrite Hnum. apply Z.mod_small. lia. }
  clear Hd0.
  destruct (extended_back d0 bs v Hl0) as (de & re & Hext & Hle & Hre & Hnde).
  assert (Hdone : Gdeque.layout de (bs ++ [(fresh (dom (Gdeque.heap d0)), re)])
                  /\ Gdeque.items (bs ++ [(fresh (dom (Gdeque.heap d0)), re)])
                     = Gdeque.items bs ++ [v]).
  { rewrite items_snoc, Hre. split; [|done].
    split; [done|]. split; [|split].
    - apply Forall_app. split; [done|]. apply Forall_singleton. simpl.
      by rewrite Hre.
    - rewrite items_snoc, Hre, length_app, Hnde, Hn0. simpl. lia.
    - lia. }
  destruct bs as [|[l r] pre _] using rev_ind.
  - destruct Hl0 as (_ & Hla & _). change (Gdeque.last d0 = None) in Hla.
    rewrite Hla, Hext. eauto.
  - assert (Hla : Gdeque.last d0 = Some l).
    { destruct Hl0 as (_ & Hla & _). by rewrite Hla, last_loc_snoc. }
    rewrite Hla. simpl. rewrite (linked_lookup _ _ _ _ _ Hl0). simpl.
    destruct (ring_push_back v r) as [r'|] eqn:Hp; [|rewrite Hext; eauto].
    destruct (linked_set_ring d0 pre l r r' [] Hl0) as (d2 & Hs & Hl2 & Hn2).
    apply ring_push_back_inv in Hp.
    rewrite Hs. exists d2, (pre ++ [(l, r')]). split; [done|].
    rewrite !items_snoc, Hp, app_assoc. split; [|done].
    apply Forall_app in Hne as [Hnepre _].
    split; [done|]. split; [|split].
    + apply Forall_app. split; [done|]. apply Forall_singleton. simpl.
      rewrite Hp. by destruct (ring_items r).
    + rewrite Hn2, Hn0, !items_snoc, Hp, !length_app. simpl. lia.
    + lia.
Qed.


(** The second half of [push_front]: a new first block takes the element. *)
Lemma extended_front d bs v :
  Gdeque.linked d bs ->
  exists d' r',
    (d1 ← Gdeque.extend_first d;
     f ← Gdeque.first d1;
     blk ← Gdeque.heap d1 !! f;
     r ← ring_push_front v (Gdeque.ring blk);
     Gdeque.set_ring f r d1) = Some d'
    /\ Gdeque.linked d' ((fresh (dom (Gdeque.heap d)), r') :: bs)
    /\ ring_items r' = [v]
    /\ Gdeque.num d' = Gdeque.num d.
Proof.
  intros Hl. destruct (linked_extend_first _ _ Hl) as (d1 & He & Hl1 & Hn1).
  rewrite He. simpl.
  assert (Hf : Gdeque.first d1 = Some (fresh (dom (Gdeque.heap d)))).
  { by destruct Hl1 as (Hf & _). }
  rewrite Hf. simpl.
  rewrite (linked_lookup d1 [] _ _ _ Hl1). simpl.
  destruct (ring_push_front_Some v ring_new ring_new_has_room)
    as (r' & Hp & Hi).
  rewrite Hp. simpl.
  destruct (linked_set_ring d1 [] _ _ r' _ Hl1) as (d2 & Hs & Hl2 & Hn2).
  exists d2, r'. split; [done|]. split; [done|].
  rewrite Hi, ring_new_items. split; [done|]. congruence.
Qed.

Lemma layout_push_front d bs v :
  Gdeque.layout d bs ->
  (Z.of_nat (List.length (Gdeque.items bs)) + 1 < Gdeque.UINT_MODULUS)%Z ->
  exists d' bs',
    Gdeque.push_front v d = Some d'
    /\ Gdeque.layout d' bs'
    /\ Gdeque.items bs' = v :: Gdeque.items bs.
Proof.
  intros Hlay Hroom. pose proof (layout_precondition _ _ Hlay) as Hpre.
  destruct Hlay as (Hlinked & Hne & Hnum & Hbound).
  unfold Gdeque.push_front. rewrite Hpre. cbv zeta.
  remember (Gdeque.set_num _ d) as d0 eqn:Hd0.
  assert (Hl0 : Gdeque.linked d0 bs) by (by rewrite Hd0).
  assert (Hn0 : Gdeque.num d0
                = (Z.of_nat (List.length (Gdeque.items bs)) + 1)%Z).
  { rewrite Hd0. simpl. rewrite Hnum. apply Z.mod_small. lia. }
  clear Hd0.
  destruct (extended_front d0 bs v Hl0) as (de & re & Hext & Hle & Hre & Hnde).
  assert (Hdone : Gdeque.layout de ((fresh (dom (Gdeque.heap d0)), re) :: bs)
                  /\ Gdeque.items ((fresh (dom (Gdeque.heap d0)), re) :: bs)
                     = v :: Gdeque.items bs).
  { rewrite items_cons, Hre. split; [|done].
    split; [done|]. split; [|split].
    - apply Forall_cons. split; [|done]. simpl. by rewrite Hre.
    - rewrite items_cons, Hre, Hnde, Hn0. simpl. lia.
    - lia. }
  destruct bs as [|[l r] post].
  - destruct Hl0 as (Hf & _). change (Gdeque.first d0 = None) in Hf.
    rewrite Hf, Hext. eauto.
  - assert (Hf : Gdeque.first d0 = Some l) by (by destruct Hl0 as (Hf & _)).
    rewrite Hf. simpl. rewrite (linked_lookup d0 [] _ _ _ Hl0). simpl.
    destruct (ring_push_front v r) as [r'|] eqn:Hp; [|rewrite Hext; eauto].
    destruct (linked_set_ring d0 [] l r r' post Hl0) as (d2 & Hs & Hl2 & Hn2).
    apply ring_push_front_inv in Hp.
    rewrite Hs. exists d2, ((l, r') :: post). split; [done|].
    rewrite !items_cons, Hp. split; [|done].
    apply Forall_cons in Hne as [_ Hnepost].
    split; [done|]. split; [|split].
    + apply Forall_cons. split; [|done]. simpl. by rewrite Hp.
    + rewrite Hn2, Hn0, !items_cons, Hp, !length_app. simpl. lia.
    + lia.
Qed.


Lemma ring_pop_back_Some r ys v :
  ring_items r = ys ++ [v] ->
  exists r', ring_pop_back r = Some r' /\ ring_items r' = ys.
Proof.
  intros Hr. pose proof (ring_pop_back_items r) as H.
  rewrite Hr, removelast_last in H.
  destruct (ring_pop_back r) as [r'|]; simpl in H.
  - exists r'. split; [done|]. destruct (ys ++ [v]) eqn:Hys.
    + by destruct ys.
    + by injection H.
  - destruct (ys ++ [v]) eqn:Hys; [by destruct ys|done].
Qed.

Lemma ring_pop_front_Some r v ys :
  ring_items r = v :: ys ->
  exists r', ring_pop_front r = Some r' /\ ring_items r' = ys.
Proof.
  intros Hr. pose proof (ring_pop_front_items r) as H. rewrite Hr in H.
  destruct (ring_pop_front r) as [r'|]; simpl in H; [|done].
  exists r'. split; [done|]. by injection H.
Qed.

Lemma layout_empty_false d bs :
  Gdeque.layout d bs -> bs <> [] -> Gdeque.empty d = Some false.
Proof.
  intros Hlay Hne. unfold Gdeque.empty.
  rewrite (layout_precondition _ _ Hlay). f_equal. apply Z.eqb_neq.
  by rewrite (layout_empty_iff _ _ Hlay).
Qed.

Lemma layout_empty_true d : Gdeque.layout d [] -> Gdeque.empty d = Some true.
Proof.
  intros Hlay. unfold Gdeque.empty.
  rewrite (layout_precondition _ _ Hlay). f_equal. apply Z.eqb_eq.
  by rewrite (layout_empty_iff _ _ Hlay).
Qed.

Lemma layout_pop_back d pre l r ys v :
  Gdeque.layout d (pre ++ [(l, r)]) ->
  ring_items r = ys ++ [v] ->
  exists d' bs',
    Gdeque.pop_back d = Some d'
    /\ Gdeque.layout d' bs'
    /\ Gdeque.items bs' = Gdeque.items pre ++ ys.
Proof.
  intros Hlay Hr. unfold Gdeque.pop_back.
  rewrite (layout_empty_false _ _ Hlay) by (by destruct pre).
  destruct Hlay as (Hlinked & Hne & Hnum & Hbound). cbv zeta.
  rewrite items_snoc, Hr, !length_app in Hnum. simpl in Hnum.
  remember (Gdeque.set_num _ d) as d0 eqn:Hd0.
  assert (Hl0 : Gdeque.linked d0 (pre ++ [(l, r)])) by (by rewrite Hd0).
  assert (Hn0 : Gdeque.num d0
                = Z.of_nat (List.length (Gdeque.items pre ++ ys))).
  { rewrite Hd0. simpl. rewrite length_app, Z.mod_small by lia. lia. }
  clear Hd0.
  assert (Hla : Gdeque.last d0 = Some l).
  { destruct Hl0 as (_ & Hla & _). by rewrite Hla, last_loc_snoc. }
  rewrite Hla. simpl. rewrite (linked_lookup _ _ _ _ _ Hl0). simpl.
  destruct (ring_pop_back_Some r ys v Hr) as (r' & Hp & Hi).
  rewrite Hp. simpl.
  destruct (linked_set_ring d0 pre l r r' [] Hl0) as (d1 & Hs & Hl1 & Hn1).
  rewrite Hs. simpl. apply Forall_app in Hne as [Hnepre _].
  unfold Gdeque.ring_empty. rewrite Hi.
  destruct ys as [|y ys].
  - destruct (linked_shrink_last d1 pre l r' Hl1) as (d2 & Hsh & Hl2 & Hn2).
    rewrite Hsh. exists d2, pre. split; [done|]. rewrite app_nil_r in *.
    split; [|done]. split; [done|]. split; [done|]. simpl in Hnum.
    split; [congruence|lia].
  - exists d1, (pre ++ [(l, r')]). split; [done|]. rewrite items_snoc, Hi.
    split; [|done]. split; [done|]. split; [|split].
    + apply Forall_app. split; [done|]. apply Forall_singleton. simpl.
      by rewrite Hi.
    + rewrite items_snoc, Hi. congruence.
    + rewrite length_app in Hn0. simpl in *. lia.
Qed.

Lemma layout_pop_front d l r post v ys :
  Gdeque.layout d ((l, r) :: post) ->
  ring_items r = v :: ys ->
  exists d' bs',
    Gdeque.pop_front d = Some d'
    /\ Gdeque.layout d' bs'
    /\ Gdeque.items bs' = ys ++ Gdeque.items post.
Proof.
  intros Hlay Hr. unfold Gdeque.pop_front.
  rewrite (layout_empty_false _ _ Hlay) by done.
  destruct Hlay as (Hlinked & Hne & Hnum & Hbound). cbv zeta.
  rewrite items_cons, Hr, length_app in Hnum. cbn [List.length] in Hnum.
  remember (Gdeque.set_num _ d) as d0 eqn:Hd0.
  assert (Hl0 : Gdeque.linked d0 ((l, r) :: post)) by (by rewrite Hd0).
  assert (Hn0 : Gdeque.num d0
                = Z.of_nat (List.length (ys ++ Gdeque.items post))).
  { rewrite Hd0. simpl. rewrite length_app, Z.mod_small by lia. lia. }
  clear Hd0.
  assert (Hf : Gdeque.first d0 = Some l) by (by destruct Hl0 as (Hf & _)).
  rewrite Hf. simpl. rewrite (linked_lookup d0 [] _ _ _ Hl0). simpl.
  destruct (ring_pop_front_Some r v ys Hr) as (r' & Hp & Hi).
  rewrite Hp. simpl.
  destruct (linked_set_ring d0 [] l r r' post Hl0) as (d1 & Hs & Hl1 & Hn1).
  rewrite Hs. simpl. apply Forall_cons in Hne as [_ Hnepost].
  unfold Gdeque.ring_empty. rewrite Hi.
  destruct ys as [|y ys].
  - destruct (linked_shrink_first d1 l r' post Hl1) as (d2 & Hsh & Hl2 & Hn2).
    rewrite Hsh. exists d2, post. split; [done|]. simpl in *.
    split; [|done]. split; [done|]. split; [done|].
    split; [congruence|lia].
  - exists d1, ((l, r') :: post). split; [done|]. rewrite items_cons, Hi.
    split; [|done]. split; [done|]. split; [|split].
    + apply Forall_cons. split; [|done]. simpl. by rewrite Hi.
    + rewrite items_cons, Hi. congruence.
    + rewrite length_app in Hn0. simpl in *. lia.
Qed.


Lemma layout_observers d bs :
  Gdeque.layout d bs ->
  Gdeque.size d = Some (Z.of_nat (List.length (Gdeque.items bs)))
  /\ Gdeque.empty d = Some match Gdeque.items bs with
                            | [] => true
                            | _ => false
                            end
  /\ Gdeque.front d = head (Gdeque.items bs)
  /\ Gdeque.back d = list.last (Gdeque.items bs).
Proof.
  intros Hlay. assert (Hlay' := Hlay).
  destruct Hlay' as (Hlinked & Hne & Hnum & Hbound).
  split; [|split; [|split]].
  - unfold Gdeque.size. by rewrite (layout_precondition _ _ Hlay), Hnum.
  - destruct bs as [|[l r] post]; [by apply layout_empty_true|].
    rewrite (layout_empty_false _ _ Hlay) by done.
    apply Forall_cons in Hne as [Hr _]. simpl in Hr. rewrite items_cons.
    by destruct (ring_items r).
  - unfold Gdeque.front. destruct bs as [|[l r] post].
    + by rewrite (layout_empty_true _ Hlay).
    + rewrite (layout_empty_false _ _ Hlay) by done.
      destruct Hlinked as (Hf & _). simpl in Hf. rewrite Hf. simpl.
      rewrite (linked_lookup d [] l r post (proj1 Hlay)). simpl.
      apply Forall_cons in Hne as [Hr _]. simpl in Hr. rewrite items_cons.
      unfold Gdeque.ring_front. by destruct (ring_items r).
  - unfold Gdeque.back. destruct bs as [|[l r] pre _] using rev_ind.
    + by rewrite (layout_empty_true _ Hlay).
    + rewrite (layout_empty_false _ _ Hlay) by (by destruct pre).
      destruct Hlinked as (_ & Hla & _). rewrite last_loc_snoc in Hla.
      rewrite Hla. simpl.
      rewrite (linked_lookup d pre l r [] (proj1 Hlay)). simpl.
      apply Forall_app in Hne as [_ Hr]. rewrite Forall_singleton in Hr.
      simpl in Hr. rewrite items_snoc. unfold Gdeque.ring_back.
      rewrite last_app. apply last_is_Some in Hr as [y Hy]. by rewrite Hy.
Qed.

Lemma clear_loop_linked bs :
  forall d fuel,
    Gdeque.linked d bs -> List.length bs <= fuel ->
    exists d',
      Gdeque.clear_loop fuel d = Some d'
      /\ Gdeque.linked d' [] /\ Gdeque.num d' = Gdeque.num d.
Proof.
  induction bs as [|[l r] post IH]; intros d fuel Hl Hfuel.
  - exists d. destruct Hl as (Hf & Hrest). simpl in Hf.
    split; [|by split]. destruct fuel; simpl; by rewrite Hf.
  - destruct fuel as [|fuel]; [simpl in Hfuel; lia|].
    assert (Hf : Gdeque.first d = Some l) by (by destruct Hl as (Hf & _)).
    simpl. rewrite Hf, (linked_lookup d [] l r post Hl). simpl.
    destruct (linked_set_ring d [] l r (ring_clear r) post Hl)
      as (d1 & Hs & Hl1 & Hn1).
    rewrite Hs. simpl.
    destruct (linked_shrink_first d1 l _ post Hl1) as (d2 & Hsh & Hl2 & Hn2).
    rewrite Hsh. simpl.
    destruct (IH d2 fuel Hl2) as (d3 & Hc & Hl3 & Hn3);
      [simpl in Hfuel; lia|].
    exists d3. split; [done|]. split; [done|]. congruence.
Qed.

Lemma linked_heap_size d bs :
  Gdeque.linked d bs -> base.size (Gdeque.heap d) = List.length bs.
Proof.
  intros (_ & _ & _ & Hnd & Hdom).
  by rewrite <- size_dom, Hdom, size_list_to_set, length_fmap.
Qed.

Lemma layout_clear d bs :
  Gdeque.layout d bs -> Gdeque.clear d = Some Gdeque.gdeque_new.
Proof.
  intros Hlay. unfold Gdeque.clear.
  rewrite (layout_precondition _ _ Hlay).
  destruct Hlay as (Hlinked & _).
  destruct (clear_loop_linked bs d (base.size (Gdeque.heap d)) Hlinked)
    as (d' & Hc & (Hf & Hla & _ & _ & Hdom) & _).
  { by rewrite (linked_heap_size _ _ Hlinked). }
  rewrite Hc. simpl. f_equal. destruct d' as [f la n h]. simpl in *.
  apply dom_empty_inv_L in Hdom. unfold Gdeque.set_num, Gdeque.gdeque_new.
  simpl. by subst.
Qed.


Lemma traverse_end fuel d :
  Gdeque.traverse fuel d {| Gdeque.b := None; Gdeque.offset := 0 |} = Some [].
Proof. by destruct fuel. Qed.

(** A traversal that stands at element [k] of a block meets the rest of
    that block and then the blocks after it. *)
Lemma traverse_from fuel :
  forall d pre l r post k,
    Gdeque.layout d (pre ++ (l, r) :: post) ->
    k < List.length (ring_items r) ->
    List.length (drop k (ring_items r)) + List.length (Gdeque.items post)
      <= fuel ->
    Gdeque.traverse fuel d
      {| Gdeque.b := Some l; Gdeque.offset := Z.of_nat k |}
    = Some (drop k (ring_items r) ++ Gdeque.items post).
Proof.
  induction fuel as [|fuel IH]; intros d pre l r post k Hlay Hk Hfuel.
  { rewrite length_drop in Hfuel. lia. }
  assert (Hlay' := Hlay). destruct Hlay' as (Hlinked & Hne & Hnum & Hbound).
  rewrite items_app, items_cons, !length_app in Hnum.
  pose proof (linked_lookup _ _ _ _ _ Hlinked) as Hl.
  destruct (lookup_lt_is_Some_2 (ring_items r) k Hk) as [x Hx].
  rewrite (drop_S _ _ _ Hx).
  cbn [Gdeque.traverse]. unfold Gdeque.iterator_eq. cbn [Gdeque.b].
  rewrite bool_decide_eq_false_2 by done. cbn [andb].
  unfold Gdeque.iterator_get, Gdeque.advance. cbn [Gdeque.b Gdeque.offset].
  simpl. rewrite Hl. simpl. unfold Gdeque.ring_getAt.
  replace (Z.of_nat k <? 0)%Z with false by (symmetry; apply Z.ltb_ge; lia).
  rewrite Nat2Z.id, Hx. simpl.
  rewrite Z.mod_small by lia. unfold Gdeque.ring_size.
  destruct (Z.eqb_spec (Z.of_nat k + 1) (Z.of_nat (List.length (ring_items r))))
    as [Hend|Hmore].
  - rewrite drop_ge by lia. simpl.
    destruct post as [|[l2 r2] post'].
    + simpl. by rewrite traverse_end.
    + assert (Hr2 : ring_items r2 <> []).
      { apply Forall_app in Hne as [_ Hne]. apply Forall_cons in Hne as [_ Hne].
        by apply Forall_cons in Hne as [Hne _]. }
      assert (Hih := IH d (pre ++ [(l, r)]) l2 r2 post' 0).
      rewrite drop_0 in Hih. change (Z.of_nat 0) with 0%Z in Hih. cbn [Gdeque.head_loc].
      cbn [mbind option_bind]. rewrite Hih; [done| | |].
      * by rewrite <- app_assoc.
      * destruct (ring_items r2); [done|]. simpl. lia.
      * rewrite length_drop in Hfuel.
        rewrite items_cons, length_app in Hfuel. lia.
  - replace (Z.of_nat k + 1)%Z with (Z.of_nat (S k)) by lia.
    cbn [mbind option_bind].
    rewrite (IH d pre l r post (S k)); [done|done|lia|].
    rewrite length_drop in *. lia.
Qed.

Lemma layout_to_list d bs :
  Gdeque.layout d bs -> Gdeque.to_list d = Some (Gdeque.items bs).
Proof.
  intros Hlay. unfold Gdeque.to_list, Gdeque.begin.
  rewrite (layout_precondition _ _ Hlay). simpl.
  assert (Hlay' := Hlay). destruct Hlay' as ((Hf & _) & Hne & Hnum & _).
  rewrite Hf. destruct bs as [|[l r] post]; [apply traverse_end|].
  simpl. rewrite items_cons, <- (drop_0 (ring_items r)).
  apply (traverse_from _ d [] l r post 0 Hlay).
  - apply Forall_cons in Hne as [Hr _]. simpl in Hr.
    destruct (ring_items r); [done|]. simpl. lia.
  - rewrite Hnum, Nat2Z.id, drop_0, items_cons, length_app. lia.
Qed.


Lemma represents_new : Gdeque.represents Gdeque.gdeque_new [].
Proof.
  exists []. split; [|done]. split; [|split; [done|split; [done|done]]].
  split; [done|]. split; [done|]. split; [done|].
  split; [apply NoDup_nil_2|]. simpl. apply dom_empty_L.
Qed.

Lemma represents_pop_back d xs :
  Gdeque.represents d xs ->
  match xs with
  | [] => Gdeque.pop_back d = None
  | _ => exists d', Gdeque.pop_back d = Some d'
                    /\ Gdeque.represents d' (removelast xs)
  end.
Proof.
  intros (bs & Hlay & <-). destruct bs as [|[l r] pre _] using rev_ind.
  - simpl. unfold Gdeque.pop_back. by rewrite (layout_empty_true _ Hlay).
  - assert (Hr : ring_items r <> []).
    { destruct Hlay as (_ & Hne & _). apply Forall_app in Hne as [_ Hne].
      by rewrite Forall_singleton in Hne. }
    destruct (ring_items r) as [|v ys _] eqn:Hitems using rev_ind; [done|].
    rewrite items_snoc, Hitems, app_assoc.
    destruct (layout_pop_back d pre l r ys v Hlay Hitems)
      as (d' & bs' & ? & ? & ?).
    destruct ((Gdeque.items pre ++ ys) ++ [v]) eqn:Hnil.
    { by apply app_eq_nil in Hnil as [_ ?]. }
    rewrite <- Hnil, removelast_last.
    exists d'. split; [done|]. by exists bs'.
Qed.

Lemma represents_pop_front d xs :
  Gdeque.represents d xs ->
  match xs with
  | [] => Gdeque.pop_front d = None
  | _ :: rest => exists d', Gdeque.pop_front d = Some d'
                            /\ Gdeque.represents d' rest
  end.
Proof.
  intros (bs & Hlay & <-). destruct bs as [|[l r] post].
  - simpl. unfold Gdeque.pop_front. by rewrite (layout_empty_true _ Hlay).
  - assert (Hr : ring_items r <> []).
    { destruct Hlay as (_ & Hne & _). by apply Forall_cons in Hne as [Hne _]. }
    rewrite items_cons. destruct (ring_items r) as [|v ys] eqn:Hitems; [done|].
    destruct (layout_pop_front d l r post v ys Hlay Hitems)
      as (d' & bs' & ? & ? & ?).
    simpl. exists d'. split; [done|]. by exists bs'.
Qed.

(** One call on a deque that holds [xs] does what the same call does on
    [xs]. *)
Lemma call_refines c d xs :
  Gdeque.represents d xs ->
  (Z.of_nat (List.length xs) + 1 < Gdeque.UINT_MODULUS)%Z ->
  match Gdeque.call_list c xs with
  | Some ys =>
      exists d', Gdeque.call_deque c d = Some d' /\ Gdeque.represents d' ys
  | None => Gdeque.call_deque c d = None
  end.
Proof.
  intros Hrep Hroom. destruct c as [v|v| | |]; simpl.
  - destruct Hrep as (bs & Hlay & <-).
    destruct (layout_push_back d bs v Hlay Hroom) as (d' & bs' & ? & ? & ?).
    exists d'. split; [done|]. by exists bs'.
  - destruct Hrep as (bs & Hlay & <-).
    destruct (layout_push_front d bs v Hlay Hroom) as (d' & bs' & ? & ? & ?).
    exists d'. split; [done|]. by exists bs'.
  - pose proof (represents_pop_back d xs Hrep) as Hpop. by destruct xs.
  - pose proof (represents_pop_front d xs Hrep) as Hpop. by destruct xs.
  - destruct Hrep as (bs & Hlay & <-).
    exists Gdeque.gdeque_new. split; [by eapply layout_clear|].
    apply represents_new.
Qed.

Lemma call_list_length c xs ys :
  Gdeque.call_list c xs = Some ys -> List.length ys <= S (List.length xs).
Proof.
  destruct c as [v|v| | |]; simpl.
  - intros [= <-]. rewrite length_app. simpl. lia.
  - intros [= <-]. simpl. lia.
  - destruct xs as [|x xs _] using rev_ind; [done|].
    destruct (xs ++ [x]) eqn:Hnil; [by apply app_eq_nil in Hnil as [_ ?]|].
    rewrite <- Hnil, removelast_last. intros [= <-].
    rewrite length_app. lia.
  - destruct xs; [done|]. intros [= <-]. simpl. lia.
  - intros [= <-]. simpl. lia.
Qed.

Lemma run_refines cs :
  forall d xs,
    Gdeque.represents d xs ->
    (Z.of_nat (List.length xs + List.length cs) < Gdeque.UINT_MODULUS)%Z ->
    match Gdeque.run_list cs xs with
    | Some ys =>
        exists d', Gdeque.run cs d = Some d' /\ Gdeque.represents d' ys
    | None => Gdeque.run cs d = None
    end.
Proof.
  induction cs as [|c cs IH]; intros d xs Hrep Hroom; simpl.
  - by exists d.
  - pose proof (call_refines c d xs Hrep) as Hc.
    pose proof (call_list_length c xs) as Hlen.
    simpl in Hroom.
    destruct (Gdeque.call_list c xs) as [ys|]; simpl.
    + destruct Hc as (d' & -> & Hrep'); [lia|]. simpl.
      apply IH; [done|]. specialize (Hlen ys eq_refl). lia.
    + rewrite Hc; [done|lia].
Qed.


Lemma blocks_at_most_items bs :
  Forall (fun blk => ring_items blk.2 <> []) bs ->
  List.length bs <= List.length (Gdeque.items bs).
Proof.
  induction bs as [|[l r] bs IH]; [done|]. intros Hne.
  apply Forall_cons in Hne as [Hr Hne]. simpl in Hr.
  rewrite items_cons, length_app. specialize (IH Hne).
  destruct (ring_items r); [done|]. simpl. lia.
Qed.

Lemma set_ring_fields l r d d' :
  Gdeque.set_ring l r d = Some d' ->
  Gdeque.first d' = Gdeque.first d /\ Gdeque.last d' = Gdeque.last d
  /\ Gdeque.num d' = Gdeque.num d.
Proof.
  unfold Gdeque.set_ring. destruct (Gdeque.heap d !! l); [|done].
  by intros [= <-].
Qed.

Lemma extend_last_fields d d' :
  Gdeque.extend_last d = Some d' ->
  is_Some (Gdeque.last d') /\ Gdeque.num d' = Gdeque.num d.
Proof.
  unfold Gdeque.extend_last, Gdeque.alloc_block, Gdeque.set_prev. simpl.
  rewrite lookup_insert_eq. simpl.
  destruct (Gdeque.last d) as [l|]; simpl.
  - unfold Gdeque.set_next. simpl.
    destruct (_ !! l); [|done]. simpl.
    destruct (Gdeque.first d); intros [= <-]; simpl; eauto.
  - destruct (Gdeque.first d); intros [= <-]; simpl; eauto.
Qed.

(** Property X15.  [push_back] on a deque that holds the sequence [xs],
    with room left in the 32-bit counter, returns, and the deque then holds
    [xs] followed by the new element: whether it was empty, had room in
    its last block, or needed a new block linked after the last one. *)
Theorem push_back_appends d xs (v : T) :
  Gdeque.represents d xs ->
  (Z.of_nat (List.length xs) + 1 < Gdeque.UINT_MODULUS)%Z ->
  exists d', Gdeque.push_back v d = Some d'
             /\ Gdeque.represents d' (xs ++ [v]).
Proof.
  intros (bs & Hlay & <-) Hroom.
  destruct (layout_push_back d bs v Hlay Hroom) as (d' & bs' & ? & ? & ?).
  exists d'. split; [done|]. by exists bs'.
Qed.

(** Property X16.  [push_front] on a deque that holds [xs], with room left
    in the counter, returns, and the deque then holds the new element
    followed by [xs]. *)
Theorem push_front_prepends d xs (v : T) :
  Gdeque.represents d xs ->
  (Z.of_nat (List.length xs) + 1 < Gdeque.UINT_MODULUS)%Z ->
  exists d', Gdeque.push_front v d = Some d'
             /\ Gdeque.represents d' (v :: xs).
Proof.
  intros (bs & Hlay & <-) Hroom.
  destruct (layout_push_front d bs v Hlay Hroom) as (d' & bs' & ? & ? & ?).
  exists d'. split; [done|]. by exists bs'.
Qed.

(** Property X17.  [pop_back] on a deque that holds [xs] followed by [v]
    returns and leaves a deque that holds [xs]; a last block that became
    empty is unlinked and freed. *)
Theorem pop_back_removes_last d xs (v : T) :
  Gdeque.represents d (xs ++ [v]) ->
  exists d', Gdeque.pop_back d = Some d' /\ Gdeque.represents d' xs.
Proof.
  intros Hrep. pose proof (represents_pop_back _ _ Hrep) as Hpop.
  rewrite removelast_last in Hpop.
  destruct (xs ++ [v]) eqn:Hnil; [|done].
  by apply app_eq_nil in Hnil as [_ ?].
Qed.

(** Property X18.  [pop_front] on a deque that holds [v] followed by [xs]
    returns and leaves a deque that holds [xs]; a first block that became
    empty is unlinked and freed. *)
Theorem pop_front_removes_first d xs (v : T) :
  Gdeque.represents d (v :: xs) ->
  exists d', Gdeque.pop_front d = Some d' /\ Gdeque.represents d' xs.
Proof. intros Hrep. exact (represents_pop_front _ _ Hrep). Qed.

(** Property X19.  On a deque that holds [xs], [size] is the length of
    [xs], [empty] tells whether [xs] is empty, and [front] and [back] are
    the first and the last element of [xs]; on the empty deque [front] and
    [back] stop at their assertion. *)
Theorem observers_read_the_sequence d xs :
  Gdeque.represents d xs ->
  Gdeque.size d = Some (Z.of_nat (List.length xs))
  /\ Gdeque.empty d = Some match xs with
                            | [] => true
                            | _ => false
                            end
  /\ Gdeque.front d = head xs
  /\ Gdeque.back d = list.last xs.
Proof. intros (bs & Hlay & <-). by apply layout_observers. Qed.

(** Property X20.  On a deque that holds [xs], [pop_back] and [pop_front]
    stop (at [assert(!empty())]) exactly when [xs] is empty. *)
Theorem pops_stop_exactly_on_empty d xs :
  Gdeque.represents d xs ->
  (Gdeque.pop_back d = None <-> xs = [])
  /\ (Gdeque.pop_front d = None <-> xs = []).
Proof.
  intros Hrep.
  pose proof (represents_pop_back _ _ Hrep) as Hback.
  pose proof (represents_pop_front _ _ Hrep) as Hfront.
  destruct xs as [|x xs]; [done|].
  destruct Hback as (d1 & -> & _). destruct Hfront as (d2 & -> & _).
  done.
Qed.

(** Property X21.  [clear] on a deque that holds any sequence returns the
    deque as it is constructed: no element, both pointers null, and every
    block freed. *)
Theorem clear_frees_every_block d xs :
  Gdeque.represents d xs -> Gdeque.clear d = Some Gdeque.gdeque_new.
Proof. intros (bs & Hlay & _). by eapply layout_clear. Qed.

(** Property X22.  A traversal from [begin()] that advances until the
    iterator equals [end()] reads, by [operator*], exactly the elements of
    the deque, in order, across the blocks. *)
Theorem traversal_yields_the_sequence d xs :
  Gdeque.represents d xs -> Gdeque.to_list d = Some xs.
Proof. intros (bs & Hlay & <-). by apply layout_to_list. Qed.

(** Property X23.  A run of calls on a deque that holds [xs] goes as the
    same run on the sequence [xs], as long as the counter cannot overflow:
    where the run on the sequence is defined, the run on the deque returns
    a deque that holds its result; where it is not (an element is taken
    from the empty sequence), the run on the deque stops. *)
Theorem deque_refines_sequence (cs : list Gdeque.Call) d xs :
  Gdeque.represents d xs ->
  (Z.of_nat (List.length xs + List.length cs) < Gdeque.UINT_MODULUS)%Z ->
  match Gdeque.run_list cs xs with
  | Some ys =>
      exists d', Gdeque.run cs d = Some d' /\ Gdeque.represents d' ys
  | None => Gdeque.run cs d = None
  end.
Proof. intros Hrep Hroom. by apply run_refines. Qed.

(** Property X24.  Whatever calls led from a new deque to a deque, it
    reads back, by traversal and by [size], as the sequence the same calls
    compute, and it owns at most one block per element: no call leaves an
    empty block behind. *)
Theorem reachable_deques_hold_no_empty_block (cs : list Gdeque.Call) d :
  (Z.of_nat (List.length cs) < Gdeque.UINT_MODULUS)%Z ->
  Gdeque.run cs Gdeque.gdeque_new = Some d ->
  exists xs,
    Gdeque.run_list cs [] = Some xs
    /\ Gdeque.to_list d = Some xs
    /\ Gdeque.size d = Some (Z.of_nat (List.length xs))
    /\ base.size (Gdeque.heap d) <= List.length xs.
Proof.
  intros Hroom Hrun.
  pose proof (run_refines cs Gdeque.gdeque_new [] represents_new Hroom)
    as Href.
  destruct (Gdeque.run_list cs []) as [xs|]; [|congruence].
  destruct Href as (d' & Hrun' & (bs & Hlay & <-)).
  assert (d' = d) as -> by congruence.
  exists (Gdeque.items bs). split; [done|].
  split; [by apply layout_to_list|].
  split; [by apply layout_observers|].
  rewrite (linked_heap_size d bs (proj1 Hlay)).
  apply blocks_at_most_items. by destruct Hlay as (_ & Hne & _).
Qed.

(** Property X25.  The counter is an [unsigned]: a [push_back] that
    returns on a deque whose counter is at [2^32 - 1] leaves the counter at
    0 with the blocks in place, so that [precondition()] no longer holds
    and [size], [empty] and every later call stop at their assertion. *)
Theorem push_back_wraps_the_counter d d' (v : T) :
  Gdeque.precondition d = true ->
  Gdeque.num d = (Gdeque.UINT_MODULUS - 1)%Z ->
  Gdeque.push_back v d = Some d' ->
  Gdeque.num d' = 0%Z
  /\ Gdeque.precondition d' = false
  /\ Gdeque.size d' = None
  /\ Gdeque.empty d' = None
  /\ (forall v', Gdeque.push_back v' d' = None)
  /\ Gdeque.pop_back d' = None
  /\ Gdeque.clear d' = None.
Proof.
  intros Hpre Hnum Hpush.
  assert (Hfields : Gdeque.num d' = 0%Z /\ is_Some (Gdeque.last d')).
  { unfold Gdeque.push_back in Hpush. rewrite Hpre in Hpush.
    cbv zeta in Hpush.
    remember (Gdeque.set_num _ d) as d0 eqn:Hd0.
    assert (Hn0 : Gdeque.num d0 = 0%Z).
    { rewrite Hd0. simpl. rewrite Hnum.
      by replace (Gdeque.UINT_MODULUS - 1 + 1)%Z
        with (1 * Gdeque.UINT_MODULUS)%Z by lia. }
    clear Hd0.
    assert (Hext : forall d2,
              (d1 ← Gdeque.extend_last d0;
               l ← Gdeque.last d1;
               blk ← Gdeque.heap d1 !! l;
               r ← ring_push_back v (Gdeque.ring blk);
               Gdeque.set_ring l r d1) = Some d2 ->
              Gdeque.num d2 = 0%Z /\ is_Some (Gdeque.last d2)).
    { intros d2. destruct (Gdeque.extend_last d0) as [d1|] eqn:He; [|done].
      simpl. apply extend_last_fields in He as [[l Hl] Hn1].
      rewrite Hl. simpl. destruct (Gdeque.heap d1 !! l); [|done]. simpl.
      destruct (ring_push_back v _); [|done]. simpl.
      intros (_ & Hla & Hn)%set_ring_fields.
      split; [congruence|]. rewrite Hla, Hl. eauto. }
    destruct (Gdeque.last d0) as [l|] eqn:Hl; [|by apply Hext].
    simpl in Hpush. destruct (Gdeque.heap d0 !! l) as [blk|]; [|done].
    simpl in Hpush. destruct (ring_push_back v (Gdeque.ring blk));
      [|by apply Hext].
    apply set_ring_fields in Hpush as (_ & Hla & Hn).
    split; [congruence|]. rewrite Hla, Hl. eauto. }
  destruct Hfields as [Hzero [l Hl]].
  assert (Hbroken : Gdeque.precondition d' = false).
  { unfold Gdeque.precondition. rewrite Hzero, Hl.
    rewrite (bool_decide_eq_false_2 (Some l = None)) by done.
    by rewrite andb_false_r. }
  unfold Gdeque.size, Gdeque.empty, Gdeque.push_back, Gdeque.pop_back,
    Gdeque.clear, Gdeque.empty.
  by rewrite Hbroken.
Qed.

End GdequeProperties.

(** * The deque at work on the sample *)

Lemma four_deque_represents :
  @Gdeque.represents Z small_ring four_deque [5; 10; 20; 30]%Z.
Proof.
  exists four_blocks. split; [|reflexivity].
  split; [|split; [|split; reflexivity]].
  - split; [reflexivity|]. split; [reflexivity|].
    split; [by vm_compute|]. split; [|by vm_compute].
    by apply (bool_decide_unpack _).
  - repeat constructor; discriminate.
Qed.

Example sample_deque_is_four_deque : sample_deque = Some four_deque.
Proof. by vm_compute. Qed.

Lemma push_back_appends_witness :
  @Gdeque.represents Z small_ring four_deque [5; 10; 20; 30]%Z
  /\ (Z.of_nat (List.length [5; 10; 20; 30]%Z) + 1
      < Gdeque.UINT_MODULUS)%Z
  /\ exists d',
       Gdeque.push_back 40%Z four_deque = Some d'
       /\ Gdeque.represents d' ([5; 10; 20; 30] ++ [40])%Z.
Proof.
  split; [exact four_deque_represents|]. split; [reflexivity|].
  apply (@push_back_appends Z small_ring four_deque [5; 10; 20; 30]%Z 40%Z
           four_deque_represents).
  reflexivity.
Defined.

Lemma push_front_prepends_witness :
  @Gdeque.represents Z small_ring four_deque [5; 10; 20; 30]%Z
  /\ (Z.of_nat (List.length [5; 10; 20; 30]%Z) + 1
      < Gdeque.UINT_MODULUS)%Z
  /\ exists d',
       Gdeque.push_front 1%Z four_deque = Some d'
       /\ Gdeque.represents d' (1 :: [5; 10; 20; 30])%Z.
Proof.
  split; [exact four_deque_represents|]. split; [reflexivity|].
  apply (@push_front_prepends Z small_ring four_deque [5; 10; 20; 30]%Z 1%Z
           four_deque_represents).
  reflexivity.
Defined.

Lemma pop_back_removes_last_witness :
  @Gdeque.represents Z small_ring four_deque ([5; 10; 20] ++ [30])%Z
  /\ exists d',
       Gdeque.pop_back four_deque = Some d'
       /\ Gdeque.represents d' [5; 10; 20]%Z.
Proof.
  split; [exact four_deque_represents|].
  exact (@pop_back_removes_last Z small_ring four_deque [5; 10; 20]%Z 30%Z
           four_deque_represents).
Defined.

Lemma pop_front_removes_first_witness :
  @Gdeque.represents Z small_ring four_deque (5 :: [10; 20; 30])%Z
  /\ exists d',
       Gdeque.pop_front four_deque = Some d'
       /\ Gdeque.represents d' [10; 20; 30]%Z.
Proof.
  split; [exact four_deque_represents|].
  exact (@pop_front_removes_first Z small_ring four_deque [10; 20; 30]%Z 5%Z
           four_deque_represents).
Defined.

Lemma observers_read_the_sequence_witness :
  @Gdeque.represents Z small_ring four_deque [5; 10; 20; 30]%Z
  /\ Gdeque.size four_deque = Some 4%Z
  /\ Gdeque.empty four_deque = Some false
  /\ Gdeque.front four_deque = Some 5%Z
  /\ Gdeque.back four_deque = Some 30%Z.
Proof.
  split; [exact four_deque_represents|].
  exact (@observers_read_the_sequence Z small_ring four_deque
           [5; 10; 20; 30]%Z four_deque_represents).
Defined.

Lemma pops_stop_exactly_on_empty_witness :
  @Gdeque.represents Z small_ring Gdeque.gdeque_new []
  /\ Gdeque.pop_back (@Gdeque.gdeque_new Z small_ring) = None
  /\ Gdeque.pop_front (@Gdeque.gdeque_new Z small_ring) = None.
Proof.
  split; [exact (@represents_new Z small_ring)|].
  destruct (@pops_stop_exactly_on_empty Z small_ring Gdeque.gdeque_new []
              (@represents_new Z small_ring)) as [Hback Hfront].
  split; [exact (proj2 Hback eq_refl)|exact (proj2 Hfront eq_refl)].
Defined.

Lemma clear_frees_every_block_witness :
  @Gdeque.represents Z small_ring four_deque [5; 10; 20; 30]%Z
  /\ Gdeque.clear four_deque = Some Gdeque.gdeque_new.
Proof.
  split; [exact four_deque_represents|].
  exact (@clear_frees_every_block Z small_ring four_deque [5; 10; 20; 30]%Z
           four_deque_represents).
Defined.

Lemma traversal_yields_the_sequence_witness :
  @Gdeque.represents Z small_ring four_deque [5; 10; 20; 30]%Z
  /\ Gdeque.to_list four_deque = Some [5; 10; 20; 30]%Z.
Proof.
  split; [exact four_deque_represents|].
  exact (@traversal_yields_the_sequence Z small_ring four_deque
           [5; 10; 20; 30]%Z four_deque_represents).
Defined.

Lemma deque_refines_sequence_witness :
  @Gdeque.represents Z small_ring four_deque [5; 10; 20; 30]%Z
  /\ (Z.of_nat (List.length [5; 10; 20; 30]%Z + List.length sample_calls)
      < Gdeque.UINT_MODULUS)%Z
  /\ Gdeque.run_list sample_calls [5; 10; 20; 30]%Z
     = Some [5; 10; 20; 30; 10; 20; 7]%Z
  /\ exists d',
       Gdeque.run sample_calls four_deque = Some d'
       /\ Gdeque.represents d' [5; 10; 20; 30; 10; 20; 7]%Z.
Proof.
  split; [exact four_deque_represents|]. split; [reflexivity|].
  split; [reflexivity|].
  exact (@deque_refines_sequence Z small_ring sample_calls four_deque
           [5; 10; 20; 30]%Z four_deque_represents eq_refl).
Defined.

Lemma reachable_deques_hold_no_empty_block_witness :
  (Z.of_nat (List.length sample_calls) < Gdeque.UINT_MODULUS)%Z
  /\ exists d,
       Gdeque.run sample_calls (@Gdeque.gdeque_new Z small_ring) = Some d
       /\ exists xs,
            Gdeque.run_list sample_calls [] = Some xs
            /\ Gdeque.to_list d = Some xs
            /\ Gdeque.size d = Some (Z.of_nat (List.length xs))
            /\ base.size (Gdeque.heap d) <= List.length xs.
Proof.
  split; [reflexivity|].
  destruct (Gdeque.run sample_calls (@Gdeque.gdeque_new Z small_ring))
    as [d|] eqn:Hrun; [|by vm_compute in Hrun].
  exists d. split; [reflexivity|].
  exact (@reachable_deques_hold_no_empty_block Z small_ring sample_calls d
           eq_refl Hrun).
Defined.

Lemma push_back_wraps_the_counter_witness :
  Gdeque.precondition (Gdeque.set_num (Gdeque.UINT_MODULUS - 1) four_deque)
  = true
  /\ Gdeque.num (Gdeque.set_num (Gdeque.UINT_MODULUS - 1) four_deque)
     = (Gdeque.UINT_MODULUS - 1)%Z
  /\ exists d',
       Gdeque.push_back 40%Z
         (Gdeque.set_num (Gdeque.UINT_MODULUS - 1) four_deque) = Some d'
       /\ Gdeque.num d' = 0%Z
       /\ Gdeque.precondition d' = false
       /\ Gdeque.size d' = None.
Proof.
  split; [reflexivity|]. split; [reflexivity|].
  destruct (Gdeque.push_back 40%Z
              (Gdeque.set_num (Gdeque.UINT_MODULUS - 1) four_deque))
    as [d'|] eqn:Hpush; [|by vm_compute in Hpush].
  exists d'. split; [reflexivity|].
  destruct (@push_back_wraps_the_counter Z small_ring
              (Gdeque.set_num (Gdeque.UINT_MODULUS - 1) four_deque) d' 40%Z
              eq_refl eq_refl Hpush) as (Hn & Hp & Hs & _).
  split; [exact Hn|]. split; [exact Hp|exact Hs].
Defined.
